(** * auto-bind-js: a shallow embedding of [src/index.mjs]

    The module binds the methods of an object to that object.  Everything it
    does is reflection over ordinary JavaScript objects: walking prototype
    chains, reading property descriptors, [Function.prototype.bind] and
    [Object.defineProperty].  The embedding therefore starts with a small
    object store (objects, prototype links, own properties with their
    attributes, callable objects with identity) and translates the functions
    of the module over it, one definition per source function.

    User-written code (method bodies, getters, constructors) is a parameter
    [run] of the development: the theorems hold for every behaviour of it.

    What the store covers: ordinary objects (no [Proxy]); the built-in
    functions the module calls ([Object.getPrototypeOf],
    [Object.getOwnPropertyNames], [Object.getOwnPropertySymbols],
    [Object.getOwnPropertyDescriptor], [Object.defineProperty],
    [Object.setPrototypeOf]) with their standard behaviour; numbers as
    integers.  The own properties of an object are kept in the order
    [Object.getOwnPropertyNames] lists them.

    Two calls of the module go through a property of a value it was given,
    and are modelled as such.  [val.bind(self)] is a read of the property
    [bind] of the callable followed by a call of what was read;
    [Function.prototype.bind] itself is a callable object of the store, and
    what it does (allocate the bound function, read [length] and [name] of
    its target) is part of the model.  [options.pattern.test(m)] is
    [RegExp.prototype.test] on a [RegExp] object of the store: it reads and
    writes the [lastIndex] of that object when the expression has the [g]
    or the [y] flag.  A [RegExp] is taken with the built-in [test] and
    [exec] and a [lastIndex] holding a non-negative integer. *)

From Stdlib Require Import ZArith.
From stdpp Require Import ssreflect base decidable option strings numbers list.

#[local] Set Warnings "-rewrite-rw".

(** ** Values, property keys, descriptors *)

Definition loc := nat.

(** A property key is a string or a symbol. *)
Inductive key :=
  | KStr (s : string)
  | KSym (n : nat).

Inductive value :=
  | VUndef
  | VNull
  | VBool (b : bool)
  | VNum (z : Z)
  | VStr (s : string)
  | VSym (n : nat)
  | VObj (l : loc).

#[global] Instance key_eq_dec : EqDecision key.
Proof. solve_decision. Defined.

#[global] Instance value_eq_dec : EqDecision value.
Proof. solve_decision. Defined.

(** The value a key has when it is handled as a value ([m] in
    [includeSet.has(m)], [typeof m]). *)
Definition key_value (k : key) : value :=
  match k with
  | KStr s => VStr s
  | KSym n => VSym n
  end.

(** An own property: a data property or an accessor property. *)
Inductive prop :=
  | Data (v : value) (writable enumerable configurable : bool)
  | Accessor (getter setter : value) (enumerable configurable : bool).

#[global] Instance prop_eq_dec : EqDecision prop.
Proof. solve_decision. Defined.

(** A property descriptor as passed to [Object.defineProperty]: every field
    may be absent. *)
Record pdesc := {
  d_value : option value;
  d_writable : option bool;
  d_get : option value;
  d_set : option value;
  d_enumerable : option bool;
  d_configurable : option bool
}.

(** What a callable object runs.  [Native] is user code; [BoundF] is a
    bound function, the result of [Function.prototype.bind];
    [BindIntrinsic] is [Function.prototype.bind] itself; the other three
    are the closures this module creates. *)
Inductive code :=
  | Native (id : nat)
  | BoundF (target : value) (bthis : value) (bargs : list value)
  | BindIntrinsic
  | LazyGetter (originalFn : value) (self : loc) (method : key)
  | BoundGetter (fn : value) (target : value) (k : key)
  | WrappedCtor (original : loc).

(** An object.  [lastIndex] is the [lastIndex] of a [RegExp] object; other
    objects have none. *)
Record object := {
  proto : option loc;
  props : list (key * prop);
  extensible : bool;
  callable : option code;
  lastIndex : option nat
}.

(** The store: an object's reference is its index. Objects are never freed. *)
Definition heap := list object.

(** [Object.prototype] and [Function.prototype] live at fixed references. *)
Definition ObjectPrototype : loc := 0.
Definition FunctionPrototype : loc := 1.

Inductive exn :=
  | TypeError (msg : string)
  | Thrown (v : value).

(** Outcome of an operation on the store: a result, a thrown exception, or
    no outcome ([Stuck]: the fuel ran out or a reference dangles; neither
    happens in a JavaScript run, where chains are finite and references
    are live). *)
Inductive res (A : Type) :=
  | Ret (a : A) (h : heap)
  | Thr (e : exn) (h : heap)
  | Stuck.
Arguments Ret {A} a h.
Arguments Thr {A} e h.
Arguments Stuck {A}.

Definition bindR {A B} (r : res A) (f : A → heap → res B) : res B :=
  match r with
  | Ret a h => f a h
  | Thr e h => Thr e h
  | Stuck => Stuck
  end.

Notation "'let!' ( x , h ) := r 'in' k" :=
  (bindR r (fun x h => k))
  (at level 10, x name, h name, r at level 100, k at level 200,
   format "'[v' 'let!'  ( x ,  h )  :=  r  'in' '/' k ']'").

(** ** Own properties *)

Fixpoint assoc (k : key) (ps : list (key * prop)) : option prop :=
  match ps with
  | [] => None
  | (k', p) :: ps' => if decide (k' = k) then Some p else assoc k ps'
  end.

(** Replace in place, or append: own keys keep their creation order. *)
Fixpoint assoc_set (k : key) (p : prop) (ps : list (key * prop)) : list (key * prop) :=
  match ps with
  | [] => [(k, p)]
  | (k', p') :: ps' =>
      if decide (k' = k) then (k, p) :: ps' else (k', p') :: assoc_set k p ps'
  end.

(** [Object.getOwnPropertyDescriptor(o, k)] *)
Definition own_prop (h : heap) (l : loc) (k : key) : option prop :=
  match h !! l with
  | Some o => assoc k (props o)
  | None => None
  end.

(** [descriptor.value] *)
Definition prop_value (p : prop) : value :=
  match p with
  | Data v _ _ _ => v
  | Accessor _ _ _ _ => VUndef
  end.

Definition prop_enumerable (p : prop) : bool :=
  match p with
  | Data _ _ e _ => e
  | Accessor _ _ e _ => e
  end.

Definition prop_configurable (p : prop) : bool :=
  match p with
  | Data _ _ _ c => c
  | Accessor _ _ _ c => c
  end.

(** [Object.getOwnPropertyNames(o)]: the string keys, in order. *)
Definition own_names (o : object) : list string :=
  omap (λ kp, match fst kp with KStr s => Some s | KSym _ => None end) (props o).

(** [Object.getOwnPropertySymbols(o)] *)
Definition own_symbols (o : object) : list nat :=
  omap (λ kp, match fst kp with KSym n => Some n | KStr _ => None end) (props o).

(** [typeof v === 'function'] *)
Definition is_function (h : heap) (v : value) : bool :=
  match v with
  | VObj l =>
      match h !! l with
      | Some o => match callable o with Some _ => true | None => false end
      | None => false
      end
  | _ => false
  end.

(** ** [Object.defineProperty] *)

(** A descriptor with a [get] or [set] field. *)
Definition is_accessor_desc (d : pdesc) : bool :=
  match d_get d, d_set d with
  | None, None => false
  | _, _ => true
  end.

(** A descriptor with a [value] or [writable] field. *)
Definition is_data_desc (d : pdesc) : bool :=
  match d_value d, d_writable d with
  | None, None => false
  | _, _ => true
  end.

(** The descriptor of an own property, all fields present. *)
Definition to_pdesc (p : prop) : pdesc :=
  match p with
  | Data v w e c =>
      {| d_value := Some v; d_writable := Some w; d_get := None; d_set := None;
         d_enumerable := Some e; d_configurable := Some c |}
  | Accessor g s e c =>
      {| d_value := None; d_writable := None; d_get := Some g; d_set := Some s;
         d_enumerable := Some e; d_configurable := Some c |}
  end.

(** A property created from a descriptor: absent fields take their defaults. *)
Definition new_prop (d : pdesc) : prop :=
  if is_accessor_desc d then
    Accessor (default VUndef (d_get d)) (default VUndef (d_set d))
             (default false (d_enumerable d)) (default false (d_configurable d))
  else
    Data (default VUndef (d_value d)) (default false (d_writable d))
         (default false (d_enumerable d)) (default false (d_configurable d)).

Definition opt_agrees {A} `{EqDecision A} (o : option A) (a : A) : bool :=
  match o with
  | Some x => bool_decide (x = a)
  | None => true
  end.

(** May the existing property [cur] be redefined by [d]?  A configurable
    property always may; a non-configurable one only by a descriptor that
    changes nothing it is not allowed to. *)
Definition redefinable (cur : prop) (d : pdesc) : bool :=
  if prop_configurable cur then true
  else
    negb (bool_decide (d_configurable d = Some true))
    && opt_agrees (d_enumerable d) (prop_enumerable cur)
    && match cur with
       | Accessor g s _ _ =>
           negb (is_data_desc d) && opt_agrees (d_get d) g && opt_agrees (d_set d) s
       | Data v w _ _ =>
           negb (is_accessor_desc d)
           && (w || (negb (bool_decide (d_writable d = Some true))
                     && opt_agrees (d_value d) v))
       end.

(** The property after applying [d] to the existing property [cur]. *)
Definition apply_desc (cur : prop) (d : pdesc) : prop :=
  let e := default (prop_enumerable cur) (d_enumerable d) in
  let c := default (prop_configurable cur) (d_configurable d) in
  match cur with
  | Data v w _ _ =>
      if is_accessor_desc d then
        Accessor (default VUndef (d_get d)) (default VUndef (d_set d)) e c
      else Data (default v (d_value d)) (default w (d_writable d)) e c
  | Accessor g s _ _ =>
      if is_data_desc d then
        Data (default VUndef (d_value d)) (default false (d_writable d)) e c
      else Accessor (default g (d_get d)) (default s (d_set d)) e c
  end.

Definition set_props (l : loc) (ps : list (key * prop)) (h : heap) : heap :=
  match h !! l with
  | Some o =>
      <[l := {| proto := proto o; props := ps;
                extensible := extensible o; callable := callable o;
                lastIndex := lastIndex o |}]> h
  | None => h
  end.

(** A getter or setter in a descriptor must be callable or [undefined]. *)
Definition accessor_ok (h : heap) (f : option value) : bool :=
  match f with
  | None | Some VUndef => true
  | Some v => is_function h v
  end.

(** [Object.defineProperty(l, k, d)]; it throws a [TypeError] when the
    descriptor is malformed or the definition is rejected. *)
Definition defineProperty (l : loc) (k : key) (d : pdesc) (h : heap) : res unit :=
  match h !! l with
  | None => Stuck
  | Some o =>
      if is_accessor_desc d && is_data_desc d then
        Thr (TypeError "Invalid property descriptor") h
      else if negb (accessor_ok h (d_get d) && accessor_ok h (d_set d)) then
        Thr (TypeError "Getter or setter must be a function") h
      else
        match assoc k (props o) with
        | None =>
            if extensible o then Ret tt (set_props l (assoc_set k (new_prop d) (props o)) h)
            else Thr (TypeError "Cannot define property, object is not extensible") h
        | Some cur =>
            if redefinable cur d then
              Ret tt (set_props l (assoc_set k (apply_desc cur d) (props o)) h)
            else Thr (TypeError "Cannot redefine property") h
        end
  end.

(** Allocation of a new object. *)
Definition alloc (o : object) (h : heap) : loc * heap := (length h, h ++ [o]).

(** The bound function [Function.prototype.bind] creates, before its
    [length] and [name] are defined: its prototype is that of the target. *)
Definition bound_exotic (pr : option loc) (target thisArg : value) (args : list value)
  : object :=
  {| proto := pr; props := []; extensible := true;
     callable := Some (BoundF target thisArg args); lastIndex := None |}.

(** [{ value, writable: false, enumerable: false, configurable: true }]: the
    attributes of the [length] and the [name] of a function. *)
Definition fixed_desc (v : value) : pdesc :=
  {| d_value := Some v; d_writable := Some false; d_get := None; d_set := None;
     d_enumerable := Some false; d_configurable := Some true |}.

(** A function object created by evaluating a function expression or a
    method definition of the module; its own [length] and [name] are tracked
    only where the module touches them. *)
Definition closure (c : code) (ps : list (key * prop)) : object :=
  {| proto := Some FunctionPrototype; props := ps; extensible := true;
     callable := Some c; lastIndex := None |}.

(** ** Walking the prototype chain

    Each walk takes a bound [n] on the number of levels it may visit and
    answers [None] when the bound is reached. *)

(** The property found for [k] starting at [start] itself and walking up to
    [null]: the lookup of a property read [o[k]]. *)
Fixpoint find_prop (n : nat) (h : heap) (start : option loc) (k : key)
  : option (option prop) :=
  match start with
  | None => Some None
  | Some l =>
      match n with
      | 0 => None
      | S n' =>
          match h !! l with
          | None => None
          | Some o =>
              match assoc k (props o) with
              | Some p => Some (Some p)
              | None => find_prop n' h (proto o) k
              end
          end
      end
  end.

(** ** The module: [BUILTIN_OBJECT_METHODS], [getAllMethodNames] *)

Definition BUILTIN_OBJECT_METHODS : list string :=
  [ "constructor"; "toString"; "toLocaleString"; "valueOf"; "hasOwnProperty";
    "isPrototypeOf"; "propertyIsEnumerable"; "__defineGetter__";
    "__defineSetter__"; "__lookupGetter__"; "__lookupSetter__" ].

(** [methods.add(key)] on a [Set]: insertion order, no duplicates. *)
Definition add (methods : list key) (k : key) : list key :=
  if bool_decide (k ∈ methods) then methods else methods ++ [k].

(** [descriptor && typeof descriptor.value === 'function'] for the own
    property [k] of [p]. *)
Definition has_method (h : heap) (p : loc) (k : key) : bool :=
  match own_prop h p k with
  | Some d => is_function h (prop_value d)
  | None => false
  end.

(** The body of the [while] loop of [getAllMethodNames] at level [p]. *)
Definition scan_level (h : heap) (p : loc) (o : object) (methods : list key)
  : list key :=
  let methods :=
    foldl (λ ms key,
             if bool_decide (key = "constructor") then ms
             else if has_method h p (KStr key) then add ms (KStr key) else ms)
          methods (own_names o) in
  foldl (λ ms sym, if has_method h p (KSym sym) then add ms (KSym sym) else ms)
        methods (own_symbols o).

(** The [while (proto && proto !== Object.prototype)] loop of
    [getAllMethodNames] (index.mjs, lines 33-60). *)
Fixpoint walk_methods (n : nat) (h : heap) (pr : option loc) (methods : list key)
  : option (list key) :=
  match pr with
  | None => Some methods
  | Some p =>
      if bool_decide (p = ObjectPrototype) then Some methods
      else
        match n with
        | 0 => None
        | S n' =>
            match h !! p with
            | None => None
            | Some o => walk_methods n' h (proto o) (scan_level h p o methods)
            end
        end
  end.

Definition getAllMethodNames (n : nat) (h : heap) (obj : loc) : option (list key) :=
  match h !! obj with
  | Some o => walk_methods n h (proto o) []
  | None => None
  end.

(** ** [filterMethods] (index.mjs, lines 65-91) *)

(** A [RegExp], with the built-in [test] and [exec]: the reference of the
    object, and what its internal slots, which never change, compute.  [pat_exec i s] is the match of the
    expression against [s] attempted from the index [i] (searching forward
    from [i] with the [g] flag, at [i] exactly with the [y] flag): the index
    at which the match ends, or nothing.  [pat_stateful] tells whether the
    expression has the [g] or the [y] flag. *)
Record pattern := {
  pat_ref : loc;
  pat_exec : nat → string → option nat;
  pat_stateful : bool
}.

(** The options object. *)
Record options := {
  opt_include : option (list value);
  opt_exclude : option (list value);
  opt_pattern : option pattern;
  opt_lazy : bool
}.

(** [{}] *)
Definition no_options : options :=
  {| opt_include := None; opt_exclude := None; opt_pattern := None; opt_lazy := false |}.

Definition is_symbol (m : key) : bool :=
  match m with
  | KSym _ => true
  | KStr _ => false
  end.

Definition builtin_has (m : key) : bool :=
  match m with
  | KStr s => bool_decide (s ∈ BUILTIN_OBJECT_METHODS)
  | KSym _ => false
  end.

(** [new Set(xs).has(m)] *)
Definition set_has (xs : list value) (m : key) : bool :=
  bool_decide (key_value m ∈ xs).

Definition set_lastIndex (r : loc) (i : nat) (h : heap) : heap :=
  match h !! r with
  | Some o =>
      <[r := {| proto := proto o; props := props o; extensible := extensible o;
                callable := callable o; lastIndex := Some i |}]> h
  | None => h
  end.

(** [pattern.test(s)], that is [RegExp.prototype.test]: without the [g] and
    the [y] flag the match is attempted from the index 0 and [lastIndex] is
    left alone; with one of them it is attempted from [lastIndex], which is
    set to the end of the match, or to 0 when there is none. *)
Definition regexp_test (pat : pattern) (s : string) (h : heap) : res bool :=
  if pat_stateful pat then
    match h !! pat_ref pat with
    | None => Stuck
    | Some ro =>
        match lastIndex ro with
        | None => Stuck
        | Some i =>
            match pat_exec pat i s with
            | Some e => Ret true (set_lastIndex (pat_ref pat) e h)
            | None => Ret false (set_lastIndex (pat_ref pat) 0 h)
            end
        end
    end
  else
    Ret (match pat_exec pat 0 s with Some _ => true | None => false end) h.

(** [typeof m === 'string' && pattern.test(m)] *)
Definition pattern_test (pat : pattern) (m : key) (h : heap) : res bool :=
  match m with
  | KStr s => regexp_test pat s h
  | KSym _ => Ret false h
  end.

(** [filtered.filter((m) => typeof m === 'string' && options.pattern.test(m))]:
    the callback is applied to the elements in order. *)
Fixpoint filter_pattern (pat : pattern) (ms : list key) (h : heap) : res (list key) :=
  match ms with
  | [] => Ret [] h
  | m :: rest =>
      let! (b, h1) := pattern_test pat m h in
      let! (kept, h2) := filter_pattern pat rest h1 in
      Ret (if b then m :: kept else kept) h2
  end.

Definition filterMethods (methods : list key) (opts : options) (h : heap)
  : res (list key) :=
  let filtered := methods in
  let filtered := List.filter (λ m, is_symbol m || negb (builtin_has m)) filtered in
  let filtered :=
    match opt_include opts with
    | Some inc => List.filter (λ m, set_has inc m) filtered
    | None => filtered
    end in
  let filtered :=
    match opt_exclude opts with
    | Some exc => List.filter (λ m, negb (set_has exc m)) filtered
    | None => filtered
    end in
  match opt_pattern opts with
  | Some pat => filter_pattern pat filtered h
  | None => Ret filtered h
  end.

(** ** [findDescriptorInChain] (index.mjs, lines 141-149) *)

Fixpoint walk_descriptor (n : nat) (h : heap) (pr : option loc) (k : key)
  : option (option prop) :=
  match pr with
  | None => Some None
  | Some p =>
      if bool_decide (p = ObjectPrototype) then Some None
      else
        match n with
        | 0 => None
        | S n' =>
            match h !! p with
            | None => None
            | Some o =>
                match assoc k (props o) with
                | Some d => Some (Some d)
                | None => walk_descriptor n' h (proto o) k
                end
            end
        end
  end.

Definition findDescriptorInChain (n : nat) (h : heap) (obj : loc) (k : key)
  : option (option prop) :=
  match h !! obj with
  | Some o => walk_descriptor n h (proto o) k
  | None => None
  end.

(** The descriptor [bindLazy] works with:
    [Object.getOwnPropertyDescriptor(proto, method) ||
     findDescriptorInChain(self, method)].
    [Object.getOwnPropertyDescriptor(null, _)] throws. *)
Definition lazy_descriptor (n : nat) (h : heap) (self : loc) (method : key)
  : res (option prop) :=
  match h !! self with
  | None => Stuck
  | Some so =>
      match proto so with
      | None => Thr (TypeError "Cannot convert undefined or null to object") h
      | Some p =>
          match h !! p with
          | None => Stuck
          | Some po =>
              match assoc method (props po) with
              | Some d => Ret (Some d) h
              | None =>
                  match findDescriptorInChain n h self method with
                  | Some d => Ret d h
                  | None => Stuck
                  end
              end
          end
      end
  end.

(** The descriptor both binders install for a bound method:
    [{ value, writable: true, configurable: true, enumerable: false }]. *)
Definition bound_desc (v : value) : pdesc :=
  {| d_value := Some v; d_writable := Some true; d_get := None; d_set := None;
     d_enumerable := Some false; d_configurable := Some true |}.

(** [{ configurable: true, enumerable: false, get }] *)
Definition getter_desc (g : value) : pdesc :=
  {| d_value := None; d_writable := None; d_get := Some g; d_set := None;
     d_enumerable := Some false; d_configurable := Some true |}.

(** How a callable is entered: a call with a receiver, or [new]. *)
Inductive invocation :=
  | ICall (this : value) (args : list value)
  | INew (args : list value).

(** The argument list of [autoBind] after [self]: nothing, an options
    object, or the string shorthand [autoBind(self, 'a', 'b', ...)]. *)
Inductive optarg :=
  | OUndef
  | OOpts (o : options)
  | OStr (first : string) (rest : list value).

(** ** The binders *)

Section Binder.

(** User code: what the native function [id] does when it is called or
    constructed on a store. *)
Variable run : nat → invocation → heap → res value.

Section Open.

(** The interpreter of callables available to the operations below. *)
Variable invoke_rec : value → invocation → heap → res value.
Variable n : nat.

(** The property read [o[k]]: own property first, then the chain; a
    getter is called with [o] as receiver. *)
Definition get_with (o : loc) (k : key) (h : heap) : res value :=
  match find_prop n h (Some o) k with
  | None => Stuck
  | Some None => Ret VUndef h
  | Some (Some (Data v _ _ _)) => Ret v h
  | Some (Some (Accessor g _ _ _)) =>
      match g with
      | VUndef => Ret VUndef h
      | _ => invoke_rec g (ICall (VObj o) []) h
      end
  end.

(** [Function.prototype.bind] called on [target] with the arguments
    [thisArg, ...args]: the bound function is created, then [length] is
    read from the target if it has such an own property, then [name];
    both reads are property reads. *)
Definition bind_intrinsic (target thisArg : value) (args : list value) (h : heap)
  : res value :=
  match target with
  | VObj t =>
      match h !! t with
      | None => Stuck
      | Some to =>
          match callable to with
          | None => Thr (TypeError "Bind must be called on a function") h
          | Some _ =>
              let (F, h1) := alloc (bound_exotic (proto to) target thisArg args) h in
              let! (L, h2) :=
                (match own_prop h1 t (KStr "length") with
                 | Some _ =>
                     let! (len, h2) := get_with t (KStr "length") h1 in
                     Ret (match len with
                          | VNum z => Z.max 0 (z - Z.of_nat (length args))
                          | _ => 0%Z
                          end) h2
                 | None => Ret 0%Z h1
                 end) in
              let! (_, h3) := defineProperty F (KStr "length") (fixed_desc (VNum L)) h2 in
              let! (nm, h4) := get_with t (KStr "name") h3 in
              let name := match nm with VStr s => s | _ => EmptyString end in
              let! (_, h5) :=
                defineProperty F (KStr "name")
                  (fixed_desc (VStr (String.append "bound " name))) h4 in
              Ret (VObj F) h5
          end
      end
  | _ => Thr (TypeError "Bind must be called on a function") h
  end.

(** [f.bind(thisArg)]: the property [bind] of [f] is read, and what was
    read is called with [f] as receiver. *)
Definition call_bind (f thisArg : value) (h : heap) : res value :=
  match f with
  | VObj l =>
      let! (b, h1) := get_with l (KStr "bind") h in
      invoke_rec b (ICall f [thisArg]) h1
  | _ => Thr (TypeError "bind is not a function") h
  end.

(** [bindEager] (index.mjs, lines 96-108) *)
Fixpoint bindEager_with (self : loc) (methods : list key) (h : heap) : res unit :=
  match methods with
  | [] => Ret tt h
  | method :: rest =>
      let! (val, h1) := get_with self method h in
      if is_function h1 val then
        let! (b, h2) := call_bind val (VObj self) h1 in
        let! (_, h3) := defineProperty self method (bound_desc b) h2 in
        bindEager_with self rest h3
      else bindEager_with self rest h1
  end.

(** [bindLazy] (index.mjs, lines 113-139); the body of the getter it
    installs is [lazy_getter] below. *)
Fixpoint bindLazy_with (self : loc) (methods : list key) (h : heap) : res unit :=
  match methods with
  | [] => Ret tt h
  | method :: rest =>
      let! (descriptor, h1) := lazy_descriptor n h self method in
      match descriptor with
      | Some d =>
          if is_function h1 (prop_value d) then
            let originalFn := prop_value d in
            let (g, h2) := alloc (closure (LazyGetter originalFn self method) []) h1 in
            let! (_, h3) := defineProperty self method (getter_desc (VObj g)) h2 in
            bindLazy_with self rest h3
          else bindLazy_with self rest h1
      | None => bindLazy_with self rest h1
      end
  end.

(** [autoBind] (index.mjs, lines 162-179) *)
Definition autoBind_with (self : loc) (opts : optarg) (h : heap) : res value :=
  let opts :=
    match opts with
    | OStr first rest =>
        OOpts {| opt_include := Some (VStr first :: rest); opt_exclude := None;
                 opt_pattern := None; opt_lazy := false |}
    | _ => opts
    end in
  match getAllMethodNames n h self with
  | None => Stuck
  | Some allMethods =>
      let! (methods, h0) :=
        filterMethods allMethods
          (match opts with OOpts o => o | _ => no_options end) h in
      let! (_, h1) :=
        (if match opts with OOpts o => opt_lazy o | _ => false end
         then bindLazy_with self methods h0
         else bindEager_with self methods h0) in
      Ret (VObj self) h1
  end.

(** The body of the getter installed by [bindLazy]. *)
Definition lazy_getter (originalFn : value) (self : loc) (method : key) (h : heap)
  : res value :=
  let! (boundFn, h1) := call_bind originalFn (VObj self) h in
  let! (_, h2) := defineProperty self method (bound_desc boundFn) h1 in
  Ret boundFn h2.

(** The body of the getter returned by [bound], read through [this]. *)
Definition bound_getter (fn target : value) (k : key) (this : value) (h : heap)
  : res value :=
  if bool_decide (this = target) then Ret fn h
  else
    let! (boundFn, h1) := call_bind fn this h in
    match this with
    | VObj t =>
        let! (_, h2) := defineProperty t k (bound_desc boundFn) h1 in
        Ret boundFn h2
    | _ => Thr (TypeError "Object.defineProperty called on non-object") h1
    end.

(** The body of [wrapped] in [boundClass]:
    [const instance = new original(...args); autoBind(instance); return instance]. *)
Definition wrapped_body (original : loc) (args : list value) (h : heap) : res value :=
  let! (instance, h1) := invoke_rec (VObj original) (INew args) h in
  match instance with
  | VObj i =>
      let! (_, h2) := autoBind_with i OUndef h1 in
      Ret instance h2
  | _ => Stuck
  end.

End Open.

(** The object [new f(...)] prepares as [this] when [f] is an ordinary
    function: its prototype is [f.prototype] when that is an object. *)
Definition fresh_this (o : object) : object :=
  {| proto := match assoc (KStr "prototype") (props o) with
              | Some (Data (VObj p) _ _ _) => Some p
              | _ => Some ObjectPrototype
              end;
     props := []; extensible := true; callable := None; lastIndex := None |}.

(** Calling or constructing the callable [f], to depth [n]. *)
Fixpoint invoke (n : nat) (f : value) (inv : invocation) (h : heap) : res value :=
  match n with
  | 0 => Stuck
  | S n' =>
      match f with
      | VObj l =>
          match h !! l with
          | None => Stuck
          | Some o =>
              match callable o with
              | None => Thr (TypeError "not a function") h
              | Some (Native id) => run id inv h
              | Some (BoundF target bthis bargs) =>
                  match inv with
                  | ICall _ args => invoke n' target (ICall bthis (bargs ++ args)) h
                  | INew args => invoke n' target (INew (bargs ++ args)) h
                  end
              | Some BindIntrinsic =>
                  match inv with
                  | ICall target args =>
                      bind_intrinsic (invoke n') n' target (hd VUndef args) (tl args) h
                  | INew _ => Thr (TypeError "not a constructor") h
                  end
              | Some (LazyGetter originalFn self method) =>
                  match inv with
                  | ICall _ _ => lazy_getter (invoke n') n' originalFn self method h
                  | INew _ => Thr (TypeError "not a constructor") h
                  end
              | Some (BoundGetter fn target k) =>
                  match inv with
                  | ICall this _ => bound_getter (invoke n') n' fn target k this h
                  | INew _ => Thr (TypeError "not a constructor") h
                  end
              | Some (WrappedCtor original) =>
                  match inv with
                  | ICall _ args => wrapped_body (invoke n') n' original args h
                  | INew args =>
                      let (_, h1) := alloc (fresh_this o) h in
                      wrapped_body (invoke n') n' original args h1
                  end
              end
          end
      | _ => Thr (TypeError "not a function") h
      end
  end.

Definition call (n : nat) (f this : value) (args : list value) (h : heap) : res value :=
  invoke n f (ICall this args) h.

Definition construct (n : nat) (f : value) (args : list value) (h : heap) : res value :=
  invoke n f (INew args) h.

Definition get (n : nat) := get_with (invoke n) n.
Definition bindEager (n : nat) := bindEager_with (invoke n) n.
Definition bindLazy (n : nat) := bindLazy_with n.
Definition autoBind (n : nat) := autoBind_with (invoke n) n.

(** *** The React-aware variant (index.mjs, lines 183-216) *)

Definition REACT_LIFECYCLE_METHODS : list string :=
  [ "render"; "componentDidMount"; "componentDidUpdate"; "componentWillUnmount";
    "shouldComponentUpdate"; "getSnapshotBeforeUpdate"; "getDerivedStateFromProps";
    "getDerivedStateFromError"; "componentDidCatch"; "UNSAFE_componentWillMount";
    "UNSAFE_componentWillReceiveProps"; "UNSAFE_componentWillUpdate";
    "getDefaultProps"; "getInitialState"; "componentWillMount";
    "componentWillReceiveProps"; "componentWillUpdate" ].

(** [{ ...options, exclude }] *)
Definition react_options (opts : options) : options :=
  let exclude := default [] (opt_exclude opts) ++ map VStr REACT_LIFECYCLE_METHODS in
  {| opt_include := opt_include opts; opt_exclude := Some exclude;
     opt_pattern := opt_pattern opts; opt_lazy := opt_lazy opts |}.

Definition autoBindReact (n : nat) (self : loc) (opts : option options) (h : heap)
  : res value :=
  let options := default no_options opts in
  autoBind n self (OOpts (react_options options)) h.

(** *** The decorators (index.mjs, lines 233-285) *)

(** [{ value }] *)
Definition value_desc (v : value) : pdesc :=
  {| d_value := Some v; d_writable := None; d_get := None; d_set := None;
     d_enumerable := None; d_configurable := None |}.

(** The own properties a function expression [function (...args) {}] named
    [wrapped] is created with; [pw] is its fresh prototype object. *)
Definition wrapped_props (pw : loc) : list (key * prop) :=
  [ (KStr "length", Data (VNum 0) false false true);
    (KStr "name", Data (VStr "wrapped") false false true);
    (KStr "prototype", Data (VObj pw) true false false) ].

Definition RESERVED_STATICS : list string :=
  [ "length"; "name"; "prototype"; "arguments"; "caller" ].

(** [Object.setPrototypeOf(l, p)] on an object no other object inherits
    from yet. *)
Definition setPrototypeOf (l : loc) (p : option loc) (h : heap) : res unit :=
  match h !! l with
  | None => Stuck
  | Some o =>
      if extensible o then
        Ret tt (<[l := {| proto := p; props := props o;
                          extensible := extensible o; callable := callable o;
                          lastIndex := lastIndex o |}]> h)
      else Thr (TypeError "object is not extensible") h
  end.

(** The [for (const key of Object.getOwnPropertyNames(original))] loop. *)
Fixpoint copy_statics (original wrapped : loc) (keys : list string) (h : heap)
  : res unit :=
  match keys with
  | [] => Ret tt h
  | key :: rest =>
      if bool_decide (key ∈ RESERVED_STATICS) then copy_statics original wrapped rest h
      else
        match own_prop h original (KStr key) with
        | Some desc =>
            let! (_, h1) := defineProperty wrapped (KStr key) (to_pdesc desc) h in
            copy_statics original wrapped rest h1
        | None => copy_statics original wrapped rest h
        end
  end.

Definition boundClass (n : nat) (target : loc) (h : heap) : res value :=
  let original := target in
  let wrapped := length h in
  let (_, h1) := alloc (closure (WrappedCtor original) (wrapped_props (S wrapped))) h in
  let (_, h2) :=
    alloc {| proto := Some ObjectPrototype;
             props := [(KStr "constructor", Data (VObj wrapped) true false true)];
             extensible := true; callable := None; lastIndex := None |} h1 in
  (* wrapped.prototype = original.prototype: an assignment to an own
     writable data property *)
  let! (p, h3) := get n original (KStr "prototype") h2 in
  let! (_, h4) := defineProperty wrapped (KStr "prototype") (value_desc p) h3 in
  let! (nm, h5) := get n original (KStr "name") h4 in
  let! (_, h6) := defineProperty wrapped (KStr "name") (value_desc nm) h5 in
  let! (_, h7) := setPrototypeOf wrapped (Some original) h6 in
  match h7 !! original with
  | None => Stuck
  | Some oo =>
      let! (_, h8) := copy_statics original wrapped (own_names oo) h7 in
      Ret (VObj wrapped) h8
  end.

(** [bound(target, key, descriptor)]; [descriptor] may be missing. *)
Definition bound (target : value) (k : key) (descriptor : option pdesc) (h : heap)
  : res pdesc :=
  match descriptor with
  | None => Thr (TypeError "@bound can only be applied to methods") h
  | Some d =>
      if negb (is_function h (default VUndef (d_value d))) then
        Thr (TypeError "@bound can only be applied to methods") h
      else
        let fn := default VUndef (d_value d) in
        let (g, h1) := alloc (closure (BoundGetter fn target k) []) h in
        Ret (getter_desc (VObj g)) h1
  end.

(** Does the chain from [start] reach the object [p]? *)
Fixpoint in_chain (n : nat) (h : heap) (start : option loc) (p : loc) : option bool :=
  match start with
  | None => Some false
  | Some l =>
      if bool_decide (l = p) then Some true
      else
        match n with
        | 0 => None
        | S n' =>
            match h !! l with
            | None => None
            | Some o => in_chain n' h (proto o) p
            end
        end
  end.

(** [x instanceof c], where no [Symbol.hasInstance] method other than the
    built-in one is involved.  The right-hand side must be callable; for a
    bound function the test is made on its target; for any other
    callable, [c.prototype] is read and looked for on the chain of [x]. *)
Fixpoint instanceof (n : nat) (x c : loc) (h : heap) : res bool :=
  match n with
  | 0 => Stuck
  | S n' =>
      match h !! c with
      | None => Stuck
      | Some co =>
          match callable co with
          | None => Thr (TypeError "Right-hand side of instanceof is not callable") h
          | Some (BoundF target _ _) =>
              match target with
              | VObj t => instanceof n' x t h
              | _ => Stuck
              end
          | Some _ =>
              let! (p, h1) := get (S n') c (KStr "prototype") h in
              match p with
              | VObj pl =>
                  match h1 !! x with
                  | None => Stuck
                  | Some xo =>
                      match in_chain (S n') h1 (proto xo) pl with
                      | Some b => Ret b h1
                      | None => Stuck
                      end
                  end
              | _ => Thr (TypeError "Function has non-object prototype in instanceof check") h1
              end
          end
      end
  end.

End Binder.

(** * Vocabulary of the statements *)

(** ** Reads that run no code

    [o[k]] is plain when the lookup ends at a data property, at nothing, or
    at an accessor without getter: no getter runs.  [read_value] is what
    the read then yields. *)

Definition plain_read (n : nat) (h : heap) (o : loc) (k : key) : bool :=
  match find_prop n h (Some o) k with
  | Some None => true
  | Some (Some (Data _ _ _ _)) => true
  | Some (Some (Accessor VUndef _ _ _)) => true
  | _ => false
  end.

Definition read_value (n : nat) (h : heap) (o : loc) (k : key) : value :=
  match find_prop n h (Some o) k with
  | Some (Some p) => prop_value p
  | _ => VUndef
  end.

(** ** Well-formed stores: the references held in properties are live *)

Definition live (h : heap) (v : value) : Prop :=
  ∀ l, v = VObj l → l < length h.

Definition closed (h : heap) : Prop :=
  ∀ l o k p, h !! l = Some o → assoc k (props o) = Some p → live h (prop_value p).

Definition liveb (h : heap) (v : value) : bool :=
  match v with
  | VObj l => bool_decide (l < length h)
  | _ => true
  end.

Definition closedb (h : heap) : bool :=
  forallb (λ o, forallb (λ kp, liveb h (prop_value (snd kp))) (props o)) h.

(** ** One store extending another

    [upd self K h h']: [h'] has every object of [h], unchanged except that
    the own properties of [self] may differ at the keys in [K] and that the
    [lastIndex] of a [RegExp] object may differ; [h'] may have new
    objects. *)

Definition same_shape (o o' : object) : Prop :=
  proto o' = proto o ∧ extensible o' = extensible o ∧ callable o' = callable o.

Definition upd (self : loc) (K : list key) (h h' : heap) : Prop :=
  ∀ l o, h !! l = Some o →
    ∃ o', h' !! l = Some o' ∧ same_shape o o'
          ∧ (l ≠ self → props o' = props o ∧ (lastIndex o = None → o' = o))
          ∧ (∀ k, k ∉ K → assoc k (props o') = assoc k (props o)).

(** [keeps_lastIndex h h']: every object of [h] is in [h'] with the
    [lastIndex] it had. *)
Definition keeps_lastIndex (h h' : heap) : Prop :=
  ∀ l o, h !! l = Some o → ∃ o', h' !! l = Some o' ∧ lastIndex o' = lastIndex o.

(** ** The options and the names [autoBind] works with *)

(** The options in force for an argument list: the shorthand is an include
    list, a missing argument is [{}]. *)
Definition options_of (a : optarg) : options :=
  match a with
  | OUndef => no_options
  | OOpts o => o
  | OStr first rest =>
      {| opt_include := Some (VStr first :: rest); opt_exclude := None;
         opt_pattern := None; opt_lazy := false |}
  end.

(** Discovery followed by filtering, as [autoBind] runs them. *)
Definition filtering (n : nat) (h : heap) (self : loc) (a : optarg) : res (list key) :=
  match getAllMethodNames n h self with
  | Some allMethods => filterMethods allMethods (options_of a) h
  | None => Stuck
  end.

(** The names retained after filtering. *)
Definition retained (n : nat) (h : heap) (self : loc) (a : optarg) : list key :=
  match filtering n h self a with
  | Ret methods _ => methods
  | _ => []
  end.

(** A pattern whose test does not depend on [lastIndex]: none, or one
    without the [g] and the [y] flag. *)
Definition stateless (o : options) : Prop :=
  ∀ pat, opt_pattern o = Some pat → pat_stateful pat = false.

(** The name matches the expression, the match being attempted from the
    index 0. *)
Definition matches (pat : pattern) (s : string) : bool :=
  match pat_exec pat 0 s with Some _ => true | None => false end.

(** The levels the walks of [getAllMethodNames] and [findDescriptorInChain]
    visit from [pr]. *)
Fixpoint chain (n : nat) (h : heap) (pr : option loc) : option (list loc) :=
  match pr with
  | None => Some []
  | Some p =>
      if bool_decide (p = ObjectPrototype) then Some []
      else
        match n with
        | 0 => None
        | S n' =>
            match h !! p with
            | None => None
            | Some o => (p ::.) <$> chain n' h (proto o)
            end
        end
  end.

(** ** The filtering pipeline, as the specification words it *)

(** The fixed exclusion set of the specification (4.1): constructor,
    toString, toLocaleString, valueOf, hasOwnProperty, isPrototypeOf,
    propertyIsEnumerable, and the four legacy getter and setter accessor
    names. *)
Definition spec_exclusion_set : list string :=
  [ "constructor"; "toString"; "toLocaleString"; "valueOf"; "hasOwnProperty";
    "isPrototypeOf"; "propertyIsEnumerable";
    "__defineGetter__"; "__defineSetter__"; "__lookupGetter__"; "__lookupSetter__" ].

(** Step 1: drop the names of the exclusion set; symbolic keys are exempt. *)
Definition stage_builtin (ms : list key) : list key :=
  List.filter (λ m, match m with
                    | KSym _ => true
                    | KStr s => bool_decide (s ∉ spec_exclusion_set)
                    end) ms.

(** Step 2: if [include] is given, keep only the names present in it. *)
Definition stage_include (o : options) (ms : list key) : list key :=
  match opt_include o with
  | Some inc => List.filter (λ m, bool_decide (key_value m ∈ inc)) ms
  | None => ms
  end.

(** Step 3: if [exclude] is given, drop the names present in it. *)
Definition stage_exclude (o : options) (ms : list key) : list key :=
  match opt_exclude o with
  | Some exc => List.filter (λ m, bool_decide (key_value m ∉ exc)) ms
  | None => ms
  end.

(** Step 4: if [pattern] is given, drop the symbolic names and keep the
    string names that match. *)
Definition stage_pattern (o : options) (ms : list key) : list key :=
  match opt_pattern o with
  | Some pat =>
      List.filter (λ m, match m with KStr s => matches pat s | KSym _ => false end) ms
  | None => ms
  end.

(** A name passes the four tests. *)
Definition passes (o : options) (m : key) : Prop :=
  (is_symbol m = true ∨ ∃ s, m = KStr s ∧ s ∉ spec_exclusion_set)
  ∧ (∀ inc, opt_include o = Some inc → key_value m ∈ inc)
  ∧ (∀ exc, opt_exclude o = Some exc → key_value m ∉ exc)
  ∧ (∀ pat, opt_pattern o = Some pat → ∃ s, m = KStr s ∧ matches pat s = true).

(** ** Names the binders act on *)

(** The names [bindEager] binds: those whose value is callable. *)
Definition eager_bound (n : nat) (h : heap) (self : loc) (ms : list key) : list key :=
  List.filter (λ m, is_function h (read_value n h self m)) ms.

(** [Object.defineProperty(l, k, d)] with a configurable [d] is accepted at
    [k]: the object is extensible and has no property [k], or its property
    [k] is configurable. *)
Definition definable (h : heap) (l : loc) (k : key) : bool :=
  match h !! l with
  | Some o =>
      match assoc k (props o) with
      | Some cur => prop_configurable cur
      | None => extensible o
      end
  | None => false
  end.

(** The getter and setter of an accessor property are callable or
    [undefined]. *)
Definition prop_ok (h : heap) (p : prop) : bool :=
  match p with
  | Data _ _ _ _ => true
  | Accessor g s _ _ => accessor_ok h (Some g) && accessor_ok h (Some s)
  end.

(** ** Callables with the built-in [bind] *)

(** [w] is a bound function of [f] with receiver [this] and no preset
    argument. *)
Definition wrapper_of (h : heap) (w : loc) (f this : value) : Prop :=
  ∃ wo, h !! w = Some wo ∧ callable wo = Some (BoundF f this []).

Definition is_bind_intrinsic (h : heap) (v : value) : bool :=
  match v with
  | VObj b =>
      match h !! b with
      | Some bo => match callable bo with Some BindIntrinsic => true | _ => false end
      | None => false
      end
  | _ => false
  end.

(** [f.bind(...)] runs no user code: [f] is callable, the lookup of [bind]
    on [f] ends at a data property that holds [Function.prototype.bind],
    its own [length], if any, is read without running a getter, and so is
    its [name]. *)
Definition has_builtin_bind (n : nat) (h : heap) (f : value) : bool :=
  match f with
  | VObj l =>
      is_function h f
      && match find_prop n h (Some l) (KStr "bind") with
         | Some (Some (Data b _ _ _)) => is_bind_intrinsic h b
         | _ => false
         end
      && match own_prop h l (KStr "length") with
         | Some (Accessor g _ _ _) => bool_decide (g = VUndef)
         | _ => true
         end
      && plain_read (pred n) h l (KStr "name")
  | _ => false
  end.

(** The instance is not [f] nor on the chain of [f]. *)
Definition off_chain (n : nat) (h : heap) (self : loc) (f : value) : bool :=
  match f with
  | VObj l =>
      match in_chain n h (Some l) self with
      | Some false => true
      | _ => false
      end
  | _ => false
  end.

Definition bindable (n : nat) (h : heap) (self : loc) (f : value) : bool :=
  off_chain n h self f && has_builtin_bind n h f.

(** The value is a primitive, an object that is not callable, or a callable
    with the built-in [bind]. *)
Definition settled (n : nat) (h : heap) (self : loc) (v : value) : bool :=
  match v with
  | VObj l =>
      match h !! l with
      | Some o =>
          match callable o with
          | None => true
          | Some _ => bindable n h self v
          end
      | None => false
      end
  | _ => true
  end.

(** Reading the name on the instance and binding what was read run no user
    code. *)
Definition quiet (n : nat) (h : heap) (self : loc) (m : key) : bool :=
  plain_read n h self m && settled n h self (read_value n h self m).

(** The [length] [Function.prototype.bind] gives to a bound function of [l]
    without preset argument. *)
Definition bound_length (h : heap) (l : loc) : Z :=
  match own_prop h l (KStr "length") with
  | Some (Data (VNum z) _ _ _) => Z.max 0 (z - 0)
  | _ => 0%Z
  end.

(** The [name] it gives to it. *)
Definition bound_name (n : nat) (h : heap) (l : loc) : string :=
  String.append "bound "
    match read_value n h l (KStr "name") with
    | VStr s => s
    | _ => EmptyString
    end.

(** The bound function [f.bind(this)] is when [f] has the built-in
    [bind]. *)
Definition bound_function (n : nat) (h : heap) (f this : value) : object :=
  {| proto := match f with
              | VObj l => match h !! l with Some o => proto o | None => None end
              | _ => None
              end;
     props := match f with
              | VObj l =>
                  [ (KStr "length", Data (VNum (bound_length h l)) false false true);
                    (KStr "name", Data (VStr (bound_name (pred n) h l)) false false true) ]
              | _ => []
              end;
     extensible := true;
     callable := Some (BoundF f this []);
     lastIndex := None |}.


(** ** The stages of [filterMethods] as the code has them *)

(** What the first three [filter] calls of [filterMethods] leave. *)
Definition before_pattern (ms : list key) (o : options) : list key :=
  let filtered := List.filter (λ m, is_symbol m || negb (builtin_has m)) ms in
  let filtered :=
    match opt_include o with
    | Some inc => List.filter (λ m, set_has inc m) filtered
    | None => filtered
    end in
  match opt_exclude o with
  | Some exc => List.filter (λ m, negb (set_has exc m)) filtered
  | None => filtered
  end.

(** ** The expression of a pattern *)



(** A callable that has no own property [bind]: it inherits the one it
    has. *)
Definition inherits_bind (h : heap) (v : value) : bool :=
  match v with
  | VObj l => match own_prop h l (KStr "bind") with None => true | Some _ => false end
  | _ => true
  end.

(** * A concrete world for the examples

    [class Foo { constructor() { this.name = 'foo' } getName() { return this.name } }]
    and an instance of it, on a store with [Object.prototype],
    [Function.prototype] and [Function.prototype.bind]. *)

Definition obj (p : option loc) (ps : list (key * prop)) : object :=
  {| proto := p; props := ps; extensible := true; callable := None;
     lastIndex := None |}.

Definition fn (id : nat) (ps : list (key * prop)) : object :=
  {| proto := Some FunctionPrototype; props := ps; extensible := true;
     callable := Some (Native id); lastIndex := None |}.

(** The own [length] and [name] of a function. *)
Definition fn_props (len : Z) (name : string) : list (key * prop) :=
  [ (KStr "length", Data (VNum len) false false true);
    (KStr "name", Data (VStr name) false false true) ].

(** A method as a class body defines it. *)
Definition method (l : loc) : prop := Data (VObj l) true false true.

(** A field as an assignment [this.x = v] creates it. *)
Definition field (v : value) : prop := Data v true true true.

(** User code of the examples:
    - 1: the constructor of [Foo]: [new Foo()] yields a new instance;
    - 2: [getName() { return this.name }];
    - 3: a getter [get handler() { return 1 }];
    - 4: a constructor that returns another object, [constructor() { return {} }];
    - 5: [getName() { return 'replaced' }];
    - 6: a getter [get zap() { this.getName = 0; return 1 }], run on an
      instance that has an own writable [getName];
    - others: do nothing. *)
Definition run0 (id : nat) (inv : invocation) (h : heap) : res value :=
  match id, inv with
  | 1, INew _ => Ret (VObj (length h)) (h ++ [obj (Some 3) [(KStr "name", field (VStr "foo"))]])
  | 2, ICall (VObj t) _ =>
      match own_prop h t (KStr "name") with
      | Some (Data v _ _ _) => Ret v h
      | _ => Ret VUndef h
      end
  | 2, ICall _ _ => Thr (TypeError "Cannot read properties of undefined") h
  | 3, ICall _ _ => Ret (VNum 1) h
  | 4, INew _ => Ret (VObj (length h)) (h ++ [obj (Some ObjectPrototype) []])
  | 5, ICall _ _ => Ret (VStr "replaced") h
  | 6, ICall (VObj t) _ =>
      let! (_, h1) := defineProperty t (KStr "getName") (value_desc (VNum 0)) h in
      Ret (VNum 1) h1
  | _, _ => Ret VUndef h
  end.

Definition class_props (name : string) (pr : loc) : list (key * prop) :=
  [ (KStr "length", Data (VNum 0) false false true);
    (KStr "name", Data (VStr name) false false true);
    (KStr "prototype", Data (VObj pr) false false false) ].

(** References: 0 [Object.prototype] (its methods are left out),
    1 [Function.prototype], 2 [Function.prototype.bind], 3 [Foo.prototype],
    4 [Foo], 5 [Foo.prototype.getName], 6 the instance. *)
Definition world : heap :=
  [ obj None [];
    {| proto := Some 0; props := [(KStr "bind", method 2)]; extensible := true;
       callable := Some (Native 0); lastIndex := None |};
    {| proto := Some 1; props := fn_props 1 "bind"; extensible := true;
       callable := Some BindIntrinsic; lastIndex := None |};
    obj (Some 0) [(KStr "constructor", method 4); (KStr "getName", method 5)];
    fn 1 (class_props "Foo" 3);
    fn 2 (fn_props 0 "getName");
    obj (Some 3) [(KStr "name", field (VStr "foo"))] ].

Definition lazy_opts : options :=
  {| opt_include := None; opt_exclude := None; opt_pattern := None; opt_lazy := true |}.

(** The instance also has an own field [getName = null]
    ([constructor() { this.name = 'foo'; this.getName = null }]). *)
Definition world_shadowed : heap :=
  <[6 := obj (Some 3) [(KStr "name", field (VStr "foo")); (KStr "getName", field VNull)]]> world.

(** The store after [autoBind(instance, { lazy: true })] on [world]:
    7 is the getter installed for [getName]. *)
Definition world_lazy : heap :=
  <[6 := obj (Some 3) [(KStr "name", field (VStr "foo"));
                       (KStr "getName", Accessor (VObj 7) VUndef false true)]]> world
  ++ [closure (LazyGetter (VObj 5) 6 (KStr "getName")) []].

(** [const b = Object.create(instance)] on [world_lazy]: 8 is [b]. *)
Definition world_derived : heap := world_lazy ++ [obj (Some 6) []].

(** After the lazy binding, [Foo.prototype.getName] is replaced by the
    function 8, [getName() { return 'replaced' }]. *)
Definition world_replaced : heap :=
  <[3 := obj (Some 0) [(KStr "constructor", method 4); (KStr "getName", method 8)]]> world_lazy
  ++ [fn 5 []].

(** [class Child extends Foo { get getName() { return 1 } hello() {} }]
    with an instance: 7 is [Child.prototype], 8 the getter, 9 the instance;
    [hello] is function 5. *)
Definition world_getter : heap :=
  world ++ [ obj (Some 3) [(KStr "getName", Accessor (VObj 8) VUndef false true);
                           (KStr "hello", method 5)];
             fn 3 [];
             obj (Some 7) [] ].

(** The store after [autoBind(instance, { lazy: true })] on [world_getter]:
    10 is the getter installed for [hello]. *)
Definition world_getter_lazy : heap :=
  <[9 := obj (Some 7) [(KStr "hello", Accessor (VObj 10) VUndef false true)]]> world_getter
  ++ [closure (LazyGetter (VObj 5) 9 (KStr "hello")) []].

(** The instance is not extensible ([Object.preventExtensions(instance)]). *)
Definition world_sealed : heap :=
  <[6 := {| proto := Some 3; props := [(KStr "name", field (VStr "foo"))];
            extensible := false; callable := None; lastIndex := None |}]> world.

(** [class Odd { constructor() { return {} } static [sym]() {} }]:
    7 is [Odd.prototype], 8 is [Odd], with a static method under the
    symbol 0 and one under the string [make]. *)
Definition world_odd : heap :=
  world ++ [ obj (Some 0) [(KStr "constructor", method 8)];
             fn 4 (class_props "Odd" 7 ++ [(KStr "make", method 5); (KSym 0, method 5)]) ].

(** The store after [autoBind(instance)] on [world]: 7 is the wrapper of
    [getName]. *)
Definition world_eager : heap :=
  <[6 := obj (Some 3) [(KStr "name", field (VStr "foo")); (KStr "getName", method 7)]]> world
  ++ [bound_function 3 world (VObj 5) (VObj 6)].

(** [class Comp { render() {} getName() {} }]: [Foo.prototype] also has a
    method [render]. *)
Definition world_react : heap :=
  <[3 := obj (Some 0) [(KStr "constructor", method 4); (KStr "render", method 5);
                       (KStr "getName", method 5)]]> world.

(** [{ include: ['render', 'getName'] }] *)
Definition include_render : options :=
  {| opt_include := Some [VStr "render"; VStr "getName"]; opt_exclude := None;
     opt_pattern := None; opt_lazy := false |}.

(** The store after [autoBindReact(instance, { include: ['render', 'getName'] })]
    on [world_react]. *)
Definition world_react_bound : heap :=
  <[6 := obj (Some 3) [(KStr "name", field (VStr "foo")); (KStr "getName", method 7)]]> world_react
  ++ [bound_function 3 world (VObj 5) (VObj 6)].

(** The store after a second [autoBind(instance)] on [world_eager]: 8 wraps
    the wrapper 7. *)
Definition world_eager_twice : heap :=
  <[6 := obj (Some 3) [(KStr "name", field (VStr "foo")); (KStr "getName", method 8)]]> world_eager
  ++ [bound_function 3 world_eager (VObj 7) (VObj 6)].

(** [class Foo { getName() {} zap() {} }] and
    [class Child extends Foo { get zap() { this.getName = 0; return 1 } }]
    with an instance: 7 is [Child.prototype], 8 the getter, 9 the
    instance. *)
Definition world_meddling : heap :=
  <[3 := obj (Some 0) [(KStr "constructor", method 4); (KStr "getName", method 5);
                       (KStr "zap", method 5)]]> world
  ++ [ obj (Some 3) [(KStr "zap", Accessor (VObj 8) VUndef false true)];
       fn 6 [];
       obj (Some 7) [(KStr "name", field (VStr "foo"))] ].

(** The matcher of the expression [/^p/g] for a literal [p]: it matches at
    the index 0 only, and the match ends after [p]. *)
Definition exec_prefix (p : string) (i : nat) (s : string) : option nat :=
  if Nat.eqb i 0 && String.prefix p s then Some (String.length p) else None.

(** [class Foo { handleA() {} handleB() {} handleC() {} }] with an
    instance, and the expression [/^handle/g]: 7 is [RegExp.prototype] (its
    methods are left out), 8 the expression, its [lastIndex] 0. *)
Definition world_rx : heap :=
  <[3 := obj (Some 0) [(KStr "constructor", method 4); (KStr "handleA", method 5);
                       (KStr "handleB", method 5); (KStr "handleC", method 5)]]> world
  ++ [ obj (Some 0) [];
       {| proto := Some 7; props := []; extensible := true; callable := None;
          lastIndex := Some 0 |} ].

Definition handle_g : pattern :=
  {| pat_ref := 8; pat_exec := exec_prefix "handle"; pat_stateful := true |}.

(** [{ pattern: /^handle/g }] *)
Definition pattern_opts : options :=
  {| opt_include := None; opt_exclude := None; opt_pattern := Some handle_g;
     opt_lazy := false |}.

(** The store after [autoBind(instance, { pattern: /^handle/g })] on
    [world_rx]: [handleA] and [handleC] are bound, 9 and 10 are the
    wrappers, and the [lastIndex] of the expression is 6. *)
Definition world_rx_bound : heap :=
  <[8 := {| proto := Some 7; props := []; extensible := true; callable := None;
            lastIndex := Some 6 |}]>
    (<[6 := obj (Some 3) [(KStr "name", field (VStr "foo")); (KStr "handleA", method 9);
                          (KStr "handleC", method 10)]]> world_rx)
  ++ [ bound_function 3 world (VObj 5) (VObj 6);
       bound_function 3 world (VObj 5) (VObj 6) ].

(** * Vocabulary of the further properties *)

(** The same options with the [lazy] flag set to [b]. *)
Definition set_lazy (b : bool) (o : options) : options :=
  {| opt_include := opt_include o; opt_exclude := opt_exclude o;
     opt_pattern := opt_pattern o; opt_lazy := b |}.

(** A name one of the four filters removes: a built-in string name, a name
    in [exclude], a name missing from [include], or, under a [pattern], a
    symbol, or a string that does not match an expression without the [g]
    and the [y] flag. *)
Definition filtered_out (o : options) (m : key) : Prop :=
  (∃ s, m = KStr s ∧ s ∈ BUILTIN_OBJECT_METHODS)
  ∨ (∃ exc, opt_exclude o = Some exc ∧ key_value m ∈ exc)
  ∨ (∃ inc, opt_include o = Some inc ∧ key_value m ∉ inc)
  ∨ (∃ pat, opt_pattern o = Some pat
            ∧ (is_symbol m = true
               ∨ (pat_stateful pat = false ∧ ∃ s, m = KStr s ∧ matches pat s = false))).

(** [REACT_LIFECYCLE_METHODS.has(m)] *)
Definition is_lifecycle (m : key) : bool :=
  match m with
  | KStr s => bool_decide (s ∈ REACT_LIFECYCLE_METHODS)
  | KSym _ => false
  end.

(** [class Foo { @bound getName() { return this.name } }]: the store after
    the decorator has replaced [Foo.prototype.getName] by the accessor it
    returns; 7 is the getter. *)
Definition world_decorated : heap :=
  <[3 := obj (Some 0) [(KStr "constructor", method 4);
                       (KStr "getName", Accessor (VObj 7) VUndef false true)]]> world
  ++ [closure (BoundGetter (VObj 5) (VObj 3) (KStr "getName")) []].

(** [Object.freeze(instance)] after [autoBind(instance, { lazy: true })]:
    the own properties of the instance are no longer configurable nor
    writable and the instance is not extensible. *)
Definition world_lazy_frozen : heap :=
  <[6 := {| proto := Some 3;
            props := [(KStr "name", Data (VStr "foo") false true false);
                      (KStr "getName", Accessor (VObj 7) VUndef false false)];
            extensible := false; callable := None; lastIndex := None |}]> world_lazy.

(** [Object.preventExtensions(instance)] on the instance of the decorated
    class. *)
Definition world_decorated_sealed : heap :=
  <[6 := {| proto := Some 3; props := [(KStr "name", field (VStr "foo"))];
            extensible := false; callable := None; lastIndex := None |}]> world_decorated.

(** [Object.setPrototypeOf(Foo.prototype.getName, null)] on [world]: the
    method is callable and has no property [bind]. *)
Definition world_bare : heap :=
  <[5 := {| proto := None; props := fn_props 0 "getName"; extensible := true;
            callable := Some (Native 2); lastIndex := None |}]> world.

(** On [world_react]:
    [class Child extends Comp {}] with
    [Object.defineProperty(Child.prototype, 'getName',
       bound(Child.prototype, 'render', descriptor))], [descriptor] that of
    the method [render], and an instance: 7 is [Child.prototype], 8 the
    getter [bound] returned, 9 the instance. *)
Definition world_react_getter : heap :=
  world_react
  ++ [ obj (Some 3) [(KStr "getName", Accessor (VObj 8) VUndef false true)];
       closure (BoundGetter (VObj 5) (VObj 7) (KStr "render")) [];
       obj (Some 7) [] ].

(** On [world]: the method has no prototype and an own property [bind]
    holding [Function.prototype.bind]
    ([Object.setPrototypeOf(f, null); f.bind = Function.prototype.bind]). *)
Definition world_own_bind : heap :=
  <[5 := {| proto := None; props := fn_props 0 "getName" ++ [(KStr "bind", field (VObj 2))];
            extensible := true; callable := Some (Native 2); lastIndex := None |}]> world.

(** On [world]: the method has an own property [bind] holding the user
    function 7, [function () { return 1 }]
    ([Foo.prototype.getName.bind = function () { return 1 }]). *)
Definition world_user_bind : heap :=
  <[5 := fn 2 (fn_props 0 "getName" ++ [(KStr "bind", field (VObj 7))])]> world
  ++ [fn 3 []].

(** On [world]: 7 is [Foo.bind(null)]. *)
Definition world_bound_ctor : heap :=
  world ++ [bound_function 3 world (VObj 4) VNull].

(** * Properties *)

(** ** Own-property lists *)

Lemma assoc_set_eq k p ps : assoc k (assoc_set k p ps) = Some p.
Proof.
  induction ps as [|[k' p'] ps IH]; simpl.
  - by rewrite decide_True.
  - destruct (decide (k' = k)) as [->|Hne]; simpl.
    + by rewrite decide_True.
    + by rewrite decide_False.
Qed.

Lemma assoc_set_ne k k' p ps : k ≠ k' → assoc k' (assoc_set k p ps) = assoc k' ps.
Proof.
  intros Hne. induction ps as [|[k0 p0] ps IH]; simpl.
  - by rewrite decide_False.
  - destruct (decide (k0 = k)) as [->|Hne0]; simpl.
    + by rewrite !decide_False.
    + destruct (decide (k0 = k')); done.
Qed.

(** ** Store extension *)

Lemma upd_refl self K h : upd self K h h.
Proof. intros l o Hl. exists o. by rewrite /same_shape. Qed.

Lemma upd_trans self K1 K2 h1 h2 h3 :
  upd self K1 h1 h2 → upd self K2 h2 h3 → upd self (K1 ++ K2) h1 h3.
Proof.
  intros H1 H2 l o Hl.
  destruct (H1 l o Hl) as (o2 & Hl2 & (Hp & He & Hc) & Hne & Hk).
  destruct (H2 l o2 Hl2) as (o3 & Hl3 & (Hp' & He' & Hc') & Hne' & Hk').
  exists o3. split; [done|]. split; [|split].
  - rewrite /same_shape. by rewrite Hp' He' Hc'.
  - intros Hn. destruct (Hne Hn) as [Hps Heq], (Hne' Hn) as [Hps' Heq'].
    split; [by rewrite Hps' Hps|]. intros Hli.
    rewrite -(Heq Hli). apply Heq'. by rewrite (Heq Hli).
  - intros k Hk0. rewrite not_elem_of_app in Hk0. destruct Hk0.
    rewrite Hk'; [|done]. by apply Hk.
Qed.

Lemma upd_weaken self K K' h h' : K ⊆ K' → upd self K h h' → upd self K' h h'.
Proof.
  intros Hsub H l o Hl. destruct (H l o Hl) as (o' & ? & ? & ? & Hk).
  exists o'. split; [done|]. split; [done|]. split; [done|].
  intros k Hk'. apply Hk. intros Hin. apply Hk'. by apply Hsub.
Qed.

Lemma upd_length self K h h' : upd self K h h' → length h ≤ length h'.
Proof.
  intros H. destruct (decide (length h ≤ length h')) as [|Hgt]; [done|].
  assert (Hlt : length h' < length h) by lia.
  destruct (lookup_lt_is_Some_2 h (length h') Hlt) as [o Ho].
  destruct (H _ _ Ho) as (o' & Ho' & _).
  apply lookup_lt_Some in Ho'. lia.
Qed.

Lemma upd_alloc self K o h : upd self K h (alloc o h).2.
Proof.
  intros l o0 Hl. exists o0. simpl. rewrite lookup_app_l; [|by eapply lookup_lt_Some].
  by rewrite /same_shape.
Qed.

Lemma set_props_lookup l ps h o :
  h !! l = Some o →
  set_props l ps h !! l
  = Some {| proto := proto o; props := ps; extensible := extensible o;
            callable := callable o; lastIndex := lastIndex o |}.
Proof.
  intros Hl. rewrite /set_props Hl. apply list_lookup_insert_eq. by eapply lookup_lt_Some.
Qed.

Lemma set_props_lookup_ne l l' ps h : l ≠ l' → set_props l ps h !! l' = h !! l'.
Proof.
  intros Hne. rewrite /set_props. destruct (h !! l); [|done].
  by apply list_lookup_insert_ne.
Qed.

Lemma upd_set_props self k p o h :
  h !! self = Some o → upd self [k] h (set_props self (assoc_set k p (props o)) h).
Proof.
  intros Hs l o0 Hl. destruct (decide (l = self)) as [->|Hne].
  - rewrite (set_props_lookup _ _ _ _ Hs). rewrite Hs in Hl. injection Hl as <-.
    eexists. split; [done|]. split; [done|]. split; [done|].
    intros k' Hk'. simpl. apply assoc_set_ne. intros ->. apply Hk'. apply list_elem_of_here.
  - exists o0. rewrite set_props_lookup_ne; [|done]. by rewrite /same_shape.
Qed.

(** What a successful [Object.defineProperty] does to the store. *)
Lemma defineProperty_Ret l k d h h' :
  defineProperty l k d h = Ret tt h' →
  ∃ o p, h !! l = Some o ∧ h' = set_props l (assoc_set k p (props o)) h
         ∧ p = match assoc k (props o) with
               | Some cur => apply_desc cur d
               | None => new_prop d
               end.
Proof.
  rewrite /defineProperty. destruct (h !! l) as [o|] eqn:Hl; [|done].
  destruct (_ && _); [done|]. destruct (negb _); [done|].
  destruct (assoc k (props o)) as [cur|] eqn:Ha.
  - destruct (redefinable cur d); [|done]. intros [= <-].
    exists o, (apply_desc cur d). by rewrite Ha.
  - destruct (extensible o); [|done]. intros [= <-].
    exists o, (new_prop d). by rewrite Ha.
Qed.

Lemma defineProperty_upd l k d h h' :
  defineProperty l k d h = Ret tt h' → upd l [k] h h'.
Proof.
  intros (o & p & Hl & -> & _)%defineProperty_Ret. by apply upd_set_props.
Qed.

Lemma defineProperty_own l k d h h' :
  defineProperty l k d h = Ret tt h' →
  own_prop h' l k = Some (match own_prop h l k with
                          | Some cur => apply_desc cur d
                          | None => new_prop d
                          end).
Proof.
  intros (o & p & Hl & -> & ->)%defineProperty_Ret.
  rewrite /own_prop (set_props_lookup _ _ _ _ Hl) Hl /=. apply assoc_set_eq.
Qed.

(** Whatever property was there, a bound-method descriptor leaves the same
    own data property. *)
Lemma bound_desc_prop v cur :
  match cur with Some c => apply_desc c (bound_desc v) | None => new_prop (bound_desc v) end
  = Data v true false true.
Proof. by destruct cur as [[]|]. Qed.

(** ** Objects that are no [RegExp] stay as they are *)

Lemma upd_other self K h h' l o :
  upd self K h h' → l ≠ self → h !! l = Some o → lastIndex o = None →
  h' !! l = Some o.
Proof.
  intros Hu Hne Hl Hli. destruct (Hu l o Hl) as (o' & Hl' & _ & Ho & _).
  by rewrite Hl' (proj2 (Ho Hne) Hli).
Qed.

Lemma upd_other_props self K h h' l o :
  upd self K h h' → l ≠ self → h !! l = Some o →
  ∃ o', h' !! l = Some o' ∧ same_shape o o' ∧ props o' = props o.
Proof.
  intros Hu Hne Hl. destruct (Hu l o Hl) as (o' & Hl' & Hsh & Ho & _).
  exists o'. by destruct (Ho Hne).
Qed.

Lemma keeps_lastIndex_refl h : keeps_lastIndex h h.
Proof. intros l o Hl. by exists o. Qed.

Lemma keeps_lastIndex_trans h1 h2 h3 :
  keeps_lastIndex h1 h2 → keeps_lastIndex h2 h3 → keeps_lastIndex h1 h3.
Proof.
  intros H1 H2 l o Hl. destruct (H1 l o Hl) as (o2 & Hl2 & E2).
  destruct (H2 l o2 Hl2) as (o3 & Hl3 & E3). exists o3. by rewrite E3 E2.
Qed.

Lemma keeps_lastIndex_alloc o h : keeps_lastIndex h (h ++ [o]).
Proof.
  intros l o0 Hl. exists o0. by rewrite lookup_app_l; [|by eapply lookup_lt_Some].
Qed.

Lemma keeps_lastIndex_set_props l ps h : keeps_lastIndex h (set_props l ps h).
Proof.
  intros l' o Hl'. destruct (decide (l = l')) as [->|Hne].
  - rewrite (set_props_lookup _ _ _ _ Hl'). by eexists.
  - rewrite set_props_lookup_ne //. by exists o.
Qed.

Lemma defineProperty_keeps l k d h h' :
  defineProperty l k d h = Ret tt h' → keeps_lastIndex h h'.
Proof.
  intros (o & p & Hl & -> & _)%defineProperty_Ret. apply keeps_lastIndex_set_props.
Qed.

(** An object other than the instance is kept as it is when its
    [lastIndex] is. *)
Lemma upd_keeps_other self K h h' l o :
  upd self K h h' → keeps_lastIndex h h' → l ≠ self → h !! l = Some o → h' !! l = Some o.
Proof.
  intros Hu Hk Hne Hl. destruct (Hu _ _ Hl) as (o' & Hl' & (Hp & He & Hc) & Hps & _).
  destruct (Hk _ _ Hl) as (o2 & Hl2 & Hli). rewrite Hl' in Hl2. injection Hl2 as <-.
  destruct (Hps Hne) as [Hpr _]. rewrite Hl'. f_equal.
  destruct o, o'; simpl in *. by subst.
Qed.

Lemma find_prop_upd self K h h' n start k r :
  upd self K h h' → k ∉ K →
  find_prop n h start k = Some r → find_prop n h' start k = Some r.
Proof.
  intros Hu Hk. revert start. induction n as [|n IH]; intros [l|]; simpl; try done.
  destruct (h !! l) as [o|] eqn:Hl; [|done].
  destruct (Hu l o Hl) as (o' & -> & (Hp & _) & _ & Ha).
  rewrite (Ha k Hk) Hp. destruct (assoc k (props o)); [done|]. apply IH.
Qed.

Lemma is_function_upd_true self K h h' v :
  upd self K h h' → is_function h v = true → is_function h' v = true.
Proof.
  intros Hu. destruct v as [| | | | | |l]; simpl; try done.
  destruct (h !! l) as [o|] eqn:Hl; [|done].
  destruct (Hu l o Hl) as (o' & -> & (_ & _ & ->) & _). done.
Qed.

Lemma is_function_upd self K h h' v :
  upd self K h h' → live h v → is_function h' v = is_function h v.
Proof.
  intros Hu Hv. destruct v as [| | | | | |l]; simpl; try done.
  destruct (lookup_lt_is_Some_2 h l (Hv l eq_refl)) as [o Hl].
  destruct (Hu l o Hl) as (o' & -> & (_ & _ & ->) & _). by rewrite Hl.
Qed.

Lemma plain_read_upd self K h h' n o k :
  upd self K h h' → k ∉ K → plain_read n h o k = true →
  plain_read n h' o k = true ∧ read_value n h' o k = read_value n h o k.
Proof.
  intros Hu Hk. rewrite /plain_read /read_value.
  destruct (find_prop n h (Some o) k) as [r|] eqn:Hf; [|done].
  by rewrite (find_prop_upd _ _ _ _ _ _ _ _ Hu Hk Hf).
Qed.

Lemma own_prop_upd self K h h' k :
  upd self K h h' → k ∉ K → is_Some (h !! self) →
  own_prop h' self k = own_prop h self k.
Proof.
  intros Hu Hk [o Hl]. rewrite /own_prop Hl.
  destruct (Hu _ _ Hl) as (o' & -> & _ & _ & Ha). by apply Ha.
Qed.

Lemma in_chain_upd self K h h' n start p b :
  upd self K h h' → in_chain n h start p = Some b → in_chain n h' start p = Some b.
Proof.
  intros Hu. revert start. induction n as [|n IH]; intros [l|]; simpl;
    try case_bool_decide; try done.
  destruct (h !! l) as [o|] eqn:Hl; [|done].
  destruct (Hu _ _ Hl) as (o' & -> & (-> & _) & _). apply IH.
Qed.

(** A lookup that does not pass through the instance is not affected by
    what is defined on the instance. *)
Lemma find_prop_off self K h h' n j start k :
  upd self K h h' → in_chain n h start self = Some false →
  find_prop j h' start k = find_prop j h start k.
Proof.
  intros Hu. revert j start. induction n as [|n IH]; intros j [l|]; simpl;
    try case_bool_decide; try done; try (by destruct j).
  destruct (h !! l) as [o|] eqn:Hl; [|done]. intros Hin.
  destruct j as [|j]; [done|]. simpl. rewrite Hl.
  destruct (upd_other_props _ _ _ _ _ _ Hu H Hl) as (o' & -> & (-> & _) & ->).
  destruct (assoc k (props o)); [done|]. by apply IH.
Qed.

Lemma in_chain_start n h l self b :
  in_chain n h (Some l) self = Some b → b = false → l ≠ self.
Proof.
  intros Hin -> ->. destruct n; simpl in Hin; by rewrite bool_decide_eq_true_2 in Hin.
Qed.

Lemma off_chain_upd self K h h' n f :
  upd self K h h' → off_chain n h self f = true → off_chain n h' self f = true.
Proof.
  intros Hu. destruct f as [| | | | | |l]; simpl; try done.
  destruct (in_chain n h (Some l) self) as [[]|] eqn:Hin; try done.
  by rewrite (in_chain_upd _ _ _ _ _ _ _ _ Hu Hin).
Qed.

Lemma is_bind_intrinsic_upd self K h h' v :
  upd self K h h' → is_bind_intrinsic h v = true → is_bind_intrinsic h' v = true.
Proof.
  intros Hu. destruct v as [| | | | | |b]; simpl; try done.
  destruct (h !! b) as [bo|] eqn:Hb; [|done].
  destruct (Hu _ _ Hb) as (bo' & -> & (_ & _ & ->) & _). done.
Qed.

Lemma bindable_upd self K h h' n f :
  upd self K h h' → bindable n h self f = true →
  bindable n h' self f = true.
Proof.
  intros Hu [Hoff Hb]%andb_true_iff. apply andb_true_iff.
  split; [by eapply off_chain_upd|].
  destruct f as [| | | | | |l]; try done. simpl in Hoff.
  destruct (in_chain n h (Some l) self) as [[]|] eqn:Hin; try done.
  pose proof (in_chain_start _ _ _ _ _ Hin eq_refl) as Hne.
  move: Hb. rewrite /has_builtin_bind /plain_read /own_prop.
  rewrite !(find_prop_off _ _ _ _ _ _ _ _ Hu Hin).
  intros [[[Hf Hbind]%andb_true_iff Hlen]%andb_true_iff Hname]%andb_true_iff.
  rewrite (is_function_upd_true _ _ _ _ _ Hu Hf) Hname /= andb_true_r.
  apply andb_true_iff. split.
  - destruct (find_prop n h (Some l) (KStr "bind")) as [[[b ? ? ?|]|]|]; try done.
    by eapply is_bind_intrinsic_upd.
  - destruct (h !! l) as [o|] eqn:Hl.
    + by destruct (upd_other_props _ _ _ _ _ _ Hu Hne Hl) as (o' & -> & _ & ->).
    + by destruct (h' !! l) as [o'|]; [simpl in Hf; rewrite Hl in Hf|].
Qed.

Lemma settled_upd self K h h' n v :
  upd self K h h' → settled n h self v = true → settled n h' self v = true.
Proof.
  intros Hu. destruct v as [| | | | | |l]; simpl; try done.
  destruct (h !! l) as [o|] eqn:Hl; [|done].
  destruct (Hu _ _ Hl) as (o' & -> & (_ & _ & ->) & _).
  destruct (callable o); [|done]. by apply (bindable_upd self K).
Qed.

Lemma quiet_upd self K h h' n m :
  upd self K h h' → m ∉ K → quiet n h self m = true →
  quiet n h' self m = true ∧ read_value n h' self m = read_value n h self m.
Proof.
  intros Hu Hm [Hp Hs]%andb_true_iff.
  destruct (plain_read_upd _ _ _ _ _ _ _ Hu Hm Hp) as [Hp' Hv].
  split; [|done]. rewrite /quiet Hp' Hv /=. by eapply settled_upd.
Qed.

Lemma quiet_plain n h self m : quiet n h self m = true → plain_read n h self m = true.
Proof. by intros [? _]%andb_true_iff. Qed.

(** A value read quietly is callable in a later store exactly when it was. *)
Lemma settled_function self K h h' n v :
  upd self K h h' → settled n h self v = true → is_function h' v = is_function h v.
Proof.
  intros Hu. destruct v as [| | | | | |l]; simpl; try done.
  destruct (h !! l) as [o|] eqn:Hl; [|done].
  destruct (Hu _ _ Hl) as (o' & -> & (_ & _ & ->) & _). done.
Qed.

Lemma settled_bindable n h self v :
  settled n h self v = true → is_function h v = true → bindable n h self v = true.
Proof.
  destruct v as [| | | | | |l]; simpl; try done.
  destruct (h !! l) as [o|]; [|done]. by destruct (callable o).
Qed.

Lemma set_props_last h o ps :
  set_props (length h) ps (h ++ [o])
  = h ++ [{| proto := proto o; props := ps; extensible := extensible o;
             callable := callable o; lastIndex := lastIndex o |}].
Proof.
  rewrite /set_props lookup_app_r // Nat.sub_diag /=.
  rewrite insert_app_r_alt // Nat.sub_diag. done.
Qed.

(** ** Eager binding *)

Section Eager.

Context (run : nat → invocation → heap → res value).

Lemma get_plain n self m h :
  plain_read n h self m = true →
  get run n self m h = Ret (read_value n h self m) h.
Proof.
  rewrite /plain_read /read_value /get /get_with.
  destruct (find_prop n h (Some self) m) as [[[v w e c|g s e c]|]|]; try done.
  by destruct g.
Qed.

(** Reading an own data property. *)
Lemma get_own_data n self m h v w e c :
  own_prop h self m = Some (Data v w e c) →
  get run (S n) self m h = Ret v h.
Proof.
  rewrite /own_prop /get /get_with /=. destruct (h !! self) as [o|]; [|done].
  by intros ->.
Qed.

(** A bound function calls its target on the fixed receiver. *)
Lemma call_bound n w wo f this r args h :
  h !! w = Some wo → callable wo = Some (BoundF f this []) →
  call run (S n) (VObj w) r args h = call run n f this args h.
Proof. intros Hw Hc. by rewrite /call /= Hw Hc. Qed.

(** [Function.prototype.bind] on a callable whose [length] and [name]
    are read without running a getter. *)
Lemma get_with_plain n self m h :
  plain_read n h self m = true →
  get_with (invoke run n) n self m h = Ret (read_value n h self m) h.
Proof. apply get_plain. Qed.

Lemma defineProperty_fresh F k v h o :
  h !! F = Some o → assoc k (props o) = None → extensible o = true →
  defineProperty F k (fixed_desc v) h
  = Ret tt (set_props F (assoc_set k (Data v false false true) (props o)) h).
Proof. intros HF Ha He. by rewrite /defineProperty HF /= Ha He. Qed.

Lemma bind_intrinsic_plain n l lo this h :
  h !! l = Some lo → is_Some (callable lo) →
  match assoc (KStr "length") (props lo) with
  | Some (Accessor g _ _ _) => g = VUndef
  | _ => True
  end →
  plain_read n h l (KStr "name") = true →
  bind_intrinsic (invoke run n) n (VObj l) this [] h
  = Ret (VObj (length h)) (h ++ [bound_function (S n) h (VObj l) this]).
Proof.
  intros Hl [c Hc] Hlen Hname.
  assert (Hlt : l < length h) by (by eapply lookup_lt_Some).
  assert (Hn : ∃ n', n = S n').
  { destruct n; [done|by eexists]. }
  set (F0 := bound_exotic (proto lo) (VObj l) this []).
  assert (Hl1 : (h ++ [F0]) !! l = Some lo) by (by rewrite lookup_app_l).
  assert (HF1 : (h ++ [F0]) !! length h = Some F0)
    by (by rewrite lookup_app_r // Nat.sub_diag).
  set (L := bound_length h l).
  assert (HL : (match own_prop (h ++ [F0]) l (KStr "length") with
                | Some _ =>
                    let! (len, h2) := get_with (invoke run n) n l (KStr "length")
                                        (h ++ [F0]) in
                    Ret (match len with
                         | VNum z => Z.max 0 (z - Z.of_nat (length (@nil value)))
                         | _ => 0%Z
                         end) h2
                | None => Ret 0%Z (h ++ [F0])
                end) = Ret L (h ++ [F0])).
  { destruct Hn as [n' ->].
    rewrite /L /bound_length /own_prop Hl Hl1 /get_with /= Hl1.
    destruct (assoc (KStr "length") (props lo)) as [[v w e c0|g s e c0]|]; [| |done].
    - by destruct v.
    - by rewrite Hlen. }
  rewrite /bind_intrinsic Hl Hc /alloc. fold F0. rewrite HL. cbn [bindR].
  rewrite (defineProperty_fresh _ _ _ _ _ HF1) //. cbn [bindR].
  rewrite (set_props_last h F0). cbn [assoc_set props F0 bound_exotic proto extensible callable lastIndex].
  set (F1 := {| proto := proto lo; props := _; extensible := true;
                callable := Some (BoundF (VObj l) this []); lastIndex := None |}).
  assert (Hname1 : plain_read n (h ++ [F1]) l (KStr "name") = true
                   ∧ read_value n (h ++ [F1]) l (KStr "name")
                     = read_value n h l (KStr "name")).
  { apply (plain_read_upd l [] h); [apply (upd_alloc l [] F1 h)|apply not_elem_of_nil|done]. }
  destruct Hname1 as [Hp1 Hv1].
  rewrite (get_with_plain _ _ _ _ Hp1) Hv1. cbn [bindR].
  assert (HF2 : (h ++ [F1]) !! length h = Some F1)
    by (by rewrite lookup_app_r // Nat.sub_diag).
  rewrite (defineProperty_fresh _ _ _ _ _ HF2) //. cbn [bindR].
  rewrite (set_props_last h F1).
  by rewrite /bound_function Hl /bound_name.
Qed.

(** [f.bind(this)] on a callable with the built-in [bind]. *)
Lemma call_bind_builtin n h f this :
  has_builtin_bind n h f = true →
  call_bind (invoke run n) n f this h
  = Ret (VObj (length h)) (h ++ [bound_function n h f this]).
Proof.
  destruct f as [| | | | | |l]; try done. rewrite /has_builtin_bind.
  intros [[[Hf Hbind]%andb_true_iff Hlen]%andb_true_iff Hname]%andb_true_iff.
  destruct (find_prop n h (Some l) (KStr "bind")) as [[[b w e c|]|]|] eqn:Hfind; try done.
  destruct b as [| | | | | |bl]; try done. simpl in Hbind.
  destruct (h !! bl) as [bo|] eqn:Hbl; [|done].
  destruct (callable bo) as [[]|] eqn:Hcb; try done.
  destruct n as [|n]; [done|].
  simpl in Hf. destruct (h !! l) as [lo|] eqn:Hl; [|done].
  rewrite /call_bind /get_with Hfind /= Hbl Hcb.
  apply (bind_intrinsic_plain n l lo this h Hl); [by destruct (callable lo); eauto| |done].
  move: Hlen. rewrite /own_prop Hl.
  destruct (assoc _ _) as [[|g ? ? ?]|]; try done. by intros ?%bool_decide_eq_true.
Qed.

(** One step of the loop of [bindEager] on a quiet name. *)
Lemma bindEager_cons n self m ms h :
  quiet n h self m = true →
  bindEager run n self (m :: ms) h
  = if is_function h (read_value n h self m) then
      let! (_, h3) :=
        defineProperty self m (bound_desc (VObj (length h)))
          (h ++ [bound_function n h (read_value n h self m) (VObj self)]) in
      bindEager run n self ms h3
    else bindEager run n self ms h.
Proof.
  intros [Hp Hs]%andb_true_iff. rewrite /bindEager /=. fold (get run n self m h).
  rewrite (get_plain _ _ _ _ Hp) /=.
  destruct (is_function h _) eqn:Hf; [|done].
  apply (settled_bindable _ _ _ _ Hs) in Hf as [_ Hb]%andb_true_iff.
  by rewrite (call_bind_builtin _ _ _ _ Hb).
Qed.

Lemma plain_read_self n h self m : plain_read n h self m = true → is_Some (h !! self).
Proof.
  rewrite /plain_read. destruct n; simpl; [done|].
  destruct (h !! self); [by eexists|done].
Qed.

Lemma bound_function_upd self K h h' n f this :
  upd self K h h' → bindable n h self f = true →
  bound_function n h' f this = bound_function n h f this.
Proof.
  intros Hu [Hoff Hb]%andb_true_iff.
  destruct f as [| | | | | |l]; try done. simpl in Hoff.
  destruct (in_chain n h (Some l) self) as [[]|] eqn:Hin; try done.
  pose proof (in_chain_start _ _ _ _ _ Hin eq_refl) as Hne.
  simpl in Hb. destruct (h !! l) as [o|] eqn:Hl; [|done].
  destruct (upd_other_props _ _ _ _ _ _ Hu Hne Hl) as (o' & Hl' & (Hp & _) & Hps).
  rewrite /bound_function /bound_length /bound_name /read_value /own_prop Hl Hl' Hp Hps.
  by rewrite (find_prop_off _ _ _ _ _ _ _ _ Hu Hin).
Qed.

Lemma bindEager_upd n self ms h h' :
  NoDup ms → (∀ m, m ∈ ms → quiet n h self m = true) →
  bindEager run n self ms h = Ret tt h' → upd self ms h h'.
Proof.
  intros Hnd. revert h. induction Hnd as [|m ms Hm Hnd IH]; intros h Hpl.
  - intros [= <-]. apply upd_refl.
  - rewrite bindEager_cons; [|apply Hpl; eauto using list_elem_of_here, list_elem_of_further].
    destruct (is_function h _) eqn:Hf.
    + destruct (defineProperty _ _ _ _) as [[] h3| |] eqn:Hd; simpl; try done.
      intros Hr. apply defineProperty_upd in Hd.
      pose proof (upd_trans self [] [m] _ _ _ (upd_alloc self [] _ h) Hd) as Hu.
      simpl in Hu. apply (upd_trans _ [m] ms _ _ _ Hu). apply IH; [|done].
      intros m' Hm'. eapply quiet_upd; [exact Hu| |apply Hpl; by apply list_elem_of_further].
      intros ->%list_elem_of_singleton. done.
    + intros Hr. apply (upd_weaken _ ms); [|by apply IH; [intros m' Hm'; apply Hpl;
                                                           by apply list_elem_of_further|]].
      intros x Hx. by apply list_elem_of_further.
Qed.

(** [bindEager] leaves every [lastIndex] as it is. *)
Lemma bindEager_keeps n self ms h h' :
  NoDup ms → (∀ m, m ∈ ms → quiet n h self m = true) →
  bindEager run n self ms h = Ret tt h' → keeps_lastIndex h h'.
Proof.
  intros Hnd. revert h. induction Hnd as [|m ms Hm Hnd IH]; intros h Hpl.
  - intros [= <-]. apply keeps_lastIndex_refl.
  - rewrite bindEager_cons; [|apply Hpl; eauto using list_elem_of_here, list_elem_of_further].
    destruct (is_function h _) eqn:Hf.
    + destruct (defineProperty _ _ _ _) as [[] h3| |] eqn:Hd; simpl; try done.
      intros Hr. pose proof (defineProperty_keeps _ _ _ _ _ Hd) as Hk.
      apply defineProperty_upd in Hd.
      pose proof (upd_trans self [] [m] _ _ _ (upd_alloc self [] _ h) Hd) as Hu.
      simpl in Hu.
      eapply keeps_lastIndex_trans; [apply keeps_lastIndex_alloc|].
      eapply keeps_lastIndex_trans; [exact Hk|]. apply IH; [|done].
      intros m' Hm'. eapply quiet_upd; [exact Hu| |apply Hpl; by apply list_elem_of_further].
      intros ->%list_elem_of_singleton. done.
    + intros Hr. apply IH; [|done]. intros m' Hm'. apply Hpl. by apply list_elem_of_further.
Qed.

(** What [bindEager] leaves at a name whose value is callable. *)
Lemma bindEager_bound n self ms h h' m :
  NoDup ms → (∀ m, m ∈ ms → quiet n h self m = true) →
  bindEager run n self ms h = Ret tt h' →
  m ∈ ms → is_function h (read_value n h self m) = true →
  ∃ w, length h ≤ w
       ∧ own_prop h' self m = Some (Data (VObj w) true false true)
       ∧ h' !! w = Some (bound_function n h (read_value n h self m) (VObj self)).
Proof.
  intros Hnd. revert h. induction Hnd as [|m0 ms Hm0 Hnd IH]; intros h Hpl Hr Hin Hf.
  { by apply not_elem_of_nil in Hin. }
  assert (Hp0 : quiet n h self m0 = true) by (apply Hpl; apply list_elem_of_here).
  assert (Hrest : ∀ m', m' ∈ ms → quiet n h self m' = true)
    by (intros; apply Hpl; by apply list_elem_of_further).
  destruct (plain_read_self _ _ _ _ (quiet_plain _ _ _ _ Hp0)) as [so Hso].
  rewrite bindEager_cons // in Hr.
  destruct (decide (m = m0)) as [->|Hne].
  - rewrite Hf in Hr.
    destruct (defineProperty _ _ _ _) as [[] h3| |] eqn:Hd; simpl in Hr; try done.
    pose proof (defineProperty_own _ _ _ _ _ Hd) as Hown.
    rewrite bound_desc_prop in Hown.
    pose proof (defineProperty_upd _ _ _ _ _ Hd) as Hu3.
    assert (Hself3 : is_Some (h3 !! self)).
    { destruct (Hu3 self so) as (o' & ? & _); [|by eexists].
      rewrite lookup_app_l; [done|by eapply lookup_lt_Some]. }
    assert (Hrest3 : ∀ m', m' ∈ ms → quiet n h3 self m' = true).
    { intros m' Hm'. eapply (quiet_upd self [m0] h); [| |by apply Hrest].
      - apply (upd_trans self [] [m0] _ _ _ (upd_alloc self [] _ h) Hu3).
      - intros ->%list_elem_of_singleton. done. }
    pose proof (bindEager_upd _ _ _ _ _ Hnd Hrest3 Hr) as Hu.
    exists (length h). split; [done|]. split.
    + by rewrite (own_prop_upd _ _ _ _ _ Hu Hm0 Hself3).
    + apply lookup_lt_Some in Hso.
      eapply (upd_other _ _ _ _ _ _ Hu); [lia| |done].
      eapply (upd_other _ _ _ _ _ _ Hu3); [lia| |done].
      by rewrite lookup_app_r // Nat.sub_diag.
  - assert (Hin' : m ∈ ms) by (by apply elem_of_cons in Hin as [?|?]).
    destruct (is_function h (read_value n h self m0)) eqn:Hf0.
    + destruct (defineProperty _ _ _ _) as [[] h3| |] eqn:Hd; simpl in Hr; try done.
      pose proof (defineProperty_upd _ _ _ _ _ Hd) as Hu3.
      pose proof (upd_trans self [] [m0] _ _ _ (upd_alloc self [] _ h) Hu3) as Hu.
      simpl in Hu.
      assert (Hrest3 : ∀ m', m' ∈ ms →
                 quiet n h3 self m' = true
                 ∧ read_value n h3 self m' = read_value n h self m').
      { intros m' Hm'. eapply (quiet_upd self [m0] h); [done| |by apply Hrest].
        intros ->%list_elem_of_singleton. done. }
      destruct (IH h3) as (w & Hw & Hown & Hobj); try done.
      * intros m' Hm'. by apply Hrest3.
      * rewrite (proj2 (Hrest3 m Hin')). by eapply is_function_upd_true.
      * exists w. split; [apply upd_length in Hu; lia|]. split; [done|].
        rewrite Hobj (proj2 (Hrest3 m Hin')). f_equal.
        apply (bound_function_upd self [m0]); [done|].
        pose proof (Hrest m Hin') as Hq. apply andb_true_iff in Hq as [_ Hs].
        by apply settled_bindable.
    + destruct (IH h) as (w & Hw & Hown & Hobj); try done. by exists w.
Qed.

End Eager.

(** ** Filtering *)

Lemma filter_ext_eq {A} (f g : A → bool) l :
  (∀ x, f x = g x) → List.filter f l = List.filter g l.
Proof. intros E. induction l as [|x l IH]; simpl; [done|]. by rewrite E IH. Qed.

Lemma filter_sublist {A} (f : A → bool) l : sublist (List.filter f l) l.
Proof.
  induction l as [|x l IH]; simpl; [constructor|].
  destruct (f x); by constructor.
Qed.

Lemma elem_of_List_filter {A} (f : A → bool) l x :
  x ∈ List.filter f l ↔ x ∈ l ∧ f x = true.
Proof. rewrite !list_elem_of_In. apply filter_In. Qed.

Lemma NoDup_List_filter {A} (f : A → bool) l : NoDup l → NoDup (List.filter f l).
Proof.
  induction 1 as [|x l Hx Hl IH]; simpl; [constructor|].
  destruct (f x); [|done]. constructor; [|done].
  rewrite elem_of_List_filter. tauto.
Qed.

(** *** The stages as the code has them *)

Lemma filterMethods_unfold ms o h :
  filterMethods ms o h
  = match opt_pattern o with
    | Some pat => filter_pattern pat (before_pattern ms o) h
    | None => Ret (before_pattern ms o) h
    end.
Proof. done. Qed.

Lemma before_pattern_stages ms o :
  before_pattern ms o = stage_exclude o (stage_include o (stage_builtin ms)).
Proof.
  rewrite /before_pattern /stage_exclude /stage_include /stage_builtin.
  assert (E1 : List.filter (λ m, is_symbol m || negb (builtin_has m)) ms
             = List.filter (λ m, match m with
                                 | KSym _ => true
                                 | KStr s => bool_decide (s ∉ spec_exclusion_set)
                                 end) ms).
  { apply filter_ext_eq. intros [s|k]; simpl; [|done]. by rewrite bool_decide_not. }
  assert (E3 : ∀ exc l, List.filter (λ m, negb (set_has exc m)) l
                        = List.filter (λ m, bool_decide (key_value m ∉ exc)) l).
  { intros exc l. apply filter_ext_eq. intros m. by rewrite /set_has bool_decide_not. }
  rewrite E1. destruct (opt_include o), (opt_exclude o); by rewrite ?E3.
Qed.

(** An expression without the [g] and the [y] flag filters like a
    predicate. *)
Lemma filter_pattern_stateless pat ms h :
  pat_stateful pat = false →
  filter_pattern pat ms h
  = Ret (List.filter (λ m, match m with KStr s => matches pat s | KSym _ => false end) ms) h.
Proof.
  intros Hs. induction ms as [|[s|k] ms IH]; simpl; [done| |].
  - rewrite /regexp_test Hs /= IH /= /matches. by destruct (pat_exec pat 0 s).
  - by rewrite IH.
Qed.

Lemma set_lastIndex_upd self r e h ro i :
  h !! r = Some ro → lastIndex ro = Some i → upd self [] h (set_lastIndex r e h).
Proof.
  intros Hr Hi l o Hl. rewrite /set_lastIndex Hr.
  destruct (decide (l = r)) as [->|Hne].
  - rewrite list_lookup_insert_eq; [|by eapply lookup_lt_Some].
    rewrite Hr in Hl. injection Hl as <-.
    eexists. split; [done|]. split; [done|]. split; [|done].
    intros _. split; [done|]. by rewrite Hi.
  - rewrite list_lookup_insert_ne; [|done]. exists o. by rewrite /same_shape.
Qed.

Lemma set_lastIndex_length r e h : length (set_lastIndex r e h) = length h.
Proof. rewrite /set_lastIndex. destruct (h !! r); [by rewrite length_insert|done]. Qed.

Lemma regexp_test_upd self pat s h b h' :
  regexp_test pat s h = Ret b h' → upd self [] h h' ∧ length h' = length h.
Proof.
  rewrite /regexp_test. destruct (pat_stateful pat).
  - destruct (h !! pat_ref pat) as [ro|] eqn:Hr; [|done].
    destruct (lastIndex ro) as [i|] eqn:Hi; [|done].
    destruct (pat_exec pat i s); intros [= <- <-];
      (split; [by eapply set_lastIndex_upd|apply set_lastIndex_length]).
  - intros [= <- <-]. split; [apply upd_refl|done].
Qed.

(** With any expression the fourth step removes names, keeps no symbol, and
    changes nothing in the store but the [lastIndex] of the expression. *)
Lemma filter_pattern_Ret self pat ms h r h' :
  filter_pattern pat ms h = Ret r h' →
  sublist r ms ∧ (∀ m, m ∈ r → is_symbol m = false)
  ∧ upd self [] h h' ∧ length h' = length h.
Proof.
  revert h r h'. induction ms as [|m ms IH]; intros h r h'; simpl.
  - intros [= <- <-]. split; [done|]. split; [|split; [apply upd_refl|done]].
    intros m Hm. by apply elem_of_nil in Hm.
  - destruct (pattern_test pat m h) as [b h1| |] eqn:Ht; simpl; try done.
    destruct (filter_pattern pat ms h1) as [kept h2| |] eqn:Hf; simpl; try done.
    intros [= <- <-]. destruct (IH _ _ _ Hf) as (Hsub & Hsym & Hu & Hlen).
    assert (Hu1 : upd self [] h h1 ∧ length h1 = length h).
    { destruct m as [s|k]; simpl in Ht.
      - by eapply regexp_test_upd.
      - injection Ht as <- <-. split; [apply upd_refl|done]. }
    destruct Hu1 as [Hu1 Hlen1].
    split; [|split; [|split]].
    + destruct b; by constructor.
    + destruct b; [|done]. intros m' [->|Hm']%elem_of_cons; [|by apply Hsym].
      destruct m as [s|k]; [done|]. simpl in Ht. by injection Ht.
    + apply (upd_trans self [] [] _ _ _ Hu1 Hu).
    + by rewrite Hlen.
Qed.

(** What the fourth step does with an expression that has the [g] or the
    [y] flag changes no [lastIndex] but that of the expression. *)
Lemma regexp_test_frame pat s h b h' l :
  regexp_test pat s h = Ret b h' → l ≠ pat_ref pat → h' !! l = h !! l.
Proof.
  rewrite /regexp_test. destruct (pat_stateful pat); [|by intros [= <- <-]].
  destruct (h !! pat_ref pat) as [ro|] eqn:Hr; [|done].
  destruct (lastIndex ro) as [i|]; [|done].
  destruct (pat_exec pat i s); intros [= <- <-] Hne;
    rewrite /set_lastIndex Hr list_lookup_insert_ne //.
Qed.

Lemma filter_pattern_frame pat ms h r h' l :
  filter_pattern pat ms h = Ret r h' → l ≠ pat_ref pat → h' !! l = h !! l.
Proof.
  revert h r h'. induction ms as [|m ms IH]; intros h r h'; simpl.
  - by intros [= <- <-].
  - destruct (pattern_test pat m h) as [b h1| |] eqn:Ht; simpl; try done.
    destruct (filter_pattern pat ms h1) as [kept h2| |] eqn:Hf; simpl; try done.
    intros [= <- <-] Hne. rewrite (IH _ _ _ Hf Hne).
    destruct m as [s|k]; simpl in Ht.
    + by eapply regexp_test_frame.
    + by injection Ht as <- <-.
Qed.

Lemma filterMethods_stateless ms o h :
  stateless o →
  filterMethods ms o h
  = Ret (stage_pattern o (stage_exclude o (stage_include o (stage_builtin ms)))) h.
Proof.
  intros Hs. rewrite filterMethods_unfold before_pattern_stages /stage_pattern.
  destruct (opt_pattern o) as [pat|] eqn:Hp; [|done].
  by apply filter_pattern_stateless, Hs.
Qed.

(** What a completed [filterMethods] returns and leaves, for any
    options. *)
Lemma filterMethods_Ret self ms o h r h' :
  filterMethods ms o h = Ret r h' →
  sublist r (stage_exclude o (stage_include o (stage_builtin ms)))
  ∧ (∀ m, opt_pattern o ≠ None → m ∈ r → is_symbol m = false)
  ∧ upd self [] h h' ∧ length h' = length h.
Proof.
  rewrite filterMethods_unfold before_pattern_stages.
  destruct (opt_pattern o) as [pat|].
  - intros (? & ? & ? & ?)%(filter_pattern_Ret self). by auto.
  - intros [= <- <-]. split; [done|]. split; [done|]. split; [apply upd_refl|done].
Qed.

Lemma filterMethods_frame ms o h r h' l :
  filterMethods ms o h = Ret r h' →
  (∀ pat, opt_pattern o = Some pat → pat_stateful pat = true → l ≠ pat_ref pat) →
  h' !! l = h !! l.
Proof.
  rewrite filterMethods_unfold. destruct (opt_pattern o) as [pat|]; [|by intros [= <- <-]].
  intros Hf Hne. destruct (pat_stateful pat) eqn:Hs.
  - eapply filter_pattern_frame; [done|]. by apply Hne.
  - rewrite filter_pattern_stateless // in Hf. by injection Hf as <- <-.
Qed.





Lemma elem_stage_builtin m ms :
  m ∈ stage_builtin ms
  ↔ m ∈ ms ∧ (is_symbol m = true ∨ ∃ s, m = KStr s ∧ s ∉ spec_exclusion_set).
Proof.
  rewrite /stage_builtin elem_of_List_filter. destruct m as [s|k]; simpl.
  - rewrite bool_decide_eq_true. split.
    + intros [? ?]. split; [done|]. right. by exists s.
    + intros [? [?|(s' & [= <-] & ?)]]; done.
  - split; [intros [? _]; split; [done|by left]|by intros [? _]].
Qed.

Lemma elem_stage_include o m ms :
  m ∈ stage_include o ms
  ↔ m ∈ ms ∧ ∀ inc, opt_include o = Some inc → key_value m ∈ inc.
Proof.
  rewrite /stage_include. destruct (opt_include o) as [inc|].
  - rewrite elem_of_List_filter bool_decide_eq_true. split.
    + intros [? ?]. split; [done|]. by intros ? [= <-].
    + intros [? H]. split; [done|]. by apply H.
  - split; [intros ?; split; [done|by intros ? [=]]|by intros [? _]].
Qed.

Lemma elem_stage_exclude o m ms :
  m ∈ stage_exclude o ms
  ↔ m ∈ ms ∧ ∀ exc, opt_exclude o = Some exc → key_value m ∉ exc.
Proof.
  rewrite /stage_exclude. destruct (opt_exclude o) as [exc|].
  - rewrite elem_of_List_filter bool_decide_eq_true. split.
    + intros [? ?]. split; [done|]. by intros ? [= <-].
    + intros [? H]. split; [done|]. by apply H.
  - split; [intros ?; split; [done|by intros ? [=]]|by intros [? _]].
Qed.

Lemma elem_stage_pattern o m ms :
  m ∈ stage_pattern o ms
  ↔ m ∈ ms ∧ ∀ pat, opt_pattern o = Some pat → ∃ s, m = KStr s ∧ matches pat s = true.
Proof.
  rewrite /stage_pattern. destruct (opt_pattern o) as [pat|].
  - rewrite elem_of_List_filter. split.
    + intros [? H]. split; [done|]. intros ? [= <-].
      destruct m as [s|k]; [by exists s|done].
    + intros [? H]. split; [done|]. by destruct (H _ eq_refl) as (s & -> & ?).
  - split; [intros ?; split; [done|by intros ? [=]]|by intros [? _]].
Qed.

Lemma stages_elem ms o m :
  m ∈ stage_pattern o (stage_exclude o (stage_include o (stage_builtin ms)))
  ↔ m ∈ ms ∧ passes o m.
Proof.
  rewrite elem_stage_pattern elem_stage_exclude elem_stage_include elem_stage_builtin /passes.
  tauto.
Qed.

(** A retained name was discovered and passes the first three tests. *)
Lemma filterMethods_elem ms o h r h' m :
  filterMethods ms o h = Ret r h' → m ∈ r →
  m ∈ ms
  ∧ (is_symbol m = true ∨ ∃ s, m = KStr s ∧ s ∉ spec_exclusion_set)
  ∧ (∀ inc, opt_include o = Some inc → key_value m ∈ inc)
  ∧ (∀ exc, opt_exclude o = Some exc → key_value m ∉ exc).
Proof.
  intros (Hsub & _)%(filterMethods_Ret 0) Hm.
  apply (elem_of_sublist _ _ _ Hm) in Hsub. rename Hsub into Hm'.
  move: Hm'. rewrite elem_stage_exclude elem_stage_include elem_stage_builtin. tauto.
Qed.

Lemma filterMethods_NoDup ms o h r h' :
  NoDup ms → filterMethods ms o h = Ret r h' → NoDup r.
Proof.
  intros Hnd (Hsub & _)%(filterMethods_Ret 0).
  eapply sublist_NoDup; [|done].
  rewrite /stage_exclude /stage_include /stage_builtin.
  destruct (opt_include o), (opt_exclude o);
    repeat (apply NoDup_List_filter); exact Hnd.
Qed.

(** C6 (as amended).  For a pattern without the [g] and the [y] flag, or
    none, [filterMethods] is the four-step pipeline of the specification:
    (1) drop the string names of the fixed exclusion set, symbolic keys
    passing untouched, (2) keep the members of [include] if it is given,
    (3) drop the members of [exclude] if it is given, (4) if [pattern] is
    given drop the symbolic names and keep the matching string names; a
    name is in the result exactly when it was discovered and passes all
    four tests, and the store is left as it is.  Each step works on the
    output of the previous one and only removes names.  With any pattern,
    what [filterMethods] returns is made of names that passed the first
    three steps, in their order, without any symbolic name. *)
Theorem filterMethods_pipeline (ms : list key) (o : options) (h : heap) :
  let s1 := stage_builtin ms in
  let s2 := stage_include o s1 in
  let s3 := stage_exclude o s2 in
  let s4 := stage_pattern o s3 in
  sublist s1 ms ∧ sublist s2 s1 ∧ sublist s3 s2 ∧ sublist s4 s3
  ∧ (∀ r h', filterMethods ms o h = Ret r h' →
             sublist r s3 ∧ ∀ m, opt_pattern o ≠ None → m ∈ r → is_symbol m = false)
  ∧ (stateless o →
     filterMethods ms o h = Ret s4 h ∧ ∀ m, m ∈ s4 ↔ m ∈ ms ∧ passes o m).
Proof.
  simpl.
  split; [apply filter_sublist|].
  split; [rewrite /stage_include; destruct (opt_include o); [apply filter_sublist|done]|].
  split; [rewrite /stage_exclude; destruct (opt_exclude o); [apply filter_sublist|done]|].
  split; [rewrite /stage_pattern; destruct (opt_pattern o); [apply filter_sublist|done]|].
  split.
  - intros r h' (? & ? & _)%(filterMethods_Ret 0). by split.
  - intros Hs. split; [by apply filterMethods_stateless|]. apply stages_elem.
Qed.

(** [{ pattern: /^handle/ }], the expression without flag. *)
Lemma filterMethods_pipeline_witness :
  filterMethods [KStr "handleA"; KStr "getName"; KStr "handleB"]
    {| opt_include := None; opt_exclude := None;
       opt_pattern := Some {| pat_ref := 8; pat_exec := exec_prefix "handle";
                              pat_stateful := false |};
       opt_lazy := false |} world_rx
  = Ret [KStr "handleA"; KStr "handleB"] world_rx.
Proof.
  destruct (filterMethods_pipeline [KStr "handleA"; KStr "getName"; KStr "handleB"]
              {| opt_include := None; opt_exclude := None;
                 opt_pattern := Some {| pat_ref := 8; pat_exec := exec_prefix "handle";
                                        pat_stateful := false |};
                 opt_lazy := false |} world_rx) as (_ & _ & _ & _ & _ & H).
  apply H. intros pat [= <-]. reflexivity.
Defined.

(** C6, counterexample.  With the expression [/^handle/g], whose
    [lastIndex] is 0, the three names [handleA], [handleB], [handleC] all
    match and pass the four tests, and [filterMethods] drops [handleB]: the
    test of [handleA] leaves [lastIndex] at 6, from where [handleB] does not
    match. *)
Lemma filterMethods_stateful_counterexample :
  (∀ m, m ∈ [KStr "handleA"; KStr "handleB"; KStr "handleC"] → passes pattern_opts m)
  ∧ ∃ h', filterMethods [KStr "handleA"; KStr "handleB"; KStr "handleC"] pattern_opts world_rx
          = Ret [KStr "handleA"; KStr "handleC"] h'.
Proof.
  split; [|eexists; reflexivity].
  assert (Hex : ∀ s, s ∈ ["handleA"; "handleB"; "handleC"] → s ∉ spec_exclusion_set).
  { intros s Hs.
    repeat (apply elem_of_cons in Hs as [->|Hs];
            [apply (bool_decide_unpack _); vm_compute; exact I|]).
    by apply elem_of_nil in Hs. }
  intros m Hm.
  assert (Hs : ∃ s, m = KStr s ∧ s ∈ ["handleA"; "handleB"; "handleC"]
                    ∧ matches handle_g s = true).
  { repeat (apply elem_of_cons in Hm as [->|Hm];
            [eexists; split; [done|]; split; [|reflexivity];
             repeat first [apply list_elem_of_here|apply list_elem_of_further]|]).
    by apply elem_of_nil in Hm. }
  destruct Hs as (s & -> & Hin & Hmatch).
  split; [right; exists s; split; [done|by apply Hex]|].
  split; [by intros inc [=]|]. split; [by intros exc [=]|].
  intros pat [= <-]. by exists s.
Qed.

(** ** Method discovery *)

Lemma add_NoDup ms k : NoDup ms → NoDup (add ms k).
Proof.
  intros Hnd. rewrite /add. case_bool_decide; [done|].
  apply NoDup_app. split; [done|]. split; [|apply NoDup_singleton].
  by intros x Hx ->%list_elem_of_singleton.
Qed.

Lemma foldl_inv {A B} (P : A → Prop) (f : A → B → A) l a :
  P a → (∀ a b, P a → P (f a b)) → P (foldl f a l).
Proof. intros Ha Hf. revert a Ha. induction l; simpl; auto. Qed.

Lemma scan_level_NoDup h p o ms : NoDup ms → NoDup (scan_level h p o ms).
Proof.
  intros Hnd. rewrite /scan_level. apply foldl_inv.
  - apply foldl_inv; [done|]. intros a b Ha.
    case_bool_decide; [done|]. destruct (has_method _ _ _); [by apply add_NoDup|done].
  - intros a b Ha. destruct (has_method _ _ _); [by apply add_NoDup|done].
Qed.

Lemma walk_methods_NoDup n h pr acc r :
  NoDup acc → walk_methods n h pr acc = Some r → NoDup r.
Proof.
  revert pr acc. induction n as [|n IH]; intros [p|] acc Hnd; simpl;
    try case_bool_decide; try (by intros [= <-]); try done.
  destruct (h !! p) as [o|]; [|done]. apply IH. by apply scan_level_NoDup.
Qed.

Lemma getAllMethodNames_NoDup n h self all :
  getAllMethodNames n h self = Some all → NoDup all.
Proof.
  rewrite /getAllMethodNames. destruct (h !! self); [|done].
  apply walk_methods_NoDup. constructor.
Qed.

Lemma retained_NoDup n h self a : NoDup (retained n h self a).
Proof.
  rewrite /retained /filtering.
  destruct (getAllMethodNames n h self) as [all|] eqn:Hg; [|constructor].
  destruct (filterMethods all (options_of a) h) as [r h'| |] eqn:Hf; try constructor.
  eapply filterMethods_NoDup; [|done]. by eapply getAllMethodNames_NoDup.
Qed.

(** The walks visit the levels listed by [chain]. *)

Lemma walk_methods_chain n h pr acc r :
  walk_methods n h pr acc = Some r → is_Some (chain n h pr).
Proof.
  revert pr acc. induction n as [|n IH]; intros [p|] acc; simpl;
    try case_bool_decide; intros Hw; try done; try (by exists []).
  destruct (h !! p) as [o|]; [|done].
  destruct (IH _ _ Hw) as [ls ->]. by eexists.
Qed.

Lemma chain_mono n n' h pr ls :
  n ≤ n' → chain n h pr = Some ls → chain n' h pr = Some ls.
Proof.
  revert n' pr ls. induction n as [|n IH]; intros [|n'] [p|] ls Hle; simpl;
    try case_bool_decide; try done; try (exfalso; lia).
  destruct (h !! p) as [o|]; [|done].
  destruct (chain n h (proto o)) as [ls'|] eqn:Hc; [|done].
  rewrite (IH n' _ ls'); [done|lia|done].
Qed.

Lemma chain_suffix n h pr ls l :
  chain n h pr = Some ls → l ∈ ls →
  ∃ o ls1 ls2, h !! l = Some o ∧ ls = ls1 ++ l :: ls2 ∧ chain n h (proto o) = Some ls2.
Proof.
  revert pr ls. induction n as [|n IH]; intros [p|] ls Hc Hin; simpl in Hc;
    try case_bool_decide; simplify_eq; try (by apply elem_of_nil in Hin).
  destruct (h !! p) as [o|] eqn:Hp; [|done].
  destruct (chain n h (proto o)) as [ls'|] eqn:Hc'; [|done].
  simpl in Hc. injection Hc as <-. apply elem_of_cons in Hin as [->|Hin].
  - exists o, [], ls'. split; [done|]. split; [done|].
    apply (chain_mono n); [lia|done].
  - destruct (IH _ _ Hc' Hin) as (o' & ls1 & ls2 & Ho' & -> & Hc2).
    exists o', (p :: ls1), ls2. split; [done|]. split; [done|].
    apply (chain_mono n); [lia|done].
Qed.

(** A walk that ends never passes through the object it started above:
    prototype chains have no cycle. *)
Lemma chain_notin n h self so ls :
  h !! self = Some so → chain n h (proto so) = Some ls → self ∉ ls.
Proof.
  intros Hs Hc Hin.
  destruct (chain_suffix _ _ _ _ _ Hc Hin) as (o & ls1 & ls2 & Ho & Hls & Hc').
  rewrite Hs in Ho. injection Ho as <-. rewrite Hc in Hc'. injection Hc' as <-.
  apply (f_equal length) in Hls. rewrite length_app /= in Hls. lia.
Qed.

Lemma has_method_upd self K h h' p o k :
  upd self K h h' → closed h → p ≠ self → h !! p = Some o →
  has_method h' p k = has_method h p k.
Proof.
  intros Hu Hcl Hne Ho. rewrite /has_method /own_prop Ho.
  destruct (upd_other_props _ _ _ _ _ _ Hu Hne Ho) as (o' & -> & _ & ->).
  destruct (assoc k (props o)) as [d|] eqn:Ha; [|done].
  eapply is_function_upd; [done|]. by eapply Hcl.
Qed.

Lemma foldl_ext_eq {A B} (f g : A → B → A) l a :
  (∀ a b, f a b = g a b) → foldl f a l = foldl g a l.
Proof. intros E. revert a. induction l as [|b l IH]; intros a; simpl; [done|]. by rewrite E IH. Qed.

Lemma scan_level_upd self K h h' p o o' acc :
  upd self K h h' → closed h → p ≠ self → h !! p = Some o → props o' = props o →
  scan_level h' p o' acc = scan_level h p o acc.
Proof.
  intros Hu Hcl Hne Hp Hps.
  assert (E : ∀ k, has_method h' p k = has_method h p k)
    by (intros; by eapply has_method_upd).
  rewrite /scan_level /own_names /own_symbols Hps.
  etrans; [apply foldl_ext_eq; intros a b; by rewrite E|].
  f_equal. apply foldl_ext_eq. intros a b. by rewrite E.
Qed.

Lemma walk_methods_upd self K h h' n pr acc ls :
  upd self K h h' → closed h → chain n h pr = Some ls → self ∉ ls →
  walk_methods n h' pr acc = walk_methods n h pr acc.
Proof.
  intros Hu Hcl. revert pr acc ls. induction n as [|n IH]; intros [p|] acc ls; simpl;
    try case_bool_decide; try done.
  destruct (h !! p) as [o|] eqn:Hp; [|done].
  destruct (chain n h (proto o)) as [ls'|] eqn:Hc; [|done].
  intros [= <-] [Hne Hnin]%not_elem_of_cons.
  destruct (upd_other_props _ _ _ _ _ _ Hu (not_eq_sym Hne) Hp) as (o' & -> & (-> & _) & Hps).
  rewrite (scan_level_upd _ _ _ _ _ _ _ _ Hu Hcl (not_eq_sym Hne) Hp Hps). by eapply IH.
Qed.

(** Discovery depends on the ancestors only: a store that extends [h]
    gives the same method set. *)
Lemma getAllMethodNames_upd self K h h' n all :
  upd self K h h' → closed h →
  getAllMethodNames n h self = Some all → getAllMethodNames n h' self = Some all.
Proof.
  intros Hu Hcl. rewrite /getAllMethodNames.
  destruct (h !! self) as [so|] eqn:Hs; [|done]. intros Hw.
  destruct (Hu _ _ Hs) as (so' & -> & (-> & _) & _).
  destruct (walk_methods_chain _ _ _ _ _ Hw) as [ls Hc].
  rewrite (walk_methods_upd _ _ _ _ _ _ _ _ Hu Hcl Hc); [done|].
  by eapply chain_notin.
Qed.

Lemma walk_descriptor_upd self K h h' n pr k ls :
  upd self K h h' → chain n h pr = Some ls → self ∉ ls →
  walk_descriptor n h' pr k = walk_descriptor n h pr k.
Proof.
  intros Hu. revert pr ls. induction n as [|n IH]; intros [p|] ls; simpl;
    try case_bool_decide; try done.
  destruct (h !! p) as [o|] eqn:Hp; [|done].
  destruct (chain n h (proto o)) as [ls'|] eqn:Hc; [|done].
  intros [= <-] [Hne Hnin]%not_elem_of_cons.
  destruct (upd_other_props _ _ _ _ _ _ Hu (not_eq_sym Hne) Hp) as (o' & -> & (-> & _) & ->).
  destruct (assoc k (props o)); [done|]. by eapply IH.
Qed.

(** For a key outside [K] the walk needs no assumption on the chain. *)
Lemma walk_descriptor_upd_key self K h h' n pr k r :
  upd self K h h' → k ∉ K →
  walk_descriptor n h pr k = Some r → walk_descriptor n h' pr k = Some r.
Proof.
  intros Hu Hk. revert pr. induction n as [|n IH]; intros [p|]; simpl;
    try case_bool_decide; try done.
  destruct (h !! p) as [o|] eqn:Hp; [|done].
  destruct (Hu _ _ Hp) as (o' & -> & (-> & _) & _ & Ha). rewrite (Ha _ Hk).
  destruct (assoc k (props o)); [done|]. apply IH.
Qed.

Lemma walk_descriptor_total n h pr k acc r :
  walk_methods n h pr acc = Some r → is_Some (walk_descriptor n h pr k).
Proof.
  revert pr acc. induction n as [|n IH]; intros [p|] acc; simpl;
    try case_bool_decide; intros Hw; try done; try (by exists None).
  destruct (h !! p) as [o|]; [|done].
  destruct (assoc k (props o)) as [d|]; [by exists (Some d)|]. by eapply IH.
Qed.

(** ** Lazy binding *)

Lemma lazy_descriptor_heap n h self m d h1 :
  lazy_descriptor n h self m = Ret d h1 → h1 = h.
Proof.
  rewrite /lazy_descriptor. destruct (h !! self) as [so|]; [|done].
  destruct (proto so) as [p|]; [|done]. destruct (h !! p) as [po|]; [|done].
  destruct (assoc m (props po)); [by intros [= _ <-]|].
  destruct (findDescriptorInChain n h self m); [by intros [= _ <-]|done].
Qed.

Lemma lazy_descriptor_upd self K h h' n m d :
  upd self K h h' → m ∉ K →
  lazy_descriptor n h self m = Ret d h → lazy_descriptor n h' self m = Ret d h'.
Proof.
  intros Hu Hm. rewrite /lazy_descriptor /findDescriptorInChain.
  destruct (h !! self) as [so|] eqn:Hs; [|done].
  destruct (Hu _ _ Hs) as (so' & -> & (-> & _) & _).
  destruct (proto so) as [p|]; [|done].
  destruct (h !! p) as [po|] eqn:Hp; [|done].
  destruct (Hu _ _ Hp) as (po' & -> & _ & _ & Ha). rewrite (Ha _ Hm).
  destruct (assoc m (props po)); [by intros [= <-]|].
  destruct (walk_descriptor n h (Some p) m) as [r|] eqn:Hw; [|done].
  rewrite (walk_descriptor_upd_key _ _ _ _ _ _ _ _ Hu Hm Hw). by intros [= <-].
Qed.

(** One step of the loop of [bindLazy]. *)
Lemma bindLazy_cons n self m ms h :
  bindLazy n self (m :: ms) h
  = match lazy_descriptor n h self m with
    | Ret (Some d) _ =>
        if is_function h (prop_value d) then
          let! (_, h3) :=
            defineProperty self m (getter_desc (VObj (length h)))
              (h ++ [closure (LazyGetter (prop_value d) self m) []]) in
          bindLazy n self ms h3
        else bindLazy n self ms h
    | Ret None _ => bindLazy n self ms h
    | Thr e h1 => Thr e h1
    | Stuck => Stuck
    end.
Proof.
  rewrite /bindLazy /=.
  destruct (lazy_descriptor n h self m) as [d h1| |] eqn:Hd; simpl; try done.
  apply lazy_descriptor_heap in Hd as ->. by destruct d.
Qed.

Lemma bindLazy_upd n self ms h h' :
  bindLazy n self ms h = Ret tt h' → upd self ms h h'.
Proof.
  revert h. induction ms as [|m ms IH]; intros h.
  - intros [= <-]. apply upd_refl.
  - rewrite bindLazy_cons.
    destruct (lazy_descriptor n h self m) as [[d|] h1| |]; try done.
    + destruct (is_function h (prop_value d)).
      * destruct (defineProperty _ _ _ _) as [[] h3| |] eqn:Hd; simpl; try done.
        intros Hr. apply defineProperty_upd in Hd.
        pose proof (upd_trans self [] [m] _ _ _ (upd_alloc self [] _ h) Hd) as Hu.
        apply (upd_trans _ [m] ms _ _ _ Hu). by apply IH.
      * intros Hr. apply (upd_weaken _ ms); [|by apply IH].
        intros x Hx. by apply list_elem_of_further.
    + intros Hr. apply (upd_weaken _ ms); [|by apply IH].
      intros x Hx. by apply list_elem_of_further.
Qed.

(** [bindLazy] leaves every [lastIndex] as it is. *)
Lemma bindLazy_keeps n self ms h h' :
  bindLazy n self ms h = Ret tt h' → keeps_lastIndex h h'.
Proof.
  revert h. induction ms as [|m ms IH]; intros h.
  - intros [= <-]. apply keeps_lastIndex_refl.
  - rewrite bindLazy_cons.
    destruct (lazy_descriptor n h self m) as [[d|] h1| |]; try done; [|by apply IH].
    destruct (is_function h (prop_value d)); [|by apply IH].
    destruct (defineProperty _ _ _ _) as [[] h3| |] eqn:Hd; simpl; try done.
    intros Hr. eapply keeps_lastIndex_trans; [apply keeps_lastIndex_alloc|].
    eapply keeps_lastIndex_trans; [by eapply defineProperty_keeps|]. by apply IH.
Qed.

Lemma live_upd self K h h' v : upd self K h h' → live h v → live h' v.
Proof. intros Hu Hv l ->. apply upd_length in Hu. specialize (Hv l eq_refl). lia. Qed.

(** A retained name whose descriptor holds no callable is skipped: nothing
    is installed for it. *)
Lemma bindLazy_skipped n self ms h h' m d :
  NoDup ms → bindLazy n self ms h = Ret tt h' → m ∈ ms →
  lazy_descriptor n h self m = Ret d h →
  (∀ p, d = Some p → is_function h (prop_value p) = false ∧ live h (prop_value p)) →
  own_prop h' self m = own_prop h self m.
Proof.
  intros Hnd. revert h. induction Hnd as [|m0 ms Hm0 Hnd IH]; intros h Hr Hin Hd Hnf.
  { by apply elem_of_nil in Hin. }
  assert (Hs : is_Some (h !! self)).
  { move: Hd. rewrite /lazy_descriptor. destruct (h !! self); [by eexists|done]. }
  rewrite bindLazy_cons in Hr.
  destruct (decide (m = m0)) as [->|Hne].
  - rewrite Hd in Hr.
    assert (Hr' : bindLazy n self ms h = Ret tt h').
    { destruct d as [p|]; [|done]. by rewrite (proj1 (Hnf p eq_refl)) in Hr. }
    apply bindLazy_upd in Hr'. by eapply own_prop_upd.
  - assert (Hin' : m ∈ ms) by (by apply elem_of_cons in Hin as [?|?]).
    assert (Hskip : bindLazy n self ms h = Ret tt h' → own_prop h' self m = own_prop h self m)
      by (intros; by apply IH).
    destruct (lazy_descriptor n h self m0) as [[d0|] h1| |]; try done; [|by apply Hskip].
    destruct (is_function h (prop_value d0)); [|by apply Hskip].
    destruct (defineProperty _ _ _ _) as [[] h3| |] eqn:Hdef; simpl in Hr; try done.
    apply defineProperty_upd in Hdef.
    pose proof (upd_trans self [] [m0] _ _ _ (upd_alloc self [] _ h) Hdef) as Hu.
    simpl in Hu.
    assert (Hm : m ∉ [m0]) by (by intros ->%list_elem_of_singleton).
    transitivity (own_prop h3 self m); [|by eapply own_prop_upd].
    apply IH; [done|done|by eapply lazy_descriptor_upd|].
    intros p ->. destruct (Hnf p eq_refl) as [Hf Hl]. split.
    + by rewrite (is_function_upd _ _ _ _ _ Hu Hl).
    + by eapply live_upd.
Qed.

(** A retained name whose descriptor holds a callable gets an accessor whose
    getter closes over that callable. *)
Lemma bindLazy_installed n self ms h h' m p :
  NoDup ms → bindLazy n self ms h = Ret tt h' → m ∈ ms →
  lazy_descriptor n h self m = Ret (Some p) h →
  is_function h (prop_value p) = true →
  ∃ g s, length h ≤ g
         ∧ own_prop h' self m = Some (Accessor (VObj g) s false true)
         ∧ h' !! g = Some (closure (LazyGetter (prop_value p) self m) []).
Proof.
  intros Hnd. revert h. induction Hnd as [|m0 ms Hm0 Hnd IH]; intros h Hr Hin Hd Hf.
  { by apply elem_of_nil in Hin. }
  assert (Hs : ∃ so, h !! self = Some so).
  { move: Hd. rewrite /lazy_descriptor. destruct (h !! self); [by eexists|done]. }
  destruct Hs as [so Hs].
  rewrite bindLazy_cons in Hr.
  destruct (decide (m = m0)) as [->|Hne].
  - rewrite Hd Hf in Hr.
    destruct (defineProperty _ _ _ _) as [[] h3| |] eqn:Hdef; simpl in Hr; try done.
    pose proof (defineProperty_own _ _ _ _ _ Hdef) as Hown.
    pose proof (defineProperty_upd _ _ _ _ _ Hdef) as Hu3.
    apply bindLazy_upd in Hr.
    assert (Hs3 : is_Some (h3 !! self)).
    { destruct (Hu3 self so) as (o' & ? & _); [|by eexists].
      rewrite lookup_app_l; [done|by eapply lookup_lt_Some]. }
    assert (Hlt : self < length h) by (by eapply lookup_lt_Some).
    exists (length h),
      (match own_prop (h ++ [closure (LazyGetter (prop_value p) self m0) []]) self m0 with
       | Some (Accessor _ s _ _) => s
       | _ => VUndef
       end).
    split; [done|]. split.
    + rewrite (own_prop_upd _ _ _ _ _ Hr Hm0 Hs3) Hown.
      by destruct (own_prop (h ++ _) self m0) as [[]|].
    + eapply (upd_other _ _ _ _ _ _ Hr); [lia| |done].
      eapply (upd_other _ _ _ _ _ _ Hu3); [lia| |done].
      by rewrite lookup_app_r // Nat.sub_diag.
  - assert (Hin' : m ∈ ms) by (by apply elem_of_cons in Hin as [?|?]).
    assert (Hskip : bindLazy n self ms h = Ret tt h' →
              ∃ g s, length h ≤ g
                     ∧ own_prop h' self m = Some (Accessor (VObj g) s false true)
                     ∧ h' !! g = Some (closure (LazyGetter (prop_value p) self m) []))
      by (intros; by apply IH).
    destruct (lazy_descriptor n h self m0) as [[d0|] h1| |]; try done; [|by apply Hskip].
    destruct (is_function h (prop_value d0)); [|by apply Hskip].
    destruct (defineProperty _ _ _ _) as [[] h3| |] eqn:Hdef; simpl in Hr; try done.
    apply defineProperty_upd in Hdef.
    pose proof (upd_trans self [] [m0] _ _ _ (upd_alloc self [] _ h) Hdef) as Hu.
    simpl in Hu.
    assert (Hm : m ∉ [m0]) by (by intros ->%list_elem_of_singleton).
    destruct (IH h3) as (g & s & Hg & Hown & Hobj); try done.
    + by eapply lazy_descriptor_upd.
    + by eapply is_function_upd_true.
    + exists g, s. split; [apply upd_length in Hu; lia|done].
Qed.
(** ** [autoBind] *)

Lemma filtering_Ret self n h a ms h0 :
  filtering n h self a = Ret ms h0 →
  retained n h self a = ms
  ∧ (∃ all, getAllMethodNames n h self = Some all
            ∧ filterMethods all (options_of a) h = Ret ms h0)
  ∧ upd self [] h h0 ∧ length h0 = length h.
Proof.
  intros Hf. split; [by rewrite /retained Hf|]. move: Hf. rewrite /filtering.
  destruct (getAllMethodNames n h self) as [all|]; [|done]. intros Hf.
  split; [by exists all|]. by destruct (filterMethods_Ret self _ _ _ _ _ Hf) as (_ & _ & ? & ?).
Qed.

(** What is quiet before the filtering is quiet after it. *)
Lemma quiet_after self n h h0 (ms : list key) :
  upd self [] h h0 →
  (∀ m, m ∈ ms → quiet n h self m = true) →
  ∀ m, m ∈ ms → quiet n h0 self m = true ∧ read_value n h0 self m = read_value n h self m.
Proof.
  intros Hu Hq m Hm. eapply quiet_upd; [done|apply not_elem_of_nil|by apply Hq].
Qed.

Section AutoBind.

Context (run : nat → invocation → heap → res value).

Lemma autoBind_unfold n self a h :
  autoBind run n self a h
  = let! (methods, h0) := filtering n h self a in
    let! (_, h1) :=
      (if opt_lazy (options_of a)
       then bindLazy n self methods h0
       else bindEager run n self methods h0) in
    Ret (VObj self) h1.
Proof.
  rewrite /autoBind /autoBind_with /filtering.
  destruct (getAllMethodNames n h self); by destruct a.
Qed.

Lemma autoBind_Ret n self a h v h' :
  autoBind run n self a h = Ret v h' →
  v = VObj self
  ∧ is_Some (getAllMethodNames n h self)
  ∧ ∃ h0, filtering n h self a = Ret (retained n h self a) h0
          ∧ upd self [] h h0 ∧ length h0 = length h
          ∧ (if opt_lazy (options_of a)
             then bindLazy n self (retained n h self a) h0
             else bindEager run n self (retained n h self a) h0) = Ret tt h'.
Proof.
  rewrite autoBind_unfold.
  destruct (filtering n h self a) as [ms h0| |] eqn:Hf; simpl; try done.
  destruct (filtering_Ret self _ _ _ _ _ Hf) as (-> & (all & Hall & _) & Hu & Hlen).
  destruct (if opt_lazy _ then _ else _) as [[] h1| |] eqn:Hb; simpl; try done.
  intros [= <- <-]. split; [done|]. split; [by eexists|]. by exists h0.
Qed.

(** The frame of a binding call: what a completed [autoBind] leaves of
    the store it started from. *)
Lemma autoBind_upd n self a h v h' :
  autoBind run n self a h = Ret v h' →
  (opt_lazy (options_of a) = false →
   ∀ m, m ∈ retained n h self a → quiet n h self m = true) →
  upd self (retained n h self a) h h'.
Proof.
  intros (_ & _ & h0 & _ & Hu0 & _ & Hb)%autoBind_Ret Hpl.
  apply (upd_trans self [] _ _ _ _ Hu0).
  destruct (opt_lazy (options_of a)).
  - by apply (bindLazy_upd n).
  - apply (bindEager_upd run n); [apply retained_NoDup| |done].
    intros m Hm. by apply (quiet_after self n h h0 _ Hu0 (Hpl eq_refl)).
Qed.

(** The binders leave every [lastIndex] as it is. *)
Lemma binder_keeps n self (lazy : bool) ms h0 h' :
  NoDup ms →
  (lazy = false → ∀ m, m ∈ ms → quiet n h0 self m = true) →
  (if lazy then bindLazy n self ms h0 else bindEager run n self ms h0) = Ret tt h' →
  keeps_lastIndex h0 h'.
Proof.
  intros Hnd Hq. destruct lazy.
  - apply bindLazy_keeps.
  - apply bindEager_keeps; [done|by apply Hq].
Qed.

(** What a completed [autoBind] leaves of an object other than the
    instance: everything, but the [lastIndex] of the expression of a
    pattern with the [g] or the [y] flag. *)
Lemma autoBind_other n self a h v h' l o :
  autoBind run n self a h = Ret v h' →
  (opt_lazy (options_of a) = false →
   ∀ m, m ∈ retained n h self a → quiet n h self m = true) →
  l ≠ self → h !! l = Some o →
  ∃ o', h' !! l = Some o'
        ∧ proto o' = proto o ∧ props o' = props o
        ∧ extensible o' = extensible o ∧ callable o' = callable o
        ∧ ((∀ pat, opt_pattern (options_of a) = Some pat →
                   pat_stateful pat = true → l ≠ pat_ref pat) →
           o' = o).
Proof.
  intros Hr Hq Hne Hl. pose proof (autoBind_upd _ _ _ _ _ _ Hr Hq) as Hu.
  destruct (Hu _ _ Hl) as (o' & Hl' & (Hp & He & Hc) & Hps & _).
  destruct (Hps Hne) as [Hpr _].
  exists o'. do 5 (split; [done|]). intros Hpat.
  destruct (autoBind_Ret _ _ _ _ _ _ Hr) as (_ & _ & h0 & Hf & Hu0 & _ & Hb).
  move: (Hf). rewrite /filtering.
  destruct (getAllMethodNames n h self) as [all|]; [|done]. intros Hfm.
  pose proof (filterMethods_frame _ _ _ _ _ l Hfm Hpat) as Hl0. rewrite Hl in Hl0.
  assert (Hk : keeps_lastIndex h0 h').
  { eapply binder_keeps; [apply retained_NoDup| |exact Hb].
    intros Hlz m Hm. by apply (quiet_after self n h h0 _ Hu0 (Hq Hlz)). }
  assert (Hub : upd self (retained n h self a) h0 h').
  { destruct (opt_lazy (options_of a)) eqn:Hlz.
    - by apply (bindLazy_upd n).
    - apply (bindEager_upd run n); [apply retained_NoDup| |done].
      intros m Hm. by apply (quiet_after self n h h0 _ Hu0 (Hq eq_refl)). }
  pose proof (upd_keeps_other _ _ _ _ _ _ Hub Hk Hne Hl0) as Hl2.
  rewrite Hl' in Hl2. by injection Hl2.
Qed.

End AutoBind.

(** ** Completion of the binders *)

Lemma find_prop_assoc n h start k p :
  find_prop n h start k = Some (Some p) →
  ∃ l o, h !! l = Some o ∧ assoc k (props o) = Some p.
Proof.
  revert start. induction n as [|n IH]; intros [l|]; simpl; try done.
  destruct (h !! l) as [o|] eqn:Hl; [|done].
  destruct (assoc k (props o)) as [p'|] eqn:Ha; [|by apply IH].
  intros [= <-]. by exists l, o.
Qed.

Lemma read_value_live n h self m : closed h → live h (read_value n h self m).
Proof.
  intros Hcl. rewrite /read_value.
  destruct (find_prop n h (Some self) m) as [[p|]|] eqn:Hf; try by intros l.
  destruct (find_prop_assoc _ _ _ _ _ Hf) as (l & o & Hl & Ha). by eapply Hcl.
Qed.

Lemma filter_ext_in_eq {A} (f g : A → bool) l :
  (∀ x, x ∈ l → f x = g x) → List.filter f l = List.filter g l.
Proof.
  induction l as [|x l IH]; intros E; simpl; [done|].
  rewrite E; [|apply list_elem_of_here]. rewrite IH; [done|].
  intros y Hy. apply E. by apply list_elem_of_further.
Qed.

Lemma definable_upd self K h h' k :
  upd self K h h' → k ∉ K → definable h self k = true → definable h' self k = true.
Proof.
  intros Hu Hk. rewrite /definable. destruct (h !! self) as [o|] eqn:Hs; [|done].
  destruct (Hu _ _ Hs) as (o' & -> & (_ & -> & _) & _ & Ha). by rewrite (Ha _ Hk).
Qed.

(** A configurable descriptor that is well-formed is accepted wherever the
    name is definable. *)
Lemma defineProperty_definable l k d h :
  definable h l k = true →
  is_accessor_desc d && is_data_desc d = false →
  accessor_ok h (d_get d) && accessor_ok h (d_set d) = true →
  ∃ h', defineProperty l k d h = Ret tt h'.
Proof.
  rewrite /definable /defineProperty. destruct (h !! l) as [o|]; [|done].
  intros Hd -> ->. simpl. destruct (assoc k (props o)) as [cur|].
  - rewrite /redefinable Hd. by eexists.
  - rewrite Hd. by eexists.
Qed.

Lemma definable_alloc h l k o : definable h l k = true → definable (h ++ [o]) l k = true.
Proof.
  rewrite /definable. destruct (h !! l) as [o'|] eqn:Hl; [|done].
  rewrite lookup_app_l; [|by eapply lookup_lt_Some]. by rewrite Hl.
Qed.

Section Completion.

Context (run : nat → invocation → heap → res value).

Lemma quiet_rest self n h h3 m ms :
  upd self [m] h h3 → m ∉ ms →
  (∀ m', m' ∈ m :: ms → quiet n h self m' = true) →
  ∀ m', m' ∈ ms →
    quiet n h3 self m' = true ∧ read_value n h3 self m' = read_value n h self m'.
Proof.
  intros Hu Hm Hq m' Hm'. eapply quiet_upd; [exact Hu| |].
  - intros ->%list_elem_of_singleton. done.
  - apply Hq. by apply list_elem_of_further.
Qed.

Lemma quiet_function self K n h h' m :
  upd self K h h' → quiet n h self m = true →
  is_function h' (read_value n h self m) = is_function h (read_value n h self m).
Proof.
  intros Hu Hq. apply andb_true_iff in Hq as [_ Hs]. by eapply settled_function.
Qed.

(** [bindEager] changes the own properties of the instance at the names
    it binds, and nothing else. *)
Lemma bindEager_upd_bound n self ms h h' :
  NoDup ms →
  (∀ m, m ∈ ms → quiet n h self m = true) →
  bindEager run n self ms h = Ret tt h' →
  upd self (eager_bound n h self ms) h h'.
Proof.
  intros Hnd. revert h. induction Hnd as [|m ms Hm Hnd IH]; intros h Hq.
  { intros [= <-]. apply upd_refl. }
  rewrite bindEager_cons; [|apply Hq; apply list_elem_of_here].
  rewrite /eager_bound /=. fold (eager_bound n h self ms).
  destruct (is_function h (read_value n h self m)) eqn:Hf.
  - destruct (defineProperty _ _ _ _) as [[] h3| |] eqn:Hd; simpl; try done.
    intros Hr. apply defineProperty_upd in Hd.
    pose proof (upd_trans self [] [m] _ _ _ (upd_alloc self [] _ h) Hd) as Hu.
    simpl in Hu.
    pose proof (quiet_rest self n h h3 m ms Hu Hm Hq) as Hrest.
    assert (HK : eager_bound n h3 self ms = eager_bound n h self ms).
    { apply filter_ext_in_eq. intros m' Hm'. rewrite (proj2 (Hrest m' Hm')).
      eapply quiet_function; [done|]. apply Hq. by apply list_elem_of_further. }
    apply (upd_trans _ [m] _ _ _ _ Hu). rewrite -HK. apply IH; [|done].
    intros m' Hm'. by apply Hrest.
  - intros Hr. apply IH; [|done].
    intros m' Hm'. apply Hq. by apply list_elem_of_further.
Qed.

(** [bindEager] completes when the reads and the binds run no user code
    and the names to bind are definable on the instance. *)
Lemma bindEager_total n self ms h :
  NoDup ms →
  (∀ m, m ∈ ms → quiet n h self m = true) →
  (∀ m, m ∈ ms → is_function h (read_value n h self m) = true →
        definable h self m = true) →
  ∃ h', bindEager run n self ms h = Ret tt h'.
Proof.
  intros Hnd. revert h. induction Hnd as [|m ms Hm Hnd IH]; intros h Hq Hdef.
  { by exists h. }
  rewrite bindEager_cons; [|apply Hq; apply list_elem_of_here].
  destruct (is_function h (read_value n h self m)) eqn:Hf.
  - destruct (defineProperty_definable self m (bound_desc (VObj (length h)))
                (h ++ [bound_function n h (read_value n h self m) (VObj self)]))
      as [h3 Hd]; [|done|done|].
    { apply definable_alloc, Hdef; [apply list_elem_of_here|done]. }
    rewrite Hd /=. pose proof (defineProperty_upd _ _ _ _ _ Hd) as Hu3.
    pose proof (upd_trans self [] [m] _ _ _ (upd_alloc self [] _ h) Hu3) as Hu.
    simpl in Hu.
    pose proof (quiet_rest self n h h3 m ms Hu Hm Hq) as Hrest.
    apply IH.
    + intros m' Hm'. by apply Hrest.
    + intros m' Hm'. rewrite (proj2 (Hrest m' Hm')). intros Hf'.
      eapply definable_upd; [exact Hu|by intros ->%list_elem_of_singleton|].
      apply Hdef; [by apply list_elem_of_further|].
      rewrite -Hf'. symmetry. eapply quiet_function; [done|].
      apply Hq. by apply list_elem_of_further.
  - apply IH.
    + intros m' Hm'. apply Hq. by apply list_elem_of_further.
    + intros m' Hm'. apply Hdef. by apply list_elem_of_further.
Qed.


End Completion.

Section EagerAutoBind.

Context (run : nat → invocation → heap → res value).

(** What a completed eager [autoBind] leaves at a retained name whose
    value is callable. *)
Lemma autoBind_eager_bound n self a h v h' m :
  opt_lazy (options_of a) = false →
  autoBind run n self a h = Ret v h' →
  (∀ m, m ∈ retained n h self a → quiet n h self m = true) →
  m ∈ retained n h self a →
  is_function h (read_value n h self m) = true →
  ∃ w, length h ≤ w
       ∧ own_prop h' self m = Some (Data (VObj w) true false true)
       ∧ h' !! w = Some (bound_function n h (read_value n h self m) (VObj self)).
Proof.
  intros Hlazy Hr Hq Hm Hf.
  destruct (autoBind_Ret _ _ _ _ _ _ _ Hr) as (_ & _ & h0 & _ & Hu0 & Hlen & Hb).
  rewrite Hlazy in Hb.
  pose proof (quiet_after self n h h0 _ Hu0 Hq) as Hq0.
  assert (Hq0' : ∀ m, m ∈ retained n h self a → quiet n h0 self m = true).
  { intros m' Hm'. by apply Hq0. }
  assert (Hfn : is_function h0 (read_value n h0 self m) = true).
  { rewrite (proj2 (Hq0 m Hm)) -Hf. eapply quiet_function; [done|by apply Hq]. }
  destruct (bindEager_bound _ _ _ _ _ _ _ (retained_NoDup _ _ _ _) Hq0' Hb Hm Hfn)
    as (w & Hw & Hown & Hobj).
  rewrite (proj2 (Hq0 m Hm)) in Hobj.
  exists w. split; [lia|]. split; [done|]. rewrite Hobj. f_equal.
  apply (bound_function_upd self [] h h0); [done|].
  apply settled_bindable; [|done].
  pose proof (Hq m Hm) as Hqm. by apply andb_true_iff in Hqm as [_ ?].
Qed.

(** What a completed eager [autoBind] changes on the instance: the own
    properties at the names it binds. *)
Lemma autoBind_eager_upd n self a h v h' :
  opt_lazy (options_of a) = false →
  autoBind run n self a h = Ret v h' →
  (∀ m, m ∈ retained n h self a → quiet n h self m = true) →
  upd self (eager_bound n h self (retained n h self a)) h h'.
Proof.
  intros Hlazy Hr Hq.
  destruct (autoBind_Ret _ _ _ _ _ _ _ Hr) as (_ & _ & h0 & _ & Hu0 & Hlen & Hb).
  rewrite Hlazy in Hb.
  pose proof (quiet_after self n h h0 _ Hu0 Hq) as Hq0.
  assert (HK : eager_bound n h0 self (retained n h self a)
               = eager_bound n h self (retained n h self a)).
  { apply filter_ext_in_eq. intros m Hm. rewrite (proj2 (Hq0 m Hm)).
    eapply quiet_function; [done|by apply Hq]. }
  assert (Hu : upd self (eager_bound n h self (retained n h self a)) h0 h').
  { rewrite -HK. apply (bindEager_upd_bound run); [apply retained_NoDup| |done].
    intros m Hm. by apply Hq0. }
  exact (upd_trans self [] _ _ _ _ Hu0 Hu).
Qed.

End EagerAutoBind.

(** ** Checking hypotheses on concrete stores *)

Lemma forallb_elem {A} (f : A → bool) l :
  forallb f l = true → ∀ x, x ∈ l → f x = true.
Proof.
  intros Hf x Hx. apply list_elem_of_In in Hx.
  by apply (proj1 (forallb_forall f l) Hf).
Qed.

Lemma assoc_elem k p ps : assoc k ps = Some p → (k, p) ∈ ps.
Proof.
  induction ps as [|[k' p'] ps IH]; simpl; [done|].
  destruct (decide (k' = k)) as [->|_].
  - intros [= ->]. apply list_elem_of_here.
  - intros H. apply list_elem_of_further. by apply IH.
Qed.

Lemma closedb_closed h : closedb h = true → closed h.
Proof.
  intros Hc l o k p Hl Ha l' Hv.
  apply list_elem_of_lookup_2 in Hl. apply assoc_elem in Ha.
  pose proof (forallb_elem _ _ Hc o Hl) as Ho. simpl in Ho.
  pose proof (forallb_elem _ _ Ho (k, p) Ha) as Hp. simpl in Hp.
  rewrite Hv /= in Hp. by apply bool_decide_eq_true in Hp.
Qed.

(** C1 (as amended).  After an eager [autoBind] has completed, when
    reading each retained name on the instance runs no getter and each
    callable value read has the built-in [bind] and does not have the
    instance on its prototype chain: a retained name whose value on the
    instance was callable is an own, writable, configurable, non-enumerable
    data property of the instance holding a new object [w]; reading the
    name from the instance yields [w]; [w] is a bound function of the
    original value with the instance as receiver and no preset argument;
    and calling [w] through any receiver with any arguments is calling the
    original value with the instance as receiver and the same arguments:
    same result, same exception, same effect.  A retained name whose value
    was not callable has the own property on the instance it had before, or
    none as before. *)
Theorem eager_binds_callable run n h self a v h' m :
  opt_lazy (options_of a) = false →
  autoBind run n self a h = Ret v h' →
  (∀ m, m ∈ retained n h self a → quiet n h self m = true) →
  m ∈ retained n h self a →
  (is_function h (read_value n h self m) = true →
   ∃ w, length h ≤ w
        ∧ own_prop h' self m = Some (Data (VObj w) true false true)
        ∧ get run n self m h' = Ret (VObj w) h'
        ∧ wrapper_of h' w (read_value n h self m) (VObj self)
        ∧ ∀ h'' k r args,
            h'' !! w = h' !! w →
            call run (S k) (VObj w) r args h''
            = call run k (read_value n h self m) (VObj self) args h'')
  ∧ (is_function h (read_value n h self m) = false →
     own_prop h' self m = own_prop h self m).
Proof.
  intros Hlazy Hr Hq Hm.
  destruct (autoBind_Ret _ _ _ _ _ _ _ Hr) as (-> & _ & h0 & _ & Hu0 & Hlen & Hb).
  rewrite Hlazy in Hb.
  pose proof (quiet_after self n h h0 _ Hu0 Hq) as Hq0.
  assert (Hq0' : ∀ m, m ∈ retained n h self a → quiet n h0 self m = true).
  { intros m' Hm'. by apply Hq0. }
  assert (Hfn : is_function h0 (read_value n h0 self m)
                = is_function h (read_value n h self m)).
  { rewrite (proj2 (Hq0 m Hm)). eapply quiet_function; [done|by apply Hq]. }
  assert (Hself : is_Some (h !! self)).
  { eapply plain_read_self, quiet_plain. by apply Hq. }
  split.
  - intros Hf. rewrite -Hfn in Hf.
    destruct (bindEager_bound _ _ _ _ _ _ _ (retained_NoDup _ _ _ _) Hq0' Hb Hm Hf)
      as (w & Hw & Hown & Hobj).
    rewrite (proj2 (Hq0 m Hm)) in Hobj.
    exists w. split; [lia|]. split; [done|]. split; [|split].
    + destruct n as [|n]; [by specialize (Hq m Hm)|]. by eapply get_own_data.
    + by eexists.
    + intros h'' k r args Hw'. eapply call_bound; [by rewrite Hw'|done].
  - intros Hf.
    pose proof (bindEager_upd_bound _ _ _ _ _ _ (retained_NoDup _ _ _ _) Hq0' Hb) as Hu.
    rewrite (own_prop_upd _ _ _ _ _ Hu).
    + by apply (own_prop_upd self [] h h0); [|apply not_elem_of_nil|].
    + rewrite /eager_bound. intros Hin%list_elem_of_In. apply filter_In in Hin as [_ Hin].
      by rewrite Hfn Hf in Hin.
    + destruct Hself as [so Hs]. destruct (Hu0 _ _ Hs) as (so' & -> & _). by eexists.
Qed.

Lemma eager_binds_callable_witness :
  (is_function world (read_value 3 world 6 (KStr "getName")) = true →
   ∃ w, length world ≤ w
        ∧ own_prop world_eager 6 (KStr "getName") = Some (Data (VObj w) true false true)
        ∧ get run0 3 6 (KStr "getName") world_eager = Ret (VObj w) world_eager
        ∧ wrapper_of world_eager w (read_value 3 world 6 (KStr "getName")) (VObj 6)
        ∧ ∀ h'' k r args,
            h'' !! w = world_eager !! w →
            call run0 (S k) (VObj w) r args h''
            = call run0 k (read_value 3 world 6 (KStr "getName")) (VObj 6) args h'')
  ∧ (is_function world (read_value 3 world 6 (KStr "getName")) = false →
     own_prop world_eager 6 (KStr "getName") = own_prop world 6 (KStr "getName")).
Proof.
  apply (eager_binds_callable run0 3 world 6 OUndef (VObj 6) world_eager (KStr "getName")).
  - reflexivity.
  - reflexivity.
  - apply forallb_elem. reflexivity.
  - apply list_elem_of_here.
Defined.

(** C1, counterexample.  The instance has an own field [getName = null]
    over the prototype method [getName]: the name is retained, the eager
    binding completes and leaves the store as it was, and reading the name
    from the instance yields [null], which is not callable. *)
Lemma eager_binds_every_name_counterexample :
  retained 3 world_shadowed 6 OUndef = [KStr "getName"]
  ∧ autoBind run0 3 6 OUndef world_shadowed = Ret (VObj 6) world_shadowed
  ∧ get run0 3 6 (KStr "getName") world_shadowed = Ret VNull world_shadowed
  ∧ is_function world_shadowed VNull = false.
Proof. repeat split; reflexivity. Qed.

(** Why the reads must run no getter: [getName] is bound first, then the
    read of [zap] runs a getter that overwrites the instance's [getName];
    after the binding the name reads [0]. *)
Example eager_getter_interference :
  retained 3 world_meddling 9 OUndef = [KStr "getName"; KStr "zap"]
  ∧ is_function world_meddling (read_value 3 world_meddling 9 (KStr "getName")) = true
  ∧ plain_read 3 world_meddling 9 (KStr "zap") = false
  ∧ ∃ h', autoBind run0 3 9 OUndef world_meddling = Ret (VObj 9) h'
          ∧ get run0 3 9 (KStr "getName") h' = Ret (VNum 0) h'.
Proof.
  split; [reflexivity|]. split; [reflexivity|]. split; [reflexivity|].
  eexists. split; reflexivity.
Qed.

(** C2 (as amended).  A completed [autoBind], lazy or eager (for the eager
    mode: when reading each retained name on the instance runs no getter
    and each callable value read has the built-in [bind] and does not have
    the instance on its prototype chain), returns the reference it was
    given; leaves the prototype link, the own properties, the extensibility
    and the callability of every other object as they were, the ancestors
    included, and the whole of every other object but the expression of a
    pattern with the [g] or the [y] flag, whose [lastIndex] may change;
    leaves the prototype link, extensibility and callability of the
    instance as they were and changes its own properties at retained names
    only; and every descriptor found in the ancestor chain before is found
    there after. *)
Theorem autoBind_frame run n h self a v h' :
  autoBind run n self a h = Ret v h' →
  (opt_lazy (options_of a) = false →
   ∀ m, m ∈ retained n h self a → quiet n h self m = true) →
  v = VObj self
  ∧ (∀ l o, l ≠ self → h !! l = Some o →
       ∃ o', h' !! l = Some o'
             ∧ proto o' = proto o ∧ props o' = props o
             ∧ extensible o' = extensible o ∧ callable o' = callable o
             ∧ ((∀ pat, opt_pattern (options_of a) = Some pat →
                        pat_stateful pat = true → l ≠ pat_ref pat) →
                o' = o))
  ∧ (∃ so so', h !! self = Some so ∧ h' !! self = Some so'
               ∧ proto so' = proto so ∧ extensible so' = extensible so
               ∧ callable so' = callable so
               ∧ ∀ k, k ∉ retained n h self a → assoc k (props so') = assoc k (props so))
  ∧ (∀ k, findDescriptorInChain n h' self k = findDescriptorInChain n h self k).
Proof.
  intros Hr Hpl. pose proof (autoBind_upd _ _ _ _ _ _ _ Hr Hpl) as Hu.
  destruct (autoBind_Ret _ _ _ _ _ _ _ Hr) as (-> & [all Hall] & _).
  split; [done|]. split; [|split].
  - intros l o Hne Hl. by eapply autoBind_other.
  - move: Hall. rewrite /getAllMethodNames.
    destruct (h !! self) as [so|] eqn:Hs; [|done]. intros _.
    destruct (Hu _ _ Hs) as (so' & Hs' & (? & ? & ?) & _ & Ha).
    by exists so, so'.
  - intros k. move: Hall. rewrite /getAllMethodNames /findDescriptorInChain.
    destruct (h !! self) as [so|] eqn:Hs; [|done]. intros Hw.
    destruct (Hu _ _ Hs) as (so' & -> & (-> & _) & _).
    destruct (walk_methods_chain _ _ _ _ _ Hw) as [ls Hc].
    eapply walk_descriptor_upd; [done|done|]. by eapply chain_notin.
Qed.

(** [autoBind(instance, { pattern: /^handle/g })] on [world_rx]. *)
Lemma autoBind_frame_witness :
  VObj 6 = VObj 6
  ∧ (∀ l o, l ≠ 6 → world_rx !! l = Some o →
       ∃ o', world_rx_bound !! l = Some o'
             ∧ proto o' = proto o ∧ props o' = props o
             ∧ extensible o' = extensible o ∧ callable o' = callable o
             ∧ ((∀ pat, opt_pattern (options_of (OOpts pattern_opts)) = Some pat →
                        pat_stateful pat = true → l ≠ pat_ref pat) →
                o' = o))
  ∧ (∃ so so', world_rx !! 6 = Some so ∧ world_rx_bound !! 6 = Some so'
               ∧ proto so' = proto so ∧ extensible so' = extensible so
               ∧ callable so' = callable so
               ∧ ∀ k, k ∉ retained 3 world_rx 6 (OOpts pattern_opts)
                      → assoc k (props so') = assoc k (props so))
  ∧ (∀ k, findDescriptorInChain 3 world_rx_bound 6 k
          = findDescriptorInChain 3 world_rx 6 k).
Proof.
  apply (autoBind_frame run0 3 world_rx 6 (OOpts pattern_opts) (VObj 6) world_rx_bound).
  - reflexivity.
  - intros _. apply forallb_elem. reflexivity.
Defined.

(** C2, counterexample.  [world_lazy] is [world] after
    [autoBind(instance, { lazy: true })], and [b = Object.create(instance)]
    is added to it.  The eager [autoBind(b)] reads [b.getName], which runs
    the getter installed on the instance: the instance, an ancestor of [b],
    has its accessor replaced by a data property. *)
Lemma autoBind_frame_counterexample :
  autoBind run0 3 6 (OOpts lazy_opts) world = Ret (VObj 6) world_lazy
  ∧ world_derived = world_lazy ++ [obj (Some 6) []]
  ∧ ∃ h', autoBind run0 3 8 OUndef world_derived = Ret (VObj 8) h'
          ∧ world_derived !! 6
            = Some (obj (Some 3) [(KStr "name", field (VStr "foo"));
                                  (KStr "getName", Accessor (VObj 7) VUndef false true)])
          ∧ h' !! 6
            = Some (obj (Some 3) [(KStr "name", field (VStr "foo"));
                                  (KStr "getName", Data (VObj 9) true false true)]).
Proof.
  split; [reflexivity|]. split; [reflexivity|].
  eexists. split; [reflexivity|]. split; reflexivity.
Qed.

(** ** Reading a lazily bound name *)

Section LazyRead.

Context (run : nat → invocation → heap → res value).

(** The first read of a name that carries the getter of [bindLazy]:
    the getter creates the wrapper of the callable it closed over and
    replaces itself by a data property holding it. *)
Lemma lazy_getter_read k self m h g s e go f :
  own_prop h self m = Some (Accessor (VObj g) s e true) →
  h !! g = Some go → callable go = Some (LazyGetter f self m) →
  has_builtin_bind k h f = true →
  ∃ h3, get run (S k) self m h = Ret (VObj (length h)) h3
        ∧ h3 !! length h = Some (bound_function k h f (VObj self))
        ∧ own_prop h3 self m = Some (Data (VObj (length h)) true false true).
Proof.
  intros Hown Hg Hc Hb.
  assert (Hs : ∃ so, h !! self = Some so ∧ assoc m (props so) = Some (Accessor (VObj g) s e true)).
  { move: Hown. rewrite /own_prop. destruct (h !! self) as [so|]; [|done]. by exists so. }
  destruct Hs as (so & Hs & Ha).
  assert (Hlt : self < length h) by (by eapply lookup_lt_Some).
  destruct (defineProperty_definable self m (bound_desc (VObj (length h)))
              (h ++ [bound_function k h f (VObj self)])) as [h3 Hd]; [|done|done|].
  { apply definable_alloc. by rewrite /definable Hs Ha. }
  exists h3. split; [|split].
  - rewrite /get /get_with /= Hs Ha /= Hg Hc /lazy_getter.
    rewrite (call_bind_builtin run k h f (VObj self) Hb). cbn [bindR].
    by rewrite Hd.
  - eapply (upd_other self [m]); [by apply defineProperty_upd in Hd|lia| |done].
    by rewrite lookup_app_r // Nat.sub_diag.
  - rewrite (defineProperty_own _ _ _ _ _ Hd). by rewrite bound_desc_prop.
Qed.

(** What a completed lazy [autoBind] finds and leaves is what [bindLazy]
    finds and leaves on the store the filtering left. *)
Lemma autoBind_lazy n self a h v h' :
  opt_lazy (options_of a) = true →
  autoBind run n self a h = Ret v h' →
  is_Some (h !! self)
  ∧ ∃ h0, upd self [] h h0 ∧ length h0 = length h
          ∧ bindLazy n self (retained n h self a) h0 = Ret tt h'
          ∧ ∀ m d, lazy_descriptor n h self m = Ret d h →
                   lazy_descriptor n h0 self m = Ret d h0.
Proof.
  intros Hlazy (_ & [all Hall] & h0 & _ & Hu0 & Hlen & Hb)%autoBind_Ret.
  rewrite Hlazy in Hb. split.
  { move: Hall. rewrite /getAllMethodNames. destruct (h !! self); [by eexists|done]. }
  exists h0. do 3 (split; [done|]). intros m d.
  by apply (lazy_descriptor_upd self []); [|apply not_elem_of_nil].
Qed.

Lemma autoBind_lazy_installed n self a h v h' m p :
  opt_lazy (options_of a) = true →
  autoBind run n self a h = Ret v h' →
  m ∈ retained n h self a →
  lazy_descriptor n h self m = Ret (Some p) h →
  is_function h (prop_value p) = true →
  ∃ g s, length h ≤ g
         ∧ own_prop h' self m = Some (Accessor (VObj g) s false true)
         ∧ h' !! g = Some (closure (LazyGetter (prop_value p) self m) []).
Proof.
  intros Hlazy Hr Hm Hd Hf.
  destruct (autoBind_lazy _ _ _ _ _ _ Hlazy Hr) as (_ & h0 & Hu0 & Hlen & Hb & Hld).
  rewrite -Hlen.
  eapply bindLazy_installed; [apply retained_NoDup|done|done|by apply Hld|].
  by eapply is_function_upd_true.
Qed.

End LazyRead.

(** C3 (as amended).  In lazy mode a retained name whose descriptor, the
    first one found from the immediate ancestor upwards, holds no callable
    is skipped: no accessor is installed, the instance has at that name the
    own property it had before, or none. *)
Theorem lazy_skips_non_callable run n h self a v h' m d :
  opt_lazy (options_of a) = true →
  autoBind run n self a h = Ret v h' →
  m ∈ retained n h self a →
  lazy_descriptor n h self m = Ret d h →
  (∀ p, d = Some p → is_function h (prop_value p) = false ∧ live h (prop_value p)) →
  own_prop h' self m = own_prop h self m.
Proof.
  intros Hlazy Hr Hm Hd Hnf.
  destruct (autoBind_lazy _ _ _ _ _ _ _ Hlazy Hr) as (Hs & h0 & Hu0 & _ & Hb & Hld).
  rewrite -(own_prop_upd self [] h h0 m Hu0 (not_elem_of_nil _) Hs).
  eapply bindLazy_skipped; [apply retained_NoDup|done|done|by apply Hld|].
  intros p Hp. destruct (Hnf p Hp) as [Hf Hlv]. split.
  - by rewrite (is_function_upd _ _ _ _ _ Hu0 Hlv).
  - by eapply live_upd.
Qed.

Lemma lazy_skips_non_callable_witness :
  own_prop world_getter_lazy 9 (KStr "getName") = own_prop world_getter 9 (KStr "getName").
Proof.
  apply (lazy_skips_non_callable run0 3 world_getter 9 (OOpts lazy_opts) (VObj 9)
           world_getter_lazy (KStr "getName") (Some (Accessor (VObj 8) VUndef false true))).
  - reflexivity.
  - reflexivity.
  - apply list_elem_of_further, list_elem_of_here.
  - reflexivity.
  - intros p [= <-]. split; [reflexivity|]. by intros l.
Defined.

(** C3, counterexample.  [Child.prototype] has a getter [getName] over the
    method [getName] of [Foo.prototype], and a method [hello].  Both names
    are retained.  For [getName] the descriptor found is the accessor, whose
    value is not callable: the lazy binding completes and leaves the
    instance without an own property [getName], no accessor was installed;
    [hello], whose descriptor holds a callable, did get one. *)
Lemma lazy_installs_anyway_counterexample :
  retained 3 world_getter 9 (OOpts lazy_opts) = [KStr "hello"; KStr "getName"]
  ∧ lazy_descriptor 3 world_getter 9 (KStr "getName")
    = Ret (Some (Accessor (VObj 8) VUndef false true)) world_getter
  ∧ is_function world_getter (prop_value (Accessor (VObj 8) VUndef false true)) = false
  ∧ ∃ h', autoBind run0 3 9 (OOpts lazy_opts) world_getter = Ret (VObj 9) h'
          ∧ own_prop h' 9 (KStr "getName") = None
          ∧ own_prop h' 9 (KStr "hello") = Some (Accessor (VObj 10) VUndef false true).
Proof.
  split; [reflexivity|]. split; [reflexivity|]. split; [reflexivity|].
  eexists. split; [reflexivity|]. split; reflexivity.
Qed.

(** C4 (as amended).  In lazy mode the callable that gets wrapped is the one
    found when [autoBind] ran, looking at the immediate ancestor first and
    then further up: the getter installed for a retained name closes over
    it, and the first read, on any later store that still has the accessor
    and its getter (whatever became of the ancestors' methods meanwhile)
    and where that callable has the built-in [bind], yields a new bound
    function of that callable with the instance as receiver, and leaves it
    as an own data property of the instance. *)
Theorem lazy_wraps_binding_time_callable run n h self a v h1 m p :
  opt_lazy (options_of a) = true →
  autoBind run n self a h = Ret v h1 →
  m ∈ retained n h self a →
  lazy_descriptor n h self m = Ret (Some p) h →
  is_function h (prop_value p) = true →
  ∃ g s, own_prop h1 self m = Some (Accessor (VObj g) s false true)
         ∧ h1 !! g = Some (closure (LazyGetter (prop_value p) self m) [])
         ∧ ∀ h2 k, own_prop h2 self m = own_prop h1 self m → h2 !! g = h1 !! g →
             has_builtin_bind k h2 (prop_value p) = true →
             ∃ h3, get run (S k) self m h2 = Ret (VObj (length h2)) h3
                   ∧ h3 !! length h2 = Some (bound_function k h2 (prop_value p) (VObj self))
                   ∧ wrapper_of h3 (length h2) (prop_value p) (VObj self)
                   ∧ own_prop h3 self m = Some (Data (VObj (length h2)) true false true).
Proof.
  intros Hlazy Hr Hm Hd Hf.
  destruct (autoBind_lazy_installed _ _ _ _ _ _ _ _ _ Hlazy Hr Hm Hd Hf)
    as (g & s & _ & Hown & Hg).
  exists g, s. split; [done|]. split; [done|]. intros h2 k Hown2 Hg2 Hb.
  rewrite -Hown2 in Hown. rewrite -Hg2 in Hg.
  destruct (lazy_getter_read run k self m h2 g s false _ (prop_value p) Hown Hg eq_refl Hb)
    as (h3 & ? & ? & ?).
  exists h3. split; [done|]. split; [done|]. split; [by eexists|done].
Qed.

Lemma lazy_wraps_binding_time_callable_witness :
  ∃ g s, own_prop world_lazy 6 (KStr "getName") = Some (Accessor (VObj g) s false true)
         ∧ world_lazy !! g = Some (closure (LazyGetter (prop_value (method 5)) 6 (KStr "getName")) [])
         ∧ ∀ h2 k, own_prop h2 6 (KStr "getName") = own_prop world_lazy 6 (KStr "getName") →
                   h2 !! g = world_lazy !! g →
                   has_builtin_bind k h2 (prop_value (method 5)) = true →
             ∃ h3, get run0 (S k) 6 (KStr "getName") h2 = Ret (VObj (length h2)) h3
                   ∧ h3 !! length h2
                     = Some (bound_function k h2 (prop_value (method 5)) (VObj 6))
                   ∧ wrapper_of h3 (length h2) (prop_value (method 5)) (VObj 6)
                   ∧ own_prop h3 6 (KStr "getName")
                     = Some (Data (VObj (length h2)) true false true).
Proof.
  apply (lazy_wraps_binding_time_callable run0 3 world 6 (OOpts lazy_opts) (VObj 6)
           world_lazy (KStr "getName") (method 5)).
  - reflexivity.
  - reflexivity.
  - apply list_elem_of_here.
  - reflexivity.
  - reflexivity.
Defined.

(** C4, counterexample.  After the lazy binding of [world] the method
    [Foo.prototype.getName] (function 5) is replaced by function 8, and then
    the name is read for the first time: the wrapper returned wraps
    function 5, the one present at binding time, and calling it runs the
    old method, not the replacement. *)
Lemma lazy_wraps_replacement_counterexample :
  autoBind run0 3 6 (OOpts lazy_opts) world = Ret (VObj 6) world_lazy
  ∧ own_prop world_lazy 3 (KStr "getName") = Some (method 5)
  ∧ own_prop world_replaced 3 (KStr "getName") = Some (method 8)
  ∧ own_prop world_replaced 6 (KStr "getName") = own_prop world_lazy 6 (KStr "getName")
  ∧ ∃ h3, get run0 3 6 (KStr "getName") world_replaced = Ret (VObj 9) h3
          ∧ h3 !! 9 = Some (bound_function 2 world_replaced (VObj 5) (VObj 6))
          ∧ call run0 3 (VObj 9) VUndef [] h3 = Ret (VStr "foo") h3
          ∧ call run0 3 (VObj 8) (VObj 6) [] h3 = Ret (VStr "replaced") h3.
Proof.
  split; [reflexivity|]. split; [reflexivity|]. split; [reflexivity|].
  split; [reflexivity|]. eexists. split; [reflexivity|]. repeat split; reflexivity.
Qed.




(** ** The React-aware variant *)

Lemma react_excluded all o h r h' s :
  s ∈ REACT_LIFECYCLE_METHODS →
  filterMethods all (react_options o) h = Ret r h' → KStr s ∉ r.
Proof.
  intros Hs Hf (_ & _ & _ & He)%(filterMethods_elem _ _ _ _ _ _ Hf).
  apply (He _ eq_refl). apply elem_of_app. right.
  apply (list_elem_of_fmap_2 VStr), Hs.
Qed.

Lemma react_not_retained n h self opts s :
  s ∈ REACT_LIFECYCLE_METHODS →
  KStr s ∉ retained n h self (OOpts (react_options opts)).
Proof.
  intros Hs. rewrite /retained /filtering.
  destruct (getAllMethodNames n h self) as [all|]; [|apply not_elem_of_nil].
  destruct (filterMethods _ _ _) as [r h'| |] eqn:Hf; try apply not_elem_of_nil.
  by eapply react_excluded.
Qed.

(** C7 (as amended).  For every instance and every options the caller
    supplies, whether they exclude the lifecycle names, say nothing of them
    or include them explicitly, [autoBindReact] is [autoBind] on the
    options with the lifecycle list merged into [exclude]; no lifecycle
    name is among the names the filtering returns, and none is retained for
    binding; and when the call has completed, in lazy mode, or in eager
    mode when reading each retained name on the instance runs no getter and
    each callable value read has the built-in [bind] and does not have the
    instance on its prototype chain, the instance has at each lifecycle
    name the own property it had before, or none. *)
Theorem react_never_binds_lifecycle run s :
  s ∈ REACT_LIFECYCLE_METHODS →
  (∀ all o h r h', filterMethods all (react_options o) h = Ret r h' → KStr s ∉ r)
  ∧ (∀ n self opts h,
       autoBindReact run n self opts h
       = autoBind run n self (OOpts (react_options (default no_options opts))) h
       ∧ KStr s ∉ retained n h self (OOpts (react_options (default no_options opts))))
  ∧ (∀ n self opts h v h',
       autoBindReact run n self opts h = Ret v h' →
       (opt_lazy (default no_options opts) = false →
        ∀ m, m ∈ retained n h self (OOpts (react_options (default no_options opts))) →
             quiet n h self m = true) →
       own_prop h' self (KStr s) = own_prop h self (KStr s)).
Proof.
  intros Hs. split; [intros; by eapply react_excluded|].
  split; [intros; split; [done|by apply react_not_retained]|].
  intros n self opts h v h' Hr Hpl. rewrite /autoBindReact in Hr.
  pose proof (autoBind_upd _ _ _ _ _ _ _ Hr Hpl) as Hu.
  destruct (autoBind_Ret _ _ _ _ _ _ _ Hr) as (_ & [all Hall] & _).
  eapply own_prop_upd; [exact Hu|by apply react_not_retained|].
  move: Hall. rewrite /getAllMethodNames. destruct (h !! self); [by eexists|done].
Qed.

Lemma react_never_binds_lifecycle_witness :
  autoBindReact run0 3 6 (Some include_render) world_react = Ret (VObj 6) world_react_bound
  ∧ own_prop world_react_bound 6 (KStr "render") = own_prop world_react 6 (KStr "render").
Proof.
  split; [reflexivity|].
  destruct (react_never_binds_lifecycle run0 "render") as (_ & _ & H).
  - apply list_elem_of_here.
  - apply (H 3 6 (Some include_render) world_react (VObj 6)).
    + reflexivity.
    + intros _. apply forallb_elem. reflexivity.
Defined.

(** C7, counterexample.  [Child.prototype] has an accessor [getName] whose
    getter is the one [bound] returns for the key [render]
    ([Object.defineProperty(Child.prototype, 'getName',
    bound(Child.prototype, 'render', descriptor))]).  The name [getName] is
    discovered on [Foo.prototype] and retained; the eager [autoBindReact]
    reads it on the instance, which runs that getter: it binds the method
    to the instance and defines the result as the own property [render] of
    the instance.  The call completes, and the instance, which had no own
    property [render], has a bound function there. *)
Lemma react_binds_lifecycle_counterexample :
  "render" ∈ REACT_LIFECYCLE_METHODS
  ∧ retained 3 world_react_getter 9 (OOpts (react_options no_options)) = [KStr "getName"]
  ∧ own_prop world_react_getter 9 (KStr "render") = None
  ∧ ∃ h', autoBindReact run0 3 9 None world_react_getter = Ret (VObj 9) h'
          ∧ own_prop h' 9 (KStr "render") = Some (Data (VObj 10) true false true)
          ∧ h' !! 10 = Some (bound_function 2 world_react_getter (VObj 5) (VObj 9)).
Proof.
  split; [apply list_elem_of_here|]. split; [reflexivity|]. split; [reflexivity|].
  eexists. split; [reflexivity|]. split; reflexivity.
Qed.

(** ** Failure conditions *)

Lemma lazy_descriptor_total n h self all m :
  getAllMethodNames n h self = Some all → all ≠ [] →
  ∃ d, lazy_descriptor n h self m = Ret d h.
Proof.
  rewrite /getAllMethodNames /lazy_descriptor /findDescriptorInChain.
  destruct (h !! self) as [so|]; [|done].
  destruct (proto so) as [p|] eqn:Hp; [|by destruct n; intros [= <-]].
  intros Hw Hne.
  assert (Hpo : ∃ po, h !! p = Some po).
  { move: Hw. destruct n; simpl; case_bool_decide; try done; try (by intros [= <-]).
    destruct (h !! p); [by eexists|done]. }
  destruct Hpo as [po ->]. destruct (assoc m (props po)) as [d|]; [by eexists|].
  destruct (walk_descriptor_total n h (Some p) m _ _ Hw) as [r ->]. by eexists.
Qed.


Lemma filtering_stateless n h self a ms h0 :
  stateless (options_of a) → filtering n h self a = Ret ms h0 → h0 = h.
Proof.
  intros Hs. rewrite /filtering. destruct (getAllMethodNames n h self); [|done].
  rewrite filterMethods_stateless //. by intros [= _ <-].
Qed.




(** Another failure: the method of [world_bare] is callable and has no
    [bind]; the eager [autoBind] signals the [TypeError] of the call
    [val.bind(self)]. *)
Example eager_bind_missing :
  retained 3 world_bare 6 OUndef = [KStr "getName"]
  ∧ is_function world_bare (read_value 3 world_bare 6 (KStr "getName")) = true
  ∧ quiet 3 world_bare 6 (KStr "getName") = false
  ∧ autoBind run0 3 6 OUndef world_bare = Thr (TypeError "not a function") world_bare.
Proof. repeat split; reflexivity. Qed.

(** A [bind] of the user's: the method of [world_user_bind] has an own
    property [bind] that returns 1.  The eager [autoBind] calls it, with
    the method as receiver, and defines what it returns as the property of
    the instance: [instance.getName] is 1. *)
Example eager_bind_overridden :
  retained 3 world_user_bind 6 OUndef = [KStr "getName"]
  ∧ quiet 3 world_user_bind 6 (KStr "getName") = false
  ∧ ∃ h', autoBind run0 3 6 OUndef world_user_bind = Ret (VObj 6) h'
          ∧ own_prop h' 6 (KStr "getName") = Some (Data (VNum 1) true false true)
          ∧ length h' = length world_user_bind.
Proof.
  split; [reflexivity|]. split; [reflexivity|].
  eexists. split; [reflexivity|]. split; reflexivity.
Qed.

(** ** Binding twice *)

Lemma own_data_read n h self m v w e c :
  own_prop h self m = Some (Data v w e c) →
  plain_read (S n) h self m = true ∧ read_value (S n) h self m = v.
Proof.
  rewrite /own_prop /plain_read /read_value /=.
  destruct (h !! self) as [o|]; [|done]. by intros ->.
Qed.

Lemma elem_eager_bound n h self ms m :
  m ∈ eager_bound n h self ms ↔ m ∈ ms ∧ is_function h (read_value n h self m) = true.
Proof.
  rewrite /eager_bound.
  apply (elem_of_List_filter (λ m, is_function h (read_value n h self m))).
Qed.

Lemma filtering_stateless_Ret n h self a :
  stateless (options_of a) → is_Some (getAllMethodNames n h self) →
  filtering n h self a = Ret (retained n h self a) h.
Proof.
  intros Hs [all Hall]. rewrite /retained /filtering Hall.
  by rewrite filterMethods_stateless.
Qed.

Lemma retained_stateless_upd self K n h h' a :
  stateless (options_of a) → upd self K h h' → closed h →
  is_Some (getAllMethodNames n h self) →
  retained n h' self a = retained n h self a.
Proof.
  intros Hs Hu Hcl [all Hall]. rewrite /retained /filtering Hall.
  rewrite (getAllMethodNames_upd _ _ _ _ _ _ Hu Hcl Hall).
  by rewrite !filterMethods_stateless.
Qed.

Lemma bindable_function n h self l :
  bindable n h self (VObj l) = true → l ≠ self ∧ ∃ lo, h !! l = Some lo.
Proof.
  intros [Hoff Hb]%andb_true_iff. split.
  - move: Hoff. rewrite /off_chain.
    destruct (in_chain n h (Some l) self) as [[]|] eqn:Hin; try done. intros _.
    by eapply in_chain_start.
  - move: Hb. rewrite /has_builtin_bind /=. destruct (h !! l); [by eexists|done].
Qed.

(** A bound function of a callable that inherits the built-in [bind]
    inherits it too. *)
Lemma wrapper_bindable n h self l lo w wo a b :
  h !! l = Some lo → h !! w = Some wo → w ≠ self →
  proto wo = proto lo →
  props wo = [(KStr "length", Data a false false true);
              (KStr "name", Data b false false true)] →
  is_Some (callable wo) →
  own_prop h l (KStr "bind") = None →
  bindable n h self (VObj l) = true → bindable n h self (VObj w) = true.
Proof.
  intros Hl Hw Hne Hpr Hps [c Hc] Hown [Hoff Hb]%andb_true_iff.
  move: Hoff Hb. rewrite /bindable /off_chain /has_builtin_bind /plain_read /own_prop /=.
  rewrite Hl Hw Hc /=. rewrite /own_prop Hl in Hown.
  destruct n as [|n]; simpl; [by case_bool_decide|].
  rewrite Hl Hw Hown Hps Hpr /=.
  rewrite (bool_decide_eq_false_2 (w = self)) //.
  case_bool_decide; [done|].
  destruct (in_chain n h (proto lo) self) as [[]|]; try done. intros _.
  intros [[[_ Hbind]%andb_true_iff _]%andb_true_iff Hname]%andb_true_iff.
  rewrite Hbind /=. destruct n as [|n]; [done|]. by rewrite /= Hw Hps.
Qed.

(** C10 (as amended).  After a completed eager [autoBind] on a well-formed
    store, with a pattern that has no [g] and no [y] flag, or none, when
    reading each retained name on the instance runs no getter and each
    callable value read inherits the built-in [bind] (it has no own
    property [bind]) and does not have the instance on its prototype chain:
    a second [autoBind] with the same options completes, retains the same
    names, and for every name bound by the first call it reads the bound
    function [w1] the first call installed and installs a new bound
    function [w2] of [w1] with the instance as receiver; calling [w2]
    through any receiver is calling [w1], which is calling the original
    value with the instance as receiver: the second binding does not change
    the fixed receiver nor the result. *)
Theorem eager_rebinding run n h self a v h1 :
  opt_lazy (options_of a) = false →
  stateless (options_of a) →
  closed h →
  autoBind run n self a h = Ret v h1 →
  (∀ m, m ∈ retained n h self a → quiet n h self m = true) →
  (∀ m, m ∈ retained n h self a → inherits_bind h (read_value n h self m) = true) →
  ∃ h2, autoBind run n self a h1 = Ret (VObj self) h2
        ∧ retained n h1 self a = retained n h self a
        ∧ ∀ m, m ∈ retained n h self a →
               is_function h (read_value n h self m) = true →
            ∃ w1 w2,
              own_prop h1 self m = Some (Data (VObj w1) true false true)
              ∧ own_prop h2 self m = Some (Data (VObj w2) true false true)
              ∧ w1 < w2
              ∧ wrapper_of h1 w1 (read_value n h self m) (VObj self)
              ∧ h2 !! w2 = Some (bound_function n h1 (VObj w1) (VObj self))
              ∧ h2 !! w1 = h1 !! w1
              ∧ ∀ h'' k r args,
                  h'' !! w1 = h1 !! w1 → h'' !! w2 = h2 !! w2 →
                  call run (S (S k)) (VObj w2) r args h''
                  = call run k (read_value n h self m) (VObj self) args h''
                  ∧ call run (S k) (VObj w1) r args h''
                    = call run k (read_value n h self m) (VObj self) args h''.
Proof.
  intros Hlazy Hstl Hcl Hr Hq Hinh.
  destruct (autoBind_Ret _ _ _ _ _ _ _ Hr) as (-> & Hall & h0 & Hf & _ & _ & Hb1).
  apply (filtering_stateless _ _ _ _ _ _ Hstl) in Hf as ->.
  rewrite Hlazy in Hb1. set (ms := retained n h self a) in *.
  assert (Hnd : NoDup ms) by apply retained_NoDup.
  pose proof (bindEager_upd_bound _ _ _ _ _ _ Hnd Hq Hb1) as Hu1.
  assert (Hret : retained n h1 self a = ms) by (by eapply retained_stateless_upd).
  assert (Hall1 : is_Some (getAllMethodNames n h1 self)).
  { destruct Hall as [all Hall]. exists all. by eapply getAllMethodNames_upd. }
  assert (Hself : ∃ so, h !! self = Some so).
  { destruct Hall as [all Hall]. move: Hall. rewrite /getAllMethodNames.
    destruct (h !! self); [by eexists|done]. }
  destruct Hself as [so Hso].
  assert (Hlt : self < length h) by (by eapply lookup_lt_Some).
  (* the state of every retained name after the first call *)
  assert (Hstate : ∀ m, m ∈ ms →
            quiet n h1 self m = true
            ∧ (is_function h1 (read_value n h1 self m) = true → definable h1 self m = true)
            ∧ (is_function h (read_value n h self m) = true →
               ∃ w1, length h ≤ w1
                     ∧ own_prop h1 self m = Some (Data (VObj w1) true false true)
                     ∧ h1 !! w1 = Some (bound_function n h (read_value n h self m) (VObj self))
                     ∧ read_value n h1 self m = VObj w1)).
  { intros m Hm. destruct (is_function h (read_value n h self m)) eqn:Hf.
    - destruct (bindEager_bound _ _ _ _ _ _ _ Hnd Hq Hb1 Hm Hf) as (w1 & Hw1 & Hown & Hobj).
      pose proof (Hq m Hm) as Hqm. apply andb_true_iff in Hqm as [Hpm Hsm].
      destruct n as [|n']; [done|].
      destruct (own_data_read n' _ _ _ _ _ _ _ Hown) as [Hp1 Hv1].
      split; [|split].
      + rewrite /quiet Hp1 Hv1 /= Hobj /=.
        specialize (Hinh m Hm).
        destruct (read_value (S n') h self m) as [| | | | | |l] eqn:Hv; try done.
        pose proof (settled_bindable _ _ _ _ Hsm Hf) as Hbl.
        destruct (bindable_function _ _ _ _ Hbl) as (Hne & lo & Hl).
        move: Hinh. rewrite /= /own_prop Hl. intros Hinh.
        destruct (upd_other_props _ _ _ _ _ _ Hu1 Hne Hl) as (lo' & Hl' & (Hpr' & _) & Hps').
        eapply (wrapper_bindable (S n') h1 self l lo' w1); [done|done|lia| | |by eexists| |].
        * by rewrite /= Hl.
        * done.
        * rewrite /own_prop Hl' Hps'. by destruct (assoc (KStr "bind") (props lo)).
        * by apply (bindable_upd self (eager_bound (S n') h self ms) h).
      + intros _. move: Hown. rewrite /own_prop /definable.
        destruct (h1 !! self) as [so1|]; [|done]. by intros ->.
      + intros _. by exists w1.
    - assert (Hk : m ∉ eager_bound n h self ms).
      { rewrite elem_eager_bound. intros [_ Hf']. by rewrite Hf in Hf'. }
      destruct (quiet_upd _ _ _ _ _ _ Hu1 Hk (Hq m Hm)) as [Hq1 Hv1].
      split; [done|]. rewrite Hv1. split; [|done].
      rewrite (quiet_function _ _ _ _ _ _ Hu1 (Hq m Hm)). by rewrite Hf. }
  destruct (bindEager_total run n self ms h1 Hnd) as [h2 Hb2].
  { intros m Hm. by apply Hstate. }
  { intros m Hm. by apply Hstate. }
  exists h2. split; [|split; [done|]].
  { rewrite autoBind_unfold (filtering_stateless_Ret _ _ _ _ Hstl Hall1) Hret.
    cbn [bindR]. by rewrite Hlazy Hb2. }
  intros m Hm Hf.
  destruct (Hstate m Hm) as (_ & _ & Hfirst).
  destruct (Hfirst Hf) as (w1 & Hw1 & Hown1 & Hobj1 & Hv1).
  assert (Hf1 : is_function h1 (read_value n h1 self m) = true).
  { by rewrite Hv1 /= Hobj1. }
  destruct (bindEager_bound run n self ms h1 h2 m Hnd) as (w2 & Hw2 & Hown2 & Hobj2);
    [intros; by apply Hstate|done|done|done|].
  rewrite Hv1 in Hobj2.
  assert (Hw1lt : w1 < length h1) by (by eapply lookup_lt_Some).
  assert (Hu2 : upd self ms h1 h2).
  { apply (bindEager_upd run n); [done| |done]. intros; by apply Hstate. }
  exists w1, w2. split; [done|]. split; [done|]. split; [lia|].
  split; [by eexists|]. split; [done|]. split.
  { rewrite Hobj1. eapply upd_other; [exact Hu2|lia|done|done]. }
  intros h'' k r args Hw1' Hw2'.
  assert (E1 : ∀ r', call run (S k) (VObj w1) r' args h''
                     = call run k (read_value n h self m) (VObj self) args h'').
  { intros r'. eapply call_bound; [by rewrite Hw1' Hobj1|done]. }
  split; [|done]. rewrite -(E1 (VObj self)).
  eapply call_bound; [by rewrite Hw2' Hobj2|done].
Qed.

Lemma eager_rebinding_witness :
  ∃ h2, autoBind run0 3 6 OUndef world_eager = Ret (VObj 6) h2
        ∧ retained 3 world_eager 6 OUndef = retained 3 world 6 OUndef
        ∧ ∀ m, m ∈ retained 3 world 6 OUndef →
               is_function world (read_value 3 world 6 m) = true →
            ∃ w1 w2,
              own_prop world_eager 6 m = Some (Data (VObj w1) true false true)
              ∧ own_prop h2 6 m = Some (Data (VObj w2) true false true)
              ∧ w1 < w2
              ∧ wrapper_of world_eager w1 (read_value 3 world 6 m) (VObj 6)
              ∧ h2 !! w2 = Some (bound_function 3 world_eager (VObj w1) (VObj 6))
              ∧ h2 !! w1 = world_eager !! w1
              ∧ ∀ h'' k r args,
                  h'' !! w1 = world_eager !! w1 → h'' !! w2 = h2 !! w2 →
                  call run0 (S (S k)) (VObj w2) r args h''
                  = call run0 k (read_value 3 world 6 m) (VObj 6) args h''
                  ∧ call run0 (S k) (VObj w1) r args h''
                    = call run0 k (read_value 3 world 6 m) (VObj 6) args h''.
Proof.
  apply (eager_rebinding run0 3 world 6 OUndef (VObj 6) world_eager).
  - reflexivity.
  - by intros pat.
  - apply closedb_closed. reflexivity.
  - reflexivity.
  - apply forallb_elem. reflexivity.
  - apply forallb_elem. reflexivity.
Defined.

(** C10, counterexample.  The three methods [handleA], [handleB] and
    [handleC] match the expression [/^handle/g].  The first
    [autoBind(instance, { pattern })] binds [handleA] and [handleC], and
    leaves the [lastIndex] of the expression at 6.  The second call with
    the same options retains [handleB] alone: it does not rewrap the
    wrappers of the first call, which stay as they were, and it binds
    [handleB], which the first call had left unbound.  The difference can
    be observed: [instance.handleB], called without receiver, throws after
    one application and answers after two. *)
Lemma eager_rebinding_counterexample :
  retained 3 world_rx 6 (OOpts pattern_opts) = [KStr "handleA"; KStr "handleC"]
  ∧ autoBind run0 3 6 (OOpts pattern_opts) world_rx = Ret (VObj 6) world_rx_bound
  ∧ retained 3 world_rx_bound 6 (OOpts pattern_opts) = [KStr "handleB"]
  ∧ own_prop world_rx_bound 6 (KStr "handleB") = None
  ∧ get run0 3 6 (KStr "handleB") world_rx_bound = Ret (VObj 5) world_rx_bound
  ∧ call run0 3 (VObj 5) VUndef [] world_rx_bound
    = Thr (TypeError "Cannot read properties of undefined") world_rx_bound
  ∧ ∃ h2, autoBind run0 3 6 (OOpts pattern_opts) world_rx_bound = Ret (VObj 6) h2
          ∧ own_prop h2 6 (KStr "handleA") = own_prop world_rx_bound 6 (KStr "handleA")
          ∧ own_prop h2 6 (KStr "handleC") = own_prop world_rx_bound 6 (KStr "handleC")
          ∧ own_prop h2 6 (KStr "handleB") = Some (Data (VObj 11) true false true)
          ∧ get run0 3 6 (KStr "handleB") h2 = Ret (VObj 11) h2
          ∧ call run0 3 (VObj 11) VUndef [] h2 = Ret (VStr "foo") h2.
Proof.
  split; [reflexivity|]. split; [reflexivity|]. split; [reflexivity|].
  split; [reflexivity|]. split; [reflexivity|]. split; [reflexivity|].
  eexists. split; [reflexivity|]. repeat split; reflexivity.
Qed.

(** The two applications on [world], evaluated: the second call wraps the
    wrapper 7 of the first in the wrapper 8, and both wrappers, called
    without receiver, answer as [instance.getName()] does. *)
Example eager_rebinding_world :
  autoBind run0 3 6 OUndef world = Ret (VObj 6) world_eager
  ∧ autoBind run0 3 6 OUndef world_eager = Ret (VObj 6) world_eager_twice
  ∧ call run0 3 (VObj 7) VUndef [] world_eager_twice = Ret (VStr "foo") world_eager_twice
  ∧ call run0 3 (VObj 8) VUndef [] world_eager_twice = Ret (VStr "foo") world_eager_twice
  ∧ call run0 3 (VObj 5) (VObj 6) [] world_eager_twice = Ret (VStr "foo") world_eager_twice.
Proof. repeat split; reflexivity. Qed.

(** Why the callable must inherit [bind]: the method of [world_own_bind]
    has no prototype and an own property [bind] holding
    [Function.prototype.bind].  The first [autoBind] completes; the bound
    function it installs has no prototype either, and no property [bind]:
    the second [autoBind] signals a [TypeError]. *)
Example eager_rebinding_own_bind :
  quiet 3 world_own_bind 6 (KStr "getName") = true
  ∧ inherits_bind world_own_bind (read_value 3 world_own_bind 6 (KStr "getName")) = false
  ∧ ∃ h1, autoBind run0 3 6 OUndef world_own_bind = Ret (VObj 6) h1
          ∧ autoBind run0 3 6 OUndef h1 = Thr (TypeError "not a function") h1.
Proof.
  split; [reflexivity|]. split; [reflexivity|]. eexists. split; reflexivity.
Qed.

(** ** The class decorator *)

Lemma ext_upd self h h' :
  (∀ l o, h !! l = Some o → h' !! l = Some o) → upd self [] h h'.
Proof. intros He l o Hl. exists o. rewrite /same_shape. by rewrite (He _ _ Hl). Qed.

Lemma redefinable_same d : redefinable d (to_pdesc d) = true.
Proof.
  destruct d as [v w e c|g s e c]; rewrite /redefinable /=; destruct c; try done.
  - destruct w, e; simpl; repeat case_bool_decide; simpl; congruence.
  - destruct e; simpl; repeat case_bool_decide; simpl; congruence.
Qed.

Lemma apply_desc_same d : apply_desc d (to_pdesc d) = d.
Proof. by destruct d. Qed.

Lemma new_prop_to_pdesc d : new_prop (to_pdesc d) = d.
Proof. by destruct d. Qed.

Lemma prop_ok_upd self K h h' p : upd self K h h' → prop_ok h p = true → prop_ok h' p = true.
Proof.
  intros Hu. destruct p as [|g s e c]; [done|]. simpl.
  intros [Hg Hs]%andb_true_iff. apply andb_true_iff. split.
  - destruct g; try done. by eapply is_function_upd_true.
  - destruct s; try done. by eapply is_function_upd_true.
Qed.

(** Copying a descriptor of the original onto the wrapper. *)
Lemma defineProperty_copy w k d h wo :
  h !! w = Some wo → prop_ok h d = true →
  (assoc k (props wo) = None ∧ extensible wo = true ∨ assoc k (props wo) = Some d) →
  defineProperty w k (to_pdesc d) h = Ret tt (set_props w (assoc_set k d (props wo)) h).
Proof.
  intros Hw Hok Hcur. rewrite /defineProperty Hw.
  assert (E1 : is_accessor_desc (to_pdesc d) && is_data_desc (to_pdesc d) = false)
    by (by destruct d).
  assert (E2 : accessor_ok h (d_get (to_pdesc d)) && accessor_ok h (d_set (to_pdesc d)) = true)
    by (by destruct d).
  rewrite E1 E2 /=. destruct Hcur as [[Ha Hx]|Ha]; rewrite Ha.
  - by rewrite Hx new_prop_to_pdesc.
  - by rewrite redefinable_same apply_desc_same.
Qed.

Lemma copy_statics_spec c w co keys :
  c ≠ w →
  ∀ h wo,
    h !! c = Some co → h !! w = Some wo → extensible wo = true →
    (∀ k p, assoc k (props co) = Some p → prop_ok h p = true) →
    (∀ s p, s ∉ RESERVED_STATICS →
            assoc (KStr s) (props wo) = Some p → assoc (KStr s) (props co) = Some p) →
    ∃ h' wo',
      copy_statics c w keys h = Ret tt h'
      ∧ h' !! w = Some wo' ∧ same_shape wo wo'
      ∧ (∀ l o, l ≠ w → h !! l = Some o → h' !! l = Some o)
      ∧ (∀ k, (∀ s, k = KStr s → s ∈ RESERVED_STATICS ∨ s ∉ keys) →
              assoc k (props wo') = assoc k (props wo))
      ∧ (∀ s p, s ∈ keys → s ∉ RESERVED_STATICS →
                assoc (KStr s) (props co) = Some p → assoc (KStr s) (props wo') = Some p).
Proof.
  intros Hne. induction keys as [|s keys IH]; intros h wo Hc Hw Hext Hok Hinv.
  { exists h, wo. split; [done|]. split; [done|]. split; [done|]. split; [done|].
    split; [done|]. intros s p Hs. by apply elem_of_nil in Hs. }
  simpl. case_bool_decide as Hres.
  { destruct (IH h wo) as (h' & wo' & Hr & Hw' & Hsh & Hoth & Hkeep & Hcopy); try done.
    exists h', wo'. split; [done|]. split; [done|]. split; [done|]. split; [done|]. split.
    - intros k Hk. apply Hkeep. intros s' ->. destruct (Hk s' eq_refl) as [?|Hn]; [by left|].
      right. by apply not_elem_of_cons in Hn as [_ ?].
    - intros s' p [->|Hs']%elem_of_cons Hnr; [done|by apply Hcopy]. }
  rewrite /own_prop Hc.
  destruct (assoc (KStr s) (props co)) as [d|] eqn:Hd.
  - assert (Hdef : defineProperty w (KStr s) (to_pdesc d) h
                   = Ret tt (set_props w (assoc_set (KStr s) d (props wo)) h)).
    { apply defineProperty_copy; [done|by eapply Hok|].
      destruct (assoc (KStr s) (props wo)) as [cur|] eqn:Hcur; [right|by left].
      f_equal. pose proof (Hinv _ _ Hres Hcur) as Hcur'. rewrite Hd in Hcur'. by injection Hcur'. }
    rewrite Hdef /=.
    set (h1 := set_props w (assoc_set (KStr s) d (props wo)) h).
    set (wo1 := {| proto := proto wo; props := assoc_set (KStr s) d (props wo);
                   extensible := extensible wo; callable := callable wo;
               lastIndex := lastIndex wo |}).
    assert (Hw1 : h1 !! w = Some wo1) by (by apply set_props_lookup).
    assert (Hu1 : upd w [KStr s] h h1) by (by apply upd_set_props).
    destruct (IH h1 wo1) as (h' & wo' & Hr & Hw' & Hsh & Hoth & Hkeep & Hcopy); try done.
    { by rewrite /h1 set_props_lookup_ne. }
    { intros k p Hk. eapply prop_ok_upd; [exact Hu1|by eapply Hok]. }
    { intros s' p Hnr. simpl. destruct (decide (s' = s)) as [->|Hns].
      - rewrite assoc_set_eq. by intros [= <-].
      - rewrite assoc_set_ne; [|by intros [=]]. by apply Hinv. }
    exists h', wo'. split; [done|]. split; [done|]. split.
    { destruct Hsh as (? & ? & ?). rewrite /same_shape. by eauto. }
    split; [|split].
    + intros l o Hl Ho. apply Hoth; [done|]. by rewrite /h1 set_props_lookup_ne.
    + intros k Hk. rewrite Hkeep.
      * simpl. apply assoc_set_ne. intros <-.
        destruct (Hk s eq_refl) as [?|Hn]; [done|].
        apply Hn, list_elem_of_here.
      * intros s' ->. destruct (Hk s' eq_refl) as [?|Hn]; [by left|].
        right. by apply not_elem_of_cons in Hn as [_ ?].
    + intros s' p Hs' Hnr Hp. destruct (decide (s' ∈ keys)) as [Hin|Hnin]; [by apply Hcopy|].
      apply elem_of_cons in Hs' as [->|?]; [|done].
      rewrite Hkeep; [|by intros s' [= <-]; right].
      simpl. rewrite assoc_set_eq. by rewrite -Hd -Hp.
  - destruct (IH h wo) as (h' & wo' & Hr & Hw' & Hsh & Hoth & Hkeep & Hcopy); try done.
    exists h', wo'. split; [done|]. split; [done|]. split; [done|]. split; [done|]. split.
    + intros k Hk. apply Hkeep. intros s' ->. destruct (Hk s' eq_refl) as [?|Hn]; [by left|].
      right. by apply not_elem_of_cons in Hn as [_ ?].
    + intros s' p [->|Hs']%elem_of_cons Hnr Hp; [by rewrite Hd in Hp|by apply Hcopy].
Qed.

Lemma own_names_elem co s p : assoc (KStr s) (props co) = Some p → s ∈ own_names co.
Proof.
  rewrite /own_names. induction (props co) as [|[k' p'] ps IH]; simpl; [done|].
  destruct (decide (k' = KStr s)) as [->|Hne].
  - intros _. apply list_elem_of_here.
  - intros Ha. destruct k'; simpl; [apply list_elem_of_further|]; by apply IH.
Qed.

Section BoundClass.

Context (run : nat → invocation → heap → res value).




End BoundClass.

Lemma props_ok_check h ps :
  forallb (λ kp, prop_ok h (snd kp)) ps = true →
  ∀ k p, assoc k ps = Some p → prop_ok h p = true.
Proof.
  intros Hf k p Hk. apply assoc_elem in Hk.
  by apply (forallb_elem _ _ Hf (k, p)).
Qed.



(** The wrapper of [Foo] on [world], evaluated: [new Wrapped()] is the
    object 10 that [new Foo()] made, it is an instance of [Foo], and its
    method [getName] is bound. *)
Example boundClass_world :
  ∃ h' h3,
    boundClass run0 3 4 world = Ret (VObj 7) h'
    ∧ own_prop h' 7 (KStr "name") = Some (Data (VStr "Foo") false false true)
    ∧ construct run0 3 (VObj 7) [] h' = Ret (VObj 10) h3
    ∧ instanceof run0 3 10 4 h3 = Ret true h3
    ∧ own_prop h3 10 (KStr "getName") = Some (Data (VObj 11) true false true)
    ∧ call run0 3 (VObj 11) VUndef [] h3 = Ret (VStr "foo") h3.
Proof. do 2 eexists. repeat split; reflexivity. Qed.


(** * Further properties of the module *)

(** ** What [getAllMethodNames] discovers *)

Lemma elem_add ms k x : x ∈ add ms k ↔ x ∈ ms ∨ x = k.
Proof.
  rewrite /add. case_bool_decide as Hk.
  - split; [by left|]. by intros [?| ->].
  - rewrite elem_of_app list_elem_of_singleton. done.
Qed.

Lemma elem_foldl_add {B} (test : B → bool) (inj : B → key) l a x :
  x ∈ foldl (λ ms b, if test b then add ms (inj b) else ms) a l
  ↔ x ∈ a ∨ ∃ b, b ∈ l ∧ test b = true ∧ x = inj b.
Proof.
  revert a. induction l as [|b l IH]; intros a; simpl.
  - split; [by left|]. intros [?|(b & Hb & _)]; [done|]. by apply elem_of_nil in Hb.
  - rewrite IH. destruct (test b) eqn:Hb.
    + rewrite elem_add. split.
      * intros [[?| ->]|(b' & ? & ? & ?)]; [by left| |].
        -- right. exists b. split; [apply list_elem_of_here|done].
        -- right. exists b'. split; [by apply list_elem_of_further|done].
      * intros [?|(b' & [->|?]%elem_of_cons & ? & ->)]; [by left; left| |].
        -- left. by right.
        -- right. by exists b'.
    + split.
      * intros [?|(b' & ? & ? & ?)]; [by left|].
        right. exists b'. split; [by apply list_elem_of_further|done].
      * intros [?|(b' & [->|?]%elem_of_cons & Ht & ->)]; [by left| |].
        -- by rewrite Hb in Ht.
        -- right. by exists b'.
Qed.

Lemma own_symbols_elem o s p : assoc (KSym s) (props o) = Some p → s ∈ own_symbols o.
Proof.
  rewrite /own_symbols. induction (props o) as [|[k' p'] ps IH]; simpl; [done|].
  destruct (decide (k' = KSym s)) as [->|Hne].
  - intros _. apply list_elem_of_here.
  - intros Ha. destruct k'; simpl; [|apply list_elem_of_further]; by apply IH.
Qed.

(** The names one level adds to the set. *)
Lemma elem_scan_level h p o acc m :
  h !! p = Some o →
  m ∈ scan_level h p o acc
  ↔ (m ∈ acc ∨ (m ≠ KStr "constructor" ∧ has_method h p m = true)).
Proof.
  intros Hp. rewrite /scan_level.
  rewrite (elem_foldl_add (λ sym, has_method h p (KSym sym)) KSym).
  rewrite (foldl_ext_eq _
             (λ ms key, if negb (bool_decide (key = "constructor"))
                           && has_method h p (KStr key)
                        then add ms (KStr key) else ms));
    [|by intros a b; case_bool_decide].
  rewrite (elem_foldl_add (λ key, negb (bool_decide (key = "constructor"))
                                  && has_method h p (KStr key)) KStr).
  split.
  - intros [[?|(s & _ & [Hc Hm]%andb_true_iff & ->)]|(s & _ & Hm & ->)]; [by left| |].
    + right. split; [|done]. intros [= ->]. by rewrite bool_decide_eq_true_2 in Hc.
    + right. by split.
  - intros [?|[Hc Hm]]; [by left; left|].
    assert (Ha : is_Some (assoc m (props o))).
    { move: Hm. rewrite /has_method /own_prop Hp. destruct (assoc m (props o)); [by eexists|done]. }
    destruct Ha as [d Ha]. destruct m as [s|s].
    + left. right. exists s. split; [by eapply own_names_elem|]. split; [|done].
      apply andb_true_iff. split; [|done]. apply negb_true_iff, bool_decide_eq_false_2.
      by intros ->.
    + right. exists s. split; [by eapply own_symbols_elem|done].
Qed.

Lemma elem_walk_methods n h pr acc r :
  walk_methods n h pr acc = Some r →
  ∃ ls, chain n h pr = Some ls
        ∧ (ObjectPrototype ∉ ls)
        ∧ ∀ m, m ∈ r ↔ (m ∈ acc ∨ (m ≠ KStr "constructor"
                                    ∧ ∃ p, p ∈ ls ∧ has_method h p m = true)).
Proof.
  revert pr acc. induction n as [|n IH]; intros [p|] acc; simpl;
    try case_bool_decide; intros Hw; simplify_eq; try done.
  all: try (exists []; split; [done|]; split; [apply not_elem_of_nil|]; intros m;
            split; [by left|]; intros [?|(_ & p' & Hp' & _)];
            [done|by apply elem_of_nil in Hp']).
  destruct (h !! p) as [o|] eqn:Hp; [|done].
  destruct (IH _ _ Hw) as (ls & -> & Hnot & Hchar).
  exists (p :: ls). split; [done|]. split.
  { apply not_elem_of_cons. split; [done|done]. }
  intros m. rewrite Hchar (elem_scan_level _ _ _ _ _ Hp). split.
  - intros [[?|[? ?]]|(? & p' & ? & ?)]; [by left| |].
    + right. split; [done|]. exists p. split; [apply list_elem_of_here|done].
    + right. split; [done|]. exists p'. split; [by apply list_elem_of_further|done].
  - intros [?|(? & p' & [->|?]%elem_of_cons & ?)]; [by left; left| |].
    + left. by right.
    + right. split; [done|]. by exists p'.
Qed.

(** X1.  [getAllMethodNames] returns, without duplicates, exactly the names
    other than ['constructor'] that some ancestor of the instance, below
    [Object.prototype], holds as an own data property with a callable value.
    The instance itself and [Object.prototype] are not among the levels it
    looks at. *)
Theorem discovery_characterisation n h self so all :
  h !! self = Some so →
  getAllMethodNames n h self = Some all →
  ∃ ls, chain n h (proto so) = Some ls
        ∧ (self ∉ ls) ∧ (ObjectPrototype ∉ ls)
        ∧ NoDup all
        ∧ ∀ m, m ∈ all ↔ (m ≠ KStr "constructor"
                          ∧ ∃ p, p ∈ ls ∧ has_method h p m = true).
Proof.
  intros Hs Hall. pose proof (getAllMethodNames_NoDup _ _ _ _ Hall) as Hnd.
  move: Hall. rewrite /getAllMethodNames Hs. intros Hw.
  destruct (elem_walk_methods _ _ _ _ _ Hw) as (ls & Hc & Hnot & Hchar).
  exists ls. split; [done|]. split; [by eapply chain_notin|]. split; [done|].
  split; [done|]. intros m. rewrite Hchar. split.
  - intros [Hm|?]; [by apply elem_of_nil in Hm|done].
  - by right.
Qed.

Lemma discovery_characterisation_witness :
  ∃ ls, chain 3 world (Some 3) = Some ls
        ∧ (6 ∉ ls) ∧ (ObjectPrototype ∉ ls)
        ∧ NoDup [KStr "getName"]
        ∧ ∀ m, m ∈ [KStr "getName"] ↔ (m ≠ KStr "constructor"
                          ∧ ∃ p, p ∈ ls ∧ has_method world p m = true).
Proof.
  apply (discovery_characterisation 3 world 6
           (obj (Some 3) [(KStr "name", field (VStr "foo"))]) [KStr "getName"]).
  - reflexivity.
  - reflexivity.
Defined.

(** X2.  An instance whose prototype is [null] or [Object.prototype] has no
    method to bind: [autoBind], in either mode and with any options,
    returns it and leaves the store as it is. *)
Theorem autoBind_plain_object run n self a h so :
  h !! self = Some so →
  proto so = None ∨ proto so = Some ObjectPrototype →
  getAllMethodNames n h self = Some []
  ∧ autoBind run n self a h = Ret (VObj self) h.
Proof.
  intros Hs Hp.
  assert (Hall : getAllMethodNames n h self = Some []).
  { rewrite /getAllMethodNames Hs. destruct Hp as [-> | ->]; by destruct n. }
  split; [done|]. rewrite autoBind_unfold /filtering Hall.
  assert (E : filterMethods [] (options_of a) h = Ret [] h).
  { rewrite /filterMethods /=.
    by destruct (opt_include _), (opt_exclude _), (opt_pattern _). }
  rewrite E /=. by destruct (opt_lazy _).
Qed.

Lemma autoBind_plain_object_witness :
  getAllMethodNames 0 world 3 = Some []
  ∧ autoBind run0 0 3 (OOpts lazy_opts) world = Ret (VObj 3) world.
Proof.
  apply (autoBind_plain_object run0 0 3 (OOpts lazy_opts) world
           (obj (Some 0) [(KStr "constructor", method 4); (KStr "getName", method 5)])).
  - reflexivity.
  - right. reflexivity.
Defined.

(** ** The descriptor of a discovered name *)

Lemma walk_descriptor_found n h pr ls p k d0 :
  chain n h pr = Some ls → p ∈ ls → own_prop h p k = Some d0 →
  ∃ d, walk_descriptor n h pr k = Some (Some d).
Proof.
  revert pr ls. induction n as [|n IH]; intros [q|] ls; simpl;
    try case_bool_decide; intros Hc Hp Hown; simplify_eq;
    try (by apply elem_of_nil in Hp).
  destruct (h !! q) as [o|] eqn:Hq; [|done].
  destruct (chain n h (proto o)) as [ls'|] eqn:Hc'; simplify_eq/=.
  destruct (assoc k (props o)) as [d|] eqn:Ha; [by exists d|].
  apply elem_of_cons in Hp as [->|Hp].
  - move: Hown. by rewrite /own_prop Hq Ha.
  - by eapply IH.
Qed.

Lemma walk_descriptor_find_prop n h pr k d :
  walk_descriptor n h pr k = Some (Some d) → find_prop n h pr k = Some (Some d).
Proof.
  revert pr. induction n as [|n IH]; intros [q|]; simpl;
    try case_bool_decide; try done.
  destruct (h !! q) as [o|]; [|done].
  destruct (assoc k (props o)); [done|]. apply IH.
Qed.

Lemma find_prop_mono n n' h start k r :
  n ≤ n' → find_prop n h start k = Some r → find_prop n' h start k = Some r.
Proof.
  revert n' start. induction n as [|n IH]; intros [|n'] [l|] Hle; simpl; try done; try lia.
  destruct (h !! l) as [o|]; [|done].
  destruct (assoc k (props o)); [done|]. apply IH. lia.
Qed.

Lemma has_method_own h p k :
  has_method h p k = true →
  ∃ d, own_prop h p k = Some d ∧ is_function h (prop_value d) = true.
Proof. rewrite /has_method. destruct (own_prop h p k) as [d|]; [by exists d|done]. Qed.

(** A discovered name has a descriptor on the chain, and [bindLazy] finds
    it. *)
Lemma discovered_found n h self so all m :
  h !! self = Some so →
  getAllMethodNames n h self = Some all →
  m ∈ all →
  ∃ d, walk_descriptor n h (proto so) m = Some (Some d)
       ∧ lazy_descriptor n h self m = Ret (Some d) h.
Proof.
  intros Hs Hall Hm. move: (Hall). rewrite /getAllMethodNames Hs. intros Hw.
  destruct (elem_walk_methods _ _ _ _ _ Hw) as (ls & Hc & _ & Hchar).
  apply Hchar in Hm as [Hm|(_ & p & Hp & Hhas)]; [by apply elem_of_nil in Hm|].
  destruct (has_method_own _ _ _ Hhas) as (d0 & Hd0 & _).
  destruct (walk_descriptor_found _ _ _ _ _ _ _ Hc Hp Hd0) as [d Hd].
  exists d. split; [done|].
  rewrite /lazy_descriptor /findDescriptorInChain Hs.
  destruct (proto so) as [q|] eqn:Hq, n as [|n]; simpl in *;
    try case_bool_decide; simplify_eq; try (by apply elem_of_nil in Hp).
  destruct (h !! q) as [po|] eqn:Hpo; [|done].
  destruct (assoc m (props po)); [by simplify_eq|by rewrite Hd].
Qed.

(** X3.  Every name [getAllMethodNames] discovers has a descriptor on the
    chain of the instance below [Object.prototype]: [findDescriptorInChain]
    returns one, never [undefined]; it is the descriptor [bindLazy] works
    with; and unless the instance has an own property of that name, it is
    the property a read of the name on the instance finds. *)
Theorem discovered_descriptor n h self so all m :
  h !! self = Some so →
  getAllMethodNames n h self = Some all →
  m ∈ all →
  ∃ d, findDescriptorInChain n h self m = Some (Some d)
       ∧ lazy_descriptor n h self m = Ret (Some d) h
       ∧ (assoc m (props so) = None →
          find_prop (S n) h (Some self) m = Some (Some d)
          ∧ read_value (S n) h self m = prop_value d).
Proof.
  intros Hs Hall Hm.
  destruct (discovered_found _ _ _ _ _ _ Hs Hall Hm) as (d & Hd & Hl).
  exists d. split; [by rewrite /findDescriptorInChain Hs|]. split; [done|].
  intros Ha. apply walk_descriptor_find_prop in Hd.
  assert (Hf : find_prop (S n) h (Some self) m = Some (Some d)).
  { by rewrite /= Hs Ha. }
  split; [done|]. by rewrite /read_value Hf.
Qed.

Lemma discovered_descriptor_witness :
  ∃ d, findDescriptorInChain 3 world 6 (KStr "getName") = Some (Some d)
       ∧ lazy_descriptor 3 world 6 (KStr "getName") = Ret (Some d) world
       ∧ (assoc (KStr "getName") [(KStr "name", field (VStr "foo"))] = None →
          find_prop 4 world (Some 6) (KStr "getName") = Some (Some d)
          ∧ read_value 4 world 6 (KStr "getName") = prop_value d).
Proof.
  apply (discovered_descriptor 3 world 6
           (obj (Some 3) [(KStr "name", field (VStr "foo"))]) [KStr "getName"]).
  - reflexivity.
  - reflexivity.
  - apply list_elem_of_here.
Defined.

(** ** The two modes bind the same function *)

Lemma retained_set_lazy n h self b o :
  retained n h self (OOpts (set_lazy b o)) = retained n h self (OOpts o).
Proof. done. Qed.

Lemma retained_discovered n h self a m :
  m ∈ retained n h self a →
  ∃ all, getAllMethodNames n h self = Some all ∧ m ∈ all.
Proof.
  rewrite /retained /filtering. destruct (getAllMethodNames n h self) as [all|].
  - destruct (filterMethods _ _ _) as [r h'| |] eqn:Hf;
      try (intros Hm; by apply elem_of_nil in Hm).
    intros [Hm _]%(filterMethods_elem _ _ _ _ _ _ Hf). by exists all.
  - intros Hm. by apply elem_of_nil in Hm.
Qed.

Lemma quiet_bindable n h self m :
  quiet n h self m = true → is_function h (read_value n h self m) = true →
  bindable n h self (read_value n h self m) = true.
Proof.
  intros [_ Hs]%andb_true_iff Hf. by apply settled_bindable.
Qed.

(** What the lazy mode captures is what the eager mode reads, when the
    instance has no own property of the name. *)
Lemma lazy_descriptor_read n h self so m :
  h !! self = Some so →
  assoc m (props so) = None →
  m ∈ default [] (getAllMethodNames n h self) →
  plain_read n h self m = true →
  ∃ d, lazy_descriptor n h self m = Ret (Some d) h
       ∧ prop_value d = read_value n h self m.
Proof.
  intros Hs Ha Hm Hpl.
  destruct (getAllMethodNames n h self) as [all|] eqn:Hall;
    [|by apply elem_of_nil in Hm].
  destruct (discovered_found _ _ _ _ _ _ Hs Hall Hm) as (d & Hd & Hl).
  exists d. split; [done|].
  apply walk_descriptor_find_prop in Hd.
  assert (Hf : find_prop (S n) h (Some self) m = Some (Some d)).
  { by rewrite /= Hs Ha. }
  move: Hpl. rewrite /plain_read /read_value.
  destruct (find_prop n h (Some self) m) as [r|] eqn:Hr; [|done].
  apply (find_prop_mono _ (S n)) in Hr; [|lia].
  rewrite Hf in Hr. by simplify_eq.
Qed.

(** X4.  Eager and lazy binding agree on what they bind.  For a retained
    name that is no own property of the instance and whose read yields a
    callable [f] (reading each retained name on the instance running no
    getter, each callable value read having the built-in [bind] and not
    having the instance on its prototype chain), the eager mode leaves on
    the instance the bound function [f.bind(instance)], and the lazy mode
    leaves, after the first read of the name, a bound function of the same
    [f] with the same receiver, the same [length] and the same [name]. *)
Theorem modes_agree run n h self so o m v1 h1 v2 h2 :
  h !! self = Some so →
  assoc m (props so) = None →
  (∀ m', m' ∈ retained n h self (OOpts o) → quiet n h self m' = true) →
  autoBind run n self (OOpts (set_lazy false o)) h = Ret v1 h1 →
  autoBind run n self (OOpts (set_lazy true o)) h = Ret v2 h2 →
  m ∈ retained n h self (OOpts o) →
  is_function h (read_value n h self m) = true →
  ∃ w1 w2 h3,
    own_prop h1 self m = Some (Data (VObj w1) true false true)
    ∧ h1 !! w1 = Some (bound_function n h (read_value n h self m) (VObj self))
    ∧ get run (S n) self m h2 = Ret (VObj w2) h3
    ∧ own_prop h3 self m = Some (Data (VObj w2) true false true)
    ∧ h3 !! w2 = Some (bound_function n h (read_value n h self m) (VObj self)).
Proof.
  intros Hs Ha Hq He Hl Hm Hf.
  assert (Hu : upd self (retained n h self (OOpts (set_lazy true o))) h h2).
  { eapply autoBind_upd; [done|]. by intros [=]. }
  destruct (autoBind_eager_bound run n self (OOpts (set_lazy false o)) h v1 h1 m eq_refl He Hq Hm Hf)
    as (w1 & _ & Hw1 & Hb1).
  destruct (retained_discovered _ _ _ _ _ Hm) as (all & Hall & Hmall).
  destruct (lazy_descriptor_read n h self so m Hs Ha) as (d & Hd & Hv);
    [by rewrite Hall|by apply quiet_plain, Hq|].
  pose proof (quiet_bindable _ _ _ _ (Hq m Hm) Hf) as Hbl.
  rewrite -Hv in Hf.
  destruct (autoBind_lazy_installed run n self (OOpts (set_lazy true o)) h v2 h2 m d eq_refl Hl Hm Hd Hf)
    as (g & s & _ & Hg & Hgo).
  assert (Hb2 : has_builtin_bind n h2 (prop_value d) = true).
  { rewrite Hv. apply (bindable_upd self _ _ _ _ _ Hu) in Hbl.
    by apply andb_true_iff in Hbl as [_ ?]. }
  destruct (lazy_getter_read run n self m h2 g s false _ (prop_value d) Hg Hgo eq_refl Hb2)
    as (h3 & Hget & Hw2 & Hown).
  exists w1, (length h2), h3. do 4 (split; [done|]).
  rewrite Hw2 Hv. f_equal. by apply (bound_function_upd self _ _ _ _ _ _ Hu).
Qed.

Lemma modes_agree_witness :
  ∃ w1 w2 h3,
    own_prop world_eager 6 (KStr "getName") = Some (Data (VObj w1) true false true)
    ∧ world_eager !! w1
      = Some (bound_function 3 world (read_value 3 world 6 (KStr "getName")) (VObj 6))
    ∧ get run0 4 6 (KStr "getName") world_lazy = Ret (VObj w2) h3
    ∧ own_prop h3 6 (KStr "getName") = Some (Data (VObj w2) true false true)
    ∧ h3 !! w2
      = Some (bound_function 3 world (read_value 3 world 6 (KStr "getName")) (VObj 6)).
Proof.
  apply (modes_agree run0 3 world 6 (obj (Some 3) [(KStr "name", field (VStr "foo"))])
           no_options (KStr "getName") (VObj 6) world_eager (VObj 6) world_lazy).
  - reflexivity.
  - reflexivity.
  - apply forallb_elem. reflexivity.
  - reflexivity.
  - reflexivity.
  - apply list_elem_of_here.
  - reflexivity.
Defined.

(** ** What the binders allocate *)

Lemma defineProperty_length l k d h h' :
  defineProperty l k d h = Ret tt h' → length h' = length h.
Proof.
  intros (o & p & Hl & -> & _)%defineProperty_Ret.
  by rewrite /set_props Hl length_insert.
Qed.

Lemma lookup_ge_None_inv (h : heap) l o : length h ≤ l → h !! l = Some o → False.
Proof. intros Hle Hl%lookup_lt_Some. lia. Qed.

Lemma bindLazy_allocates n self ms h h' :
  NoDup ms → bindLazy n self ms h = Ret tt h' →
  ∀ l o, length h ≤ l → h' !! l = Some o →
    ∃ f m s, o = closure (LazyGetter f self m) [] ∧ m ∈ ms
             ∧ is_function h' f = true
             ∧ own_prop h' self m = Some (Accessor (VObj l) s false true).
Proof.
  intros Hnd. revert h. induction Hnd as [|m0 ms Hm0 Hnd IH]; intros h Hr l o Hle Hl.
  { simplify_eq/=. by destruct (lookup_ge_None_inv _ _ _ Hle Hl). }
  assert (Hrest : bindLazy n self ms h = Ret tt h' →
            ∃ f m s, o = closure (LazyGetter f self m) [] ∧ m ∈ m0 :: ms
                     ∧ is_function h' f = true
                     ∧ own_prop h' self m = Some (Accessor (VObj l) s false true)).
  { intros Hr'. destruct (IH h Hr' l o Hle Hl) as (f & m & s & ? & ? & ? & ?).
    exists f, m, s. split; [done|]. split; [by apply list_elem_of_further|done]. }
  rewrite bindLazy_cons in Hr.
  destruct (lazy_descriptor n h self m0) as [[d0|] h1| |] eqn:Hd; try done; [|by apply Hrest].
  destruct (is_function h (prop_value d0)) eqn:Hf; [|by apply Hrest].
  assert (Hs : ∃ so, h !! self = Some so).
  { move: Hd. rewrite /lazy_descriptor. destruct (h !! self); [by eexists|done]. }
  destruct Hs as [so Hs].
  assert (Hlt : self < length h) by (by eapply lookup_lt_Some).
  destruct (defineProperty _ _ _ _) as [[] h3| |] eqn:Hdef; simpl in Hr; try done.
  pose proof (defineProperty_own _ _ _ _ _ Hdef) as Hown.
  pose proof (defineProperty_upd _ _ _ _ _ Hdef) as Hu3.
  pose proof (defineProperty_length _ _ _ _ _ Hdef) as Hlen.
  rewrite length_app /= in Hlen.
  pose proof (upd_trans self [] [m0] _ _ _ (upd_alloc self [] _ h) Hu3) as Hu.
  simpl in Hu.
  pose proof (bindLazy_upd _ _ _ _ _ Hr) as Hur.
  destruct (decide (l = length h)) as [->|Hne].
  - assert (Hs3 : is_Some (h3 !! self)).
    { destruct (Hu3 self so) as (o' & ? & _); [|by eexists].
      by rewrite lookup_app_l. }
    assert (Ho : h' !! length h = Some (closure (LazyGetter (prop_value d0) self m0) [])).
    { eapply (upd_other _ _ _ _ _ _ Hur); [lia| |done].
      eapply (upd_other _ _ _ _ _ _ Hu3); [lia| |done].
      by rewrite lookup_app_r // Nat.sub_diag. }
    rewrite Ho in Hl. simplify_eq.
    exists (prop_value d0), m0,
      (match own_prop (h ++ [closure (LazyGetter (prop_value d0) self m0) []]) self m0 with
       | Some (Accessor _ s _ _) => s
       | _ => VUndef
       end).
    split; [done|]. split; [apply list_elem_of_here|]. split.
    + eapply is_function_upd_true; [exact Hur|]. by eapply is_function_upd_true.
    + rewrite (own_prop_upd _ _ _ _ _ Hur Hm0 Hs3) Hown.
      by destruct (own_prop (h ++ _) self m0) as [[]|].
  - destruct (IH h3 Hr l o) as (f & m & s & ? & ? & ? & ?); [lia|done|].
    exists f, m, s. split; [done|]. split; [by apply list_elem_of_further|done].
Qed.

Lemma bindEager_allocates run n self ms h h' :
  NoDup ms → (∀ m, m ∈ ms → quiet n h self m = true) →
  bindEager run n self ms h = Ret tt h' →
  ∀ l o, length h ≤ l → h' !! l = Some o →
    ∃ m, m ∈ ms
         ∧ is_function h (read_value n h self m) = true
         ∧ o = bound_function n h (read_value n h self m) (VObj self)
         ∧ own_prop h' self m = Some (Data (VObj l) true false true).
Proof.
  intros Hnd. revert h. induction Hnd as [|m0 ms Hm0 Hnd IH]; intros h Hq Hr l o Hle Hl.
  { simplify_eq/=. by destruct (lookup_ge_None_inv _ _ _ Hle Hl). }
  assert (Hq0 : quiet n h self m0 = true) by (apply Hq; apply list_elem_of_here).
  assert (Hrest : ∀ m', m' ∈ ms → quiet n h self m' = true)
    by (intros; apply Hq; by apply list_elem_of_further).
  destruct (plain_read_self _ _ _ _ (quiet_plain _ _ _ _ Hq0)) as [so Hso].
  assert (Hlt : self < length h) by (by eapply lookup_lt_Some).
  rewrite bindEager_cons // in Hr.
  destruct (is_function h (read_value n h self m0)) eqn:Hf0.
  - destruct (defineProperty _ _ _ _) as [[] h3| |] eqn:Hd; simpl in Hr; try done.
    pose proof (defineProperty_own _ _ _ _ _ Hd) as Hown.
    rewrite bound_desc_prop in Hown.
    pose proof (defineProperty_upd _ _ _ _ _ Hd) as Hu3.
    pose proof (defineProperty_length _ _ _ _ _ Hd) as Hlen.
    rewrite length_app /= in Hlen.
    pose proof (upd_trans self [] [m0] _ _ _ (upd_alloc self [] _ h) Hu3) as Hu.
    simpl in Hu.
    pose proof (quiet_rest self n h h3 m0 ms Hu Hm0 Hq) as Hrest3.
    pose proof (bindEager_upd run n self ms h3 h' Hnd (λ m' Hm', proj1 (Hrest3 m' Hm')) Hr)
      as Hur.
    destruct (decide (l = length h)) as [->|Hne].
    + assert (Hs3 : is_Some (h3 !! self)).
      { destruct (Hu3 self so) as (o' & ? & _); [|by eexists].
        by rewrite lookup_app_l. }
      assert (Ho : h' !! length h
                   = Some (bound_function n h (read_value n h self m0) (VObj self))).
      { eapply (upd_other _ _ _ _ _ _ Hur); [lia| |done].
        eapply (upd_other _ _ _ _ _ _ Hu3); [lia| |done].
        by rewrite lookup_app_r // Nat.sub_diag. }
      rewrite Ho in Hl. simplify_eq.
      exists m0. split; [apply list_elem_of_here|]. split; [done|]. split; [done|].
      by rewrite (own_prop_upd _ _ _ _ _ Hur Hm0 Hs3).
    + destruct (IH h3 (λ m' Hm', proj1 (Hrest3 m' Hm')) Hr l o) as (m & Hm & Hfm & Ho & Hown');
        [lia|done|].
      exists m. split; [by apply list_elem_of_further|].
      rewrite (proj2 (Hrest3 m Hm)) in Hfm Ho.
      rewrite (quiet_function _ _ _ _ _ _ Hu (Hrest m Hm)) in Hfm.
      split; [done|]. split; [|done]. rewrite Ho.
      apply (bound_function_upd self [m0]); [done|].
      by apply quiet_bindable; [apply Hrest|].
  - destruct (IH h Hrest Hr l o Hle Hl) as (m & Hm & ?).
    exists m. split; [by apply list_elem_of_further|done].
Qed.

(** X5.  Lazy binding creates no wrapper.  Every object a completed
    [autoBind] in lazy mode adds to the store is the getter of a retained
    name: a closure over a callable, the instance and the name, installed on
    the instance as the getter of a configurable, non-enumerable accessor at
    that name. *)
Theorem lazy_allocates_getters run n h self a v h' l o :
  opt_lazy (options_of a) = true →
  autoBind run n self a h = Ret v h' →
  length h ≤ l → h' !! l = Some o →
  ∃ f m s, o = closure (LazyGetter f self m) []
           ∧ m ∈ retained n h self a
           ∧ is_function h' f = true
           ∧ own_prop h' self m = Some (Accessor (VObj l) s false true).
Proof.
  intros Hlazy (_ & _ & h0 & _ & _ & Hlen & Hb)%autoBind_Ret Hle Hl. rewrite Hlazy in Hb.
  eapply bindLazy_allocates; [apply retained_NoDup|done|lia|done].
Qed.

Lemma lazy_allocates_getters_witness :
  ∃ f m s, closure (LazyGetter (VObj 5) 6 (KStr "getName")) []
           = closure (LazyGetter f 6 m) []
           ∧ m ∈ retained 3 world 6 (OOpts lazy_opts)
           ∧ is_function world_lazy f = true
           ∧ own_prop world_lazy 6 m = Some (Accessor (VObj 7) s false true).
Proof.
  apply (lazy_allocates_getters run0 3 world 6 (OOpts lazy_opts) (VObj 6) world_lazy 7
           (closure (LazyGetter (VObj 5) 6 (KStr "getName")) [])).
  - reflexivity.
  - reflexivity.
  - simpl. lia.
  - reflexivity.
Defined.

(** X6.  Eager binding creates one wrapper per bound name and nothing else.
    When reading each retained name on the instance runs no getter and each
    callable value read has the built-in [bind] and does not have the
    instance on its prototype chain, every object a completed [autoBind] in
    eager mode adds to the store is the bound function [f.bind(instance)]
    of the callable [f] read at a retained name, with the instance as
    receiver and no preset arguments, and it is the value of the instance's
    own writable, configurable, non-enumerable property at that name. *)
Theorem eager_allocates_wrappers run n h self a v h' l o :
  opt_lazy (options_of a) = false →
  autoBind run n self a h = Ret v h' →
  (∀ m, m ∈ retained n h self a → quiet n h self m = true) →
  length h ≤ l → h' !! l = Some o →
  ∃ m, m ∈ retained n h self a
       ∧ is_function h (read_value n h self m) = true
       ∧ o = bound_function n h (read_value n h self m) (VObj self)
       ∧ own_prop h' self m = Some (Data (VObj l) true false true).
Proof.
  intros Heager (_ & _ & h0 & _ & Hu0 & Hlen & Hb)%autoBind_Ret Hq Hle Hl.
  rewrite Heager in Hb.
  pose proof (quiet_after self n h h0 _ Hu0 Hq) as Hq0.
  destruct (bindEager_allocates run n self _ h0 h' (retained_NoDup _ _ _ _)
              (λ m Hm, proj1 (Hq0 m Hm)) Hb l o) as (m & Hm & Hf & Ho & Hown);
    [lia|done|].
  exists m. split; [done|]. rewrite (proj2 (Hq0 m Hm)) in Hf Ho.
  rewrite (quiet_function _ _ _ _ _ _ Hu0 (Hq m Hm)) in Hf.
  split; [done|]. split; [|done]. rewrite Ho.
  apply (bound_function_upd self []); [done|]. by apply quiet_bindable; [apply Hq|].
Qed.

Lemma eager_allocates_wrappers_witness :
  ∃ m, m ∈ retained 3 world 6 OUndef
       ∧ is_function world (read_value 3 world 6 m) = true
       ∧ bound_function 3 world (VObj 5) (VObj 6)
         = bound_function 3 world (read_value 3 world 6 m) (VObj 6)
       ∧ own_prop world_eager 6 m = Some (Data (VObj 7) true false true).
Proof.
  apply (eager_allocates_wrappers run0 3 world 6 OUndef (VObj 6) world_eager 7
           (bound_function 3 world (VObj 5) (VObj 6))).
  - reflexivity.
  - reflexivity.
  - apply forallb_elem. reflexivity.
  - simpl. lia.
  - reflexivity.
Defined.

(** ** What [autoBindReact] retains *)

Lemma List_filter_filter {A} (f g : A → bool) l :
  List.filter f (List.filter g l) = List.filter (λ x, g x && f x) l.
Proof.
  induction l as [|x l IH]; simpl; [done|].
  destruct (g x); simpl; [destruct (f x)|]; by rewrite IH.
Qed.

Lemma List_filter_comm {A} (f g : A → bool) l :
  List.filter f (List.filter g l) = List.filter g (List.filter f l).
Proof.
  rewrite !List_filter_filter. apply filter_ext_eq. intros x. apply andb_comm.
Qed.

Lemma set_has_app xs ys m : set_has (xs ++ ys) m = set_has xs m || set_has ys m.
Proof.
  rewrite /set_has. apply eq_true_iff_eq.
  rewrite orb_true_iff !bool_decide_eq_true. apply elem_of_app.
Qed.

Lemma set_has_lifecycle m : set_has (map VStr REACT_LIFECYCLE_METHODS) m = is_lifecycle m.
Proof.
  rewrite /set_has /is_lifecycle. generalize REACT_LIFECYCLE_METHODS. intros R.
  destruct m as [s|k]; simpl.
  - apply bool_decide_ext. induction R as [|r R IH]; simpl.
    + split; intros H; by apply elem_of_nil in H.
    + rewrite !elem_of_cons IH. split; intros [H|H]; simplify_eq; auto.
  - apply bool_decide_eq_false_2. induction R as [|r R IH]; simpl.
    + apply not_elem_of_nil.
    + by apply not_elem_of_cons.
Qed.

Lemma before_pattern_react all o :
  before_pattern all (react_options o)
  = List.filter (λ m, negb (is_lifecycle m)) (before_pattern all o).
Proof.
  rewrite /before_pattern /react_options /=.
  set (l1 := match opt_include o with
             | Some inc => List.filter (λ m, set_has inc m) _
             | None => _
             end).
  destruct (opt_exclude o) as [exc|]; simpl.
  - rewrite List_filter_filter. apply filter_ext_eq. intros m.
    by rewrite set_has_app set_has_lifecycle negb_orb.
  - apply filter_ext_eq. intros m. by rewrite set_has_lifecycle.
Qed.

(** X7.  For a pattern without the [g] and the [y] flag, or none,
    [autoBindReact] retains what [autoBind] retains on the caller's
    options, less the lifecycle names, in the same order: merging the
    lifecycle list into [exclude] keeps the caller's own [exclude],
    [include] and [pattern] in force and removes nothing else; and the
    filtering leaves the store as it is. *)
Theorem react_retains all o h :
  stateless o →
  ∃ r, filterMethods all o h = Ret r h
       ∧ filterMethods all (react_options o) h
         = Ret (List.filter (λ m, negb (is_lifecycle m)) r) h
       ∧ ∀ m, m ∈ List.filter (λ m, negb (is_lifecycle m)) r
              ↔ (m ∈ r ∧ ∀ s, s ∈ REACT_LIFECYCLE_METHODS → m ≠ KStr s).
Proof.
  intros Hs.
  assert (E : ∃ r, filterMethods all o h = Ret r h
                   ∧ filterMethods all (react_options o) h
                     = Ret (List.filter (λ m, negb (is_lifecycle m)) r) h).
  { rewrite !filterMethods_unfold before_pattern_react.
    change (opt_pattern (react_options o)) with (opt_pattern o).
    destruct (opt_pattern o) as [pat|] eqn:Hp; [|by eexists].
    rewrite !filter_pattern_stateless; [|by apply Hs..].
    eexists. split; [done|]. f_equal. apply List_filter_comm. }
  destruct E as (r & E1 & E2). exists r. split; [done|]. split; [done|].
  intros m. rewrite elem_of_List_filter. split.
  - intros [Hm Hl]. split; [done|]. intros s Hs' ->.
    by rewrite /= bool_decide_eq_true_2 in Hl.
  - intros [Hm Hl]. split; [done|]. destruct m as [s|k]; [|done].
    apply negb_true_iff, bool_decide_eq_false_2. intros Hs'. by apply (Hl s).
Qed.

Lemma react_retains_witness :
  ∃ r, filterMethods [KStr "render"; KStr "getName"] no_options world
       = Ret r world
       ∧ filterMethods [KStr "render"; KStr "getName"] (react_options no_options) world
         = Ret (List.filter (λ m, negb (is_lifecycle m)) r) world
       ∧ ∀ m, m ∈ List.filter (λ m, negb (is_lifecycle m)) r
              ↔ (m ∈ r ∧ ∀ s, s ∈ REACT_LIFECYCLE_METHODS → m ≠ KStr s).
Proof.
  apply (react_retains [KStr "render"; KStr "getName"] no_options world).
  by intros pat.
Defined.

(** ** Names that are never bound *)

(** X8.  Names [autoBind] never touches.  A name that is not the name of a
    method on the chain of the instance below [Object.prototype] (for one,
    a function held only as an own property of the instance, or only by
    [Object.prototype]), a built-in name, a name in [exclude], a name
    missing from [include], and under a [pattern] a symbol, or a string
    that an expression without the [g] and the [y] flag does not match:
    such a name is not retained, and after a completed [autoBind], in lazy
    mode, or in eager mode when reading each retained name on the instance
    runs no getter and each callable value read has the built-in [bind] and
    does not have the instance on its prototype chain, the instance has at
    such a name the own property it had before, or none. *)
Theorem never_bound run n h self a v h' m :
  autoBind run n self a h = Ret v h' →
  (opt_lazy (options_of a) = false →
   ∀ m, m ∈ retained n h self a → quiet n h self m = true) →
  m ∉ default [] (getAllMethodNames n h self) ∨ filtered_out (options_of a) m →
  (m ∉ retained n h self a) ∧ own_prop h' self m = own_prop h self m.
Proof.
  intros Hr Hq Hout.
  assert (Hm : m ∉ retained n h self a).
  { rewrite /retained /filtering. destruct (getAllMethodNames n h self) as [all|];
      [|apply not_elem_of_nil].
    destruct (filterMethods _ _ _) as [r h0| |] eqn:Hf; try apply not_elem_of_nil.
    intros Hin. pose proof (filterMethods_elem _ _ _ _ _ _ Hf Hin) as (Hall & Hb & Hi & He).
    destruct Hout as [Hno|Hout]; [done|].
    destruct Hout as [(s & -> & Hs)|[(exc & Hexc & Hx)|[(inc & Hinc & Hx)|(pat & Hpat & Ht)]]].
    - destruct Hb as [?|(s' & [= <-] & ?)]; done.
    - by apply (He exc).
    - by apply Hx, Hi.
    - destruct Ht as [Hsym|(Hst & s & -> & Hno)].
      + destruct (filterMethods_Ret 0 _ _ _ _ _ Hf) as (_ & Hnosym & _).
        rewrite Hnosym // in Hsym. by rewrite Hpat.
      + move: Hf. rewrite filterMethods_unfold Hpat filter_pattern_stateless //.
        intros [= <- <-]. apply elem_of_List_filter in Hin as [_ Hin]. congruence. }
  split; [done|].
  pose proof (autoBind_upd _ _ _ _ _ _ _ Hr Hq) as Hu.
  apply autoBind_Ret in Hr as (_ & [all Hall] & _).
  eapply own_prop_upd; [done..|].
  move: Hall. rewrite /getAllMethodNames. destruct (h !! self); [by eexists|done].
Qed.

Lemma never_bound_witness :
  (KStr "toString" ∉ retained 3 world 6 OUndef)
  ∧ own_prop world_eager 6 (KStr "toString") = own_prop world 6 (KStr "toString").
Proof.
  apply (never_bound run0 3 world 6 OUndef (VObj 6) world_eager (KStr "toString")).
  - reflexivity.
  - intros _. apply forallb_elem. reflexivity.
  - right. left. exists "toString". split; [reflexivity|].
    apply list_elem_of_further, list_elem_of_here.
Defined.

(** ** Reading a method decorated with [bound] *)

Section BoundRead.

Context (run : nat → invocation → heap → res value).

(** A read that ends at the getter of [bound], through an object other
    than the decorated one: the getter creates the wrapper and defines it
    on the object the read went through. *)
Lemma bound_getter_read n i k h g s e c go fn target :
  find_prop n h (Some i) k = Some (Some (Accessor (VObj g) s e c)) →
  h !! g = Some go → callable go = Some (BoundGetter fn target k) →
  VObj i ≠ target →
  definable h i k = true →
  has_builtin_bind (pred n) h fn = true →
  ∃ h3, get run n i k h = Ret (VObj (length h)) h3
        ∧ h3 !! length h = Some (bound_function (pred n) h fn (VObj i))
        ∧ own_prop h3 i k = Some (Data (VObj (length h)) true false true)
        ∧ upd i [k] h h3.
Proof.
  intros Hf Hg Hc Hne Hdef Hbind.
  destruct n as [|n]; [done|]. simpl in Hbind. cbn [pred].
  assert (Hi : is_Some (h !! i)).
  { move: Hf. simpl. destruct (h !! i); [by eexists|done]. }
  assert (Hlt : i < length h) by (by apply lookup_lt_is_Some_1).
  destruct (defineProperty_definable i k (bound_desc (VObj (length h)))
              (h ++ [bound_function n h fn (VObj i)])) as [h3 Hd]; [|done|done|].
  { by apply definable_alloc. }
  pose proof (defineProperty_upd _ _ _ _ _ Hd) as Hu3.
  exists h3. split; [|split; [|split]].
  - rewrite /get /get_with Hf /= Hg Hc /bound_getter bool_decide_eq_false_2 //.
    rewrite (call_bind_builtin run n h fn (VObj i) Hbind). cbn [bindR].
    by rewrite Hd.
  - eapply (upd_other i [k]); [done|lia| |done].
    by rewrite lookup_app_r // Nat.sub_diag.
  - rewrite (defineProperty_own _ _ _ _ _ Hd). by rewrite bound_desc_prop.
  - apply (upd_trans i [] [k] _ _ _ (upd_alloc i [] _ h) Hu3).
Qed.

(** The same read through the decorated object itself yields the
    function as it is. *)
Lemma bound_getter_target n t k h g s e c go fn :
  find_prop n h (Some t) k = Some (Some (Accessor (VObj g) s e c)) →
  h !! g = Some go → callable go = Some (BoundGetter fn (VObj t) k) →
  get run n t k h = Ret fn h.
Proof.
  intros Hf Hg Hc. destruct n as [|n]; [done|].
  by rewrite /get /get_with Hf /= Hg Hc /bound_getter bool_decide_eq_true_2.
Qed.

End BoundRead.

Lemma getter_desc_prop g cur :
  ∃ s, match cur with
       | Some c => apply_desc c (getter_desc g)
       | None => new_prop (getter_desc g)
       end = Accessor g s false true.
Proof.
  destruct cur as [[v w e c|g0 s0 e c]|]; simpl.
  - by exists VUndef.
  - by exists s0.
  - by exists VUndef.
Qed.

(** X9.  The method decorator, end to end.  [bound] is applied to a method
    [fn] at key [k] of [t] and the descriptor it returns is defined on [t].
    An object [i] other than [t] whose lookup of [k] ends at that property
    of [t], and which accepts a new property [k], then reads [k] as a new
    bound function of [fn] with [i] as receiver, provided [fn] has the
    built-in [bind]; the read defines the bound function as an own
    writable, configurable, non-enumerable property of [i] and leaves the
    property of [t] as it is, so that the next read of [k] on [i] yields
    the same bound function and creates nothing.  Read on [t] itself the
    property yields [fn], unbound, and the store stays as it is. *)
Theorem bound_method_read run n h t k dd d h1 h2 i :
  bound (VObj t) k (Some dd) h = Ret d h1 →
  defineProperty t k d h1 = Ret tt h2 →
  i ≠ t →
  find_prop n h2 (Some i) k = Some (own_prop h2 t k) →
  definable h2 i k = true →
  has_builtin_bind (pred n) h2 (default VUndef (d_value dd)) = true →
  ∃ w h3,
    get run n i k h2 = Ret (VObj w) h3
    ∧ length h2 ≤ w
    ∧ h3 !! w = Some (bound_function (pred n) h2 (default VUndef (d_value dd)) (VObj i))
    ∧ own_prop h3 i k = Some (Data (VObj w) true false true)
    ∧ own_prop h3 t k = own_prop h2 t k
    ∧ get run n i k h3 = Ret (VObj w) h3
    ∧ get run n t k h2 = Ret (default VUndef (d_value dd)) h2
    ∧ ∀ h'' j r args,
        h'' !! w = h3 !! w →
        call run (S j) (VObj w) r args h''
        = call run j (default VUndef (d_value dd)) (VObj i) args h''.
Proof.
  intros Hb Hdef Hne Hfind Hable Hbind.
  set (fn := default VUndef (d_value dd)).
  assert (Hbd : d = getter_desc (VObj (length h))
                ∧ h1 = h ++ [closure (BoundGetter fn (VObj t) k) []]).
  { move: Hb. rewrite /bound. destruct (is_function h _); simpl; [|done].
    by intros [= <- <-]. }
  destruct Hbd as [-> ->].
  pose proof (defineProperty_own _ _ _ _ _ Hdef) as Hown.
  destruct (getter_desc_prop (VObj (length h))
              (own_prop (h ++ [closure (BoundGetter fn (VObj t) k) []]) t k)) as [s Hs].
  rewrite Hs in Hown. clear Hs.
  pose proof (defineProperty_upd _ _ _ _ _ Hdef) as Hu.
  assert (Ht : t < length h ∨ t = length h).
  { apply defineProperty_Ret in Hdef as (o & _ & Hl%lookup_lt_Some & _).
    rewrite length_app /= in Hl. lia. }
  assert (Hg : ∃ go, h2 !! length h = Some go
                     ∧ callable go = Some (BoundGetter fn (VObj t) k)).
  { destruct (Hu (length h) (closure (BoundGetter fn (VObj t) k) []))
      as (go & Hgo & (_ & _ & Hc) & _); [by rewrite lookup_app_r // Nat.sub_diag|].
    by exists go. }
  destruct Hg as (go & Hgo & Hc).
  rewrite Hown in Hfind.
  destruct (bound_getter_read run n i k h2 (length h) s false true go fn (VObj t)
              Hfind Hgo Hc) as (h3 & Hget & Hw & Howni & Hu3); [congruence|done|done|].
  assert (Hn : ∃ n', n = S n') by (destruct n; [done|by eexists]).
  destruct Hn as [n' ->].
  assert (Hft : find_prop (S n') h2 (Some t) k
                = Some (Some (Accessor (VObj (length h)) s false true))).
  { move: Hown. rewrite /own_prop /=. destruct (h2 !! t) as [o|]; [|done]. by intros ->. }
  exists (length h2), h3. do 4 (split; [done|]). split; [|split; [|split]].
  - move: Hown. rewrite /own_prop.
    destruct (h2 !! t) as [o|] eqn:Hto; [|done].
    by destruct (upd_other_props _ _ _ _ _ _ Hu3 (not_eq_sym Hne) Hto) as (o' & -> & _ & ->).
  - by eapply get_own_data.
  - by eapply bound_getter_target.
  - intros h'' j r args Hw''. eapply call_bound; [by rewrite Hw'' Hw|done].
Qed.

Lemma bound_method_read_witness :
  ∃ w h3,
    get run0 3 6 (KStr "getName") world_decorated = Ret (VObj w) h3
    ∧ length world_decorated ≤ w
    ∧ h3 !! w = Some (bound_function (pred 3) world_decorated
                        (default VUndef (d_value (to_pdesc (method 5)))) (VObj 6))
    ∧ own_prop h3 6 (KStr "getName") = Some (Data (VObj w) true false true)
    ∧ own_prop h3 3 (KStr "getName") = own_prop world_decorated 3 (KStr "getName")
    ∧ get run0 3 6 (KStr "getName") h3 = Ret (VObj w) h3
    ∧ get run0 3 3 (KStr "getName") world_decorated
      = Ret (default VUndef (d_value (to_pdesc (method 5)))) world_decorated
    ∧ ∀ h'' j r args,
        h'' !! w = h3 !! w →
        call run0 (S j) (VObj w) r args h''
        = call run0 j (default VUndef (d_value (to_pdesc (method 5)))) (VObj 6) args h''.
Proof.
  apply (bound_method_read run0 3 world 3 (KStr "getName") (to_pdesc (method 5))
           (getter_desc (VObj 7))
           (world ++ [closure (BoundGetter (VObj 5) (VObj 3) (KStr "getName")) []])
           world_decorated 6).
  - reflexivity.
  - reflexivity.
  - lia.
  - reflexivity.
  - reflexivity.
  - reflexivity.
Defined.

(** ** The wrapper of [boundClass] and [instanceof] *)



(** Why the original must be an ordinary function: [Foo.bind(null)] has no
    property [prototype], so its wrapper gets [undefined] as [prototype].
    The instance of [Foo] is an instance of the bound constructor, and
    [instanceof] on the wrapper throws. *)
Example instanceof_bound_original :
  ∃ h', boundClass run0 3 7 world_bound_ctor = Ret (VObj 8) h'
        ∧ own_prop h' 8 (KStr "prototype") = Some (Data VUndef true false false)
        ∧ instanceof run0 3 6 7 h' = Ret true h'
        ∧ instanceof run0 3 6 8 h'
          = Thr (TypeError "Function has non-object prototype in instanceof check") h'.
Proof. eexists. repeat split; reflexivity. Qed.

(** ** Binding runs no method *)




(** ** Binding lazily twice *)

Lemma lazy_descriptor_assoc n h self m p :
  lazy_descriptor n h self m = Ret (Some p) h →
  ∃ l o, h !! l = Some o ∧ assoc m (props o) = Some p.
Proof.
  rewrite /lazy_descriptor /findDescriptorInChain.
  destruct (h !! self) as [so|]; [|done].
  destruct (proto so) as [q|]; [|done].
  destruct (h !! q) as [po|] eqn:Hq; [|done].
  destruct (assoc m (props po)) as [d|] eqn:Ha.
  - intros [= <-]. by exists q, po.
  - destruct (walk_descriptor n h (Some q) m) as [r|] eqn:Hw; [|done].
    intros [= ->]. apply walk_descriptor_find_prop in Hw.
    by eapply find_prop_assoc.
Qed.

(** The descriptor [bindLazy] works with depends on the ancestors of the
    instance only. *)
Lemma lazy_descriptor_chain_upd self K h h' n so ls m d :
  upd self K h h' → h !! self = Some so →
  chain n h (proto so) = Some ls → ls ≠ [] →
  lazy_descriptor n h self m = Ret d h → lazy_descriptor n h' self m = Ret d h'.
Proof.
  intros Hu Hs Hc Hls. pose proof (chain_notin _ _ _ _ _ Hs Hc) as Hnot.
  rewrite /lazy_descriptor /findDescriptorInChain Hs.
  destruct (Hu _ _ Hs) as (so' & -> & (-> & _) & _).
  destruct (proto so) as [q|] eqn:Hq; [|done].
  destruct (h !! q) as [po|] eqn:Hpo; [|done].
  assert (Hne : q ≠ self).
  { intros ->. apply Hnot. destruct n as [|n]; simpl in Hc; case_bool_decide;
      simplify_eq; try done.
    rewrite Hs in Hc. destruct (chain n h (proto so)); simplify_eq/=.
    apply list_elem_of_here. }
  destruct (upd_other_props _ _ _ _ _ _ Hu Hne Hpo) as (po' & -> & _ & ->).
  destruct (assoc m (props po)); [by intros [= <-]|].
  rewrite (walk_descriptor_upd _ _ _ _ _ _ m _ Hu Hc Hnot).
  destruct (walk_descriptor n h (Some q) m); [by intros [= <-]|done].
Qed.

(** [bindLazy] completes when the descriptors are found and the names it
    installs a getter for are definable on the instance. *)
Lemma bindLazy_completes n self ms h :
  NoDup ms →
  (∀ m, m ∈ ms →
     ∃ d, lazy_descriptor n h self m = Ret d h
          ∧ ∀ p, d = Some p →
                 live h (prop_value p)
                 ∧ (is_function h (prop_value p) = true → definable h self m = true)) →
  ∃ h', bindLazy n self ms h = Ret tt h'.
Proof.
  intros Hnd. revert h. induction Hnd as [|m ms Hm Hnd IH]; intros h Hld.
  { by exists h. }
  rewrite bindLazy_cons.
  destruct (Hld m) as (d & -> & Hd); [apply list_elem_of_here|].
  assert (Hskip : ∃ h', bindLazy n self ms h = Ret tt h').
  { apply IH. intros m' Hm'. apply Hld. by apply list_elem_of_further. }
  destruct d as [d|]; [|done].
  destruct (is_function h (prop_value d)) eqn:Hf; [|done].
  destruct (defineProperty_definable self m (getter_desc (VObj (length h)))
              (h ++ [closure (LazyGetter (prop_value d) self m) []]))
    as [h3 Hdef]; [|done| |].
  { apply definable_alloc. by apply (Hd d). }
  { by rewrite /= lookup_app_r // Nat.sub_diag. }
  rewrite Hdef /=. pose proof (defineProperty_upd _ _ _ _ _ Hdef) as Hu3.
  pose proof (upd_trans self [] [m] _ _ _ (upd_alloc self [] _ h) Hu3) as Hu.
  simpl in Hu.
  assert (Hne : ∀ m', m' ∈ ms → m' ∉ [m]).
  { intros m' Hm' ->%list_elem_of_singleton. done. }
  apply IH. intros m' Hm'.
  destruct (Hld m') as (d' & Hd' & Hp'); [by apply list_elem_of_further|].
  exists d'. split; [eapply lazy_descriptor_upd; [exact Hu|by apply Hne|done]|].
  intros p ->. destruct (Hp' p eq_refl) as [Hlv Hable]. split; [by eapply live_upd|].
  rewrite (is_function_upd _ _ _ _ _ Hu Hlv). intros Hf'.
  eapply definable_upd; [exact Hu|by apply Hne|by apply Hable].
Qed.

(** X12.  Lazy binding does not nest.  After a completed lazy [autoBind]
    on a well-formed store, with a pattern that has no [g] and no [y] flag,
    or none, a second lazy [autoBind] with the same options completes and
    retains the same names; for every name the first call installed a
    getter for, it installs a new getter over the same callable, the one of
    the chain, not over the first getter; so the first read after the
    second call, when that callable has the built-in [bind], yields a bound
    function of that callable itself, with the instance as receiver. *)
Theorem lazy_rebinding run n h self a v h1 :
  opt_lazy (options_of a) = true →
  stateless (options_of a) →
  closed h →
  autoBind run n self a h = Ret v h1 →
  ∃ h2, autoBind run n self a h1 = Ret (VObj self) h2
        ∧ retained n h1 self a = retained n h self a
        ∧ ∀ m p, m ∈ retained n h self a →
                 lazy_descriptor n h self m = Ret (Some p) h →
                 is_function h (prop_value p) = true →
            ∃ g1 g2 s1 s2,
              own_prop h1 self m = Some (Accessor (VObj g1) s1 false true)
              ∧ h1 !! g1 = Some (closure (LazyGetter (prop_value p) self m) [])
              ∧ own_prop h2 self m = Some (Accessor (VObj g2) s2 false true)
              ∧ h2 !! g2 = Some (closure (LazyGetter (prop_value p) self m) [])
              ∧ g1 < g2
              ∧ ∀ k, has_builtin_bind k h2 (prop_value p) = true →
                  ∃ h3,
                    get run (S k) self m h2 = Ret (VObj (length h2)) h3
                    ∧ h3 !! length h2
                      = Some (bound_function k h2 (prop_value p) (VObj self)).
Proof.
  intros Hlazy Hstl Hcl Hr.
  assert (Hu : upd self (retained n h self a) h h1).
  { eapply autoBind_upd; [done|]. rewrite Hlazy. by intros [=]. }
  apply autoBind_Ret in Hr as (_ & [all Hall] & h0 & Hf0 & _ & _ & Hb).
  apply (filtering_stateless _ _ _ _ _ _ Hstl) in Hf0 as ->. rewrite Hlazy in Hb.
  pose proof (retained_NoDup n h self a) as Hnd.
  pose proof (getAllMethodNames_upd _ _ _ _ _ _ Hu Hcl Hall) as Hall1.
  assert (Hret : retained n h1 self a = retained n h self a).
  { eapply retained_stateless_upd; [done|done|done|by eexists]. }
  assert (Hs : ∃ so, h !! self = Some so).
  { move: Hall. rewrite /getAllMethodNames. destruct (h !! self); [by eexists|done]. }
  destruct Hs as [so Hs].
  assert (Hin : ∀ m, m ∈ retained n h self a → m ∈ all).
  { intros m Hm. destruct (retained_discovered _ _ _ _ _ Hm) as (all' & Hall' & Hm').
    rewrite Hall in Hall'. by injection Hall' as <-. }
  assert (Hc : ∃ ls, chain n h (proto so) = Some ls
                     ∧ ∀ m, m ∈ retained n h self a → ls ≠ []).
  { move: (Hall). rewrite /getAllMethodNames Hs. intros Hw.
    destruct (elem_walk_methods _ _ _ _ _ Hw) as (ls & Hc & _ & Hchar).
    exists ls. split; [done|]. intros m Hm ->.
    apply Hin, Hchar in Hm as [Hm|(_ & q & Hq & _)];
      by apply elem_of_nil in Hm || apply elem_of_nil in Hq. }
  destruct Hc as (ls & Hc & Hls).
  assert (Hdesc : ∀ m, m ∈ retained n h self a →
            ∃ d, lazy_descriptor n h self m = Ret d h
                 ∧ lazy_descriptor n h1 self m = Ret d h1).
  { intros m Hm. destruct (lazy_descriptor_total n h self all m Hall) as [d Hd].
    - intros ->. apply Hin in Hm. by apply elem_of_nil in Hm.
    - exists d. split; [done|].
      eapply lazy_descriptor_chain_upd; [exact Hu|done|done|by eapply Hls|done]. }
  assert (Hlive : ∀ m p, lazy_descriptor n h self m = Ret (Some p) h → live h (prop_value p)).
  { intros m p (l & o & Hl & Ha)%lazy_descriptor_assoc. by eapply Hcl. }
  destruct (bindLazy_completes n self (retained n h self a) h1 Hnd) as [h2 Hb2].
  { intros m Hm. destruct (Hdesc m Hm) as (d & Hd & Hd1). exists d. split; [done|].
    intros p ->. split; [eapply live_upd; [done|by eapply Hlive]|].
    rewrite (is_function_upd _ _ _ _ _ Hu (Hlive _ _ Hd)). intros Hf.
    destruct (bindLazy_installed n self _ h h1 m p Hnd Hb Hm Hd Hf) as (g & s & _ & Hown & _).
    move: Hown. rewrite /own_prop /definable.
    destruct (h1 !! self) as [o|]; [|done]. by intros ->. }
  exists h2. split; [|split; [done|]].
  - rewrite autoBind_unfold (filtering_stateless_Ret _ _ _ _ Hstl); [|by eexists].
    cbn [bindR]. by rewrite Hret Hlazy Hb2.
  - intros m p Hm Hd Hf.
    destruct (bindLazy_installed n self _ h h1 m p Hnd Hb Hm Hd Hf)
      as (g1 & s1 & _ & Hown1 & Hg1).
    destruct (Hdesc m Hm) as (d & Hd' & Hd1). rewrite Hd in Hd'. simplify_eq.
    assert (Hf1 : is_function h1 (prop_value p) = true)
      by (by eapply is_function_upd_true).
    destruct (bindLazy_installed n self _ h1 h2 m p Hnd Hb2 Hm Hd1 Hf1)
      as (g2 & s2 & Hle & Hown2 & Hg2).
    exists g1, g2, s1, s2. do 4 (split; [done|]). split.
    + apply lookup_lt_Some in Hg1. lia.
    + intros k Hbind.
      destruct (lazy_getter_read run k self m h2 g2 s2 false _ (prop_value p)
                  Hown2 Hg2 eq_refl Hbind) as (h3 & Hget & Hw & _).
      by exists h3.
Qed.

Lemma lazy_rebinding_witness :
  ∃ h2, autoBind run0 3 6 (OOpts lazy_opts) world_lazy = Ret (VObj 6) h2
        ∧ retained 3 world_lazy 6 (OOpts lazy_opts) = retained 3 world 6 (OOpts lazy_opts)
        ∧ ∀ m p, m ∈ retained 3 world 6 (OOpts lazy_opts) →
                 lazy_descriptor 3 world 6 m = Ret (Some p) world →
                 is_function world (prop_value p) = true →
            ∃ g1 g2 s1 s2,
              own_prop world_lazy 6 m = Some (Accessor (VObj g1) s1 false true)
              ∧ world_lazy !! g1 = Some (closure (LazyGetter (prop_value p) 6 m) [])
              ∧ own_prop h2 6 m = Some (Accessor (VObj g2) s2 false true)
              ∧ h2 !! g2 = Some (closure (LazyGetter (prop_value p) 6 m) [])
              ∧ g1 < g2
              ∧ ∀ k, has_builtin_bind k h2 (prop_value p) = true →
                  ∃ h3,
                    get run0 (S k) 6 m h2 = Ret (VObj (length h2)) h3
                    ∧ h3 !! length h2
                      = Some (bound_function k h2 (prop_value p) (VObj 6)).
Proof.
  apply (lazy_rebinding run0 3 world 6 (OOpts lazy_opts) (VObj 6) world_lazy).
  - reflexivity.
  - by intros pat.
  - apply closedb_closed. reflexivity.
  - reflexivity.
Defined.

(** ** Static members through the wrapper of [boundClass] *)

Lemma own_names_assoc co s : s ∈ own_names co → is_Some (assoc (KStr s) (props co)).
Proof.
  rewrite /own_names. induction (props co) as [|[k p] ps IH]; simpl.
  - intros Hs. by apply elem_of_nil in Hs.
  - destruct (decide (k = KStr s)) as [->|Hne]; [by eexists|].
    destruct k as [s'|j]; simpl; [|done].
    intros [->|Hs]%elem_of_cons; [done|by apply IH].
Qed.

Section WrapperStatics.

Context (run : nat → invocation → heap → res value).

(** [boundClass] up to the copy of the static properties: the wrapper
    has its three own properties and the original as its prototype. *)
Lemma boundClass_steps n h c co :
  h !! c = Some co →
  plain_read n h c (KStr "prototype") = true →
  plain_read n h c (KStr "name") = true →
  ∃ h7 wo7,
    boundClass run n c h
    = (let! (_, h8) := copy_statics c (length h) (own_names co) h7 in
       Ret (VObj (length h)) h8)
    ∧ (∀ l o, h !! l = Some o → h7 !! l = Some o)
    ∧ h7 !! length h = Some wo7
    ∧ proto wo7 = Some c ∧ extensible wo7 = true
    ∧ ∀ k, assoc k (props wo7) ≠ None →
           k ∈ [KStr "length"; KStr "name"; KStr "prototype"].
Proof.
  intros Hc Hpp Hpn.
  set (w := length h).
  set (p := read_value n h c (KStr "prototype")).
  set (nm := read_value n h c (KStr "name")).
  set (wo0 := closure (WrappedCtor c) (wrapped_props (S w))).
  set (po := {| proto := Some ObjectPrototype;
                props := [(KStr "constructor", Data (VObj w) true false true)];
                extensible := true; callable := None; lastIndex := None |}).
  set (h2 := (h ++ [wo0]) ++ [po]).
  assert (Hext2 : ∀ l o, h !! l = Some o → h2 !! l = Some o).
  { intros l o Hl. rewrite /h2 -app_assoc lookup_app_l //. by eapply lookup_lt_Some. }
  assert (Hw2 : h2 !! w = Some wo0).
  { rewrite /h2 lookup_app_l; [|rewrite length_app /=; lia].
    by rewrite lookup_app_r // Nat.sub_diag. }
  set (wo4 := {| proto := Some FunctionPrototype;
                 props := [ (KStr "length", Data (VNum 0) false false true);
                            (KStr "name", Data (VStr "wrapped") false false true);
                            (KStr "prototype", Data p true false false) ];
                 extensible := true; callable := Some (WrappedCtor c);
                 lastIndex := None |}).
  set (h4 := <[w := wo4]> h2).
  set (wo6 := {| proto := Some FunctionPrototype;
                 props := [ (KStr "length", Data (VNum 0) false false true);
                            (KStr "name", Data nm false false true);
                            (KStr "prototype", Data p true false false) ];
                 extensible := true; callable := Some (WrappedCtor c);
                 lastIndex := None |}).
  set (h6 := <[w := wo6]> h4).
  set (wo7 := {| proto := Some c; props := props wo6;
                 extensible := true; callable := Some (WrappedCtor c);
                 lastIndex := None |}).
  set (h7 := <[w := wo7]> h6).
  assert (Hlen2 : w < length h2) by (by eapply lookup_lt_Some).
  assert (Hw4 : h4 !! w = Some wo4) by (by apply list_lookup_insert_eq).
  assert (Hw6 : h6 !! w = Some wo6)
    by (apply list_lookup_insert_eq; by rewrite length_insert).
  assert (Hw7 : h7 !! w = Some wo7)
    by (apply list_lookup_insert_eq; by rewrite !length_insert).
  assert (Hext4 : ∀ l o, h !! l = Some o → h4 !! l = Some o).
  { intros l o Hl. rewrite /h4 list_lookup_insert_ne; [by apply Hext2|].
    apply lookup_lt_Some in Hl. rewrite /w. lia. }
  assert (Hext7 : ∀ l o, h !! l = Some o → h7 !! l = Some o).
  { intros l o Hl. rewrite /h7 /h6 !list_lookup_insert_ne; [by apply Hext2|..];
      apply lookup_lt_Some in Hl; rewrite /w; lia. }
  assert (Hget1 : get run n c (KStr "prototype") h2 = Ret p h2).
  { destruct (plain_read_upd w [] h h2 n c (KStr "prototype")) as [Hp2 Hv2];
      [by apply ext_upd|apply not_elem_of_nil|done|].
    by rewrite (get_plain _ _ _ _ _ Hp2) Hv2. }
  assert (Hget2 : get run n c (KStr "name") h4 = Ret nm h4).
  { destruct (plain_read_upd w [] h h4 n c (KStr "name")) as [Hp4 Hv4];
      [by apply ext_upd|apply not_elem_of_nil|done|].
    by rewrite (get_plain _ _ _ _ _ Hp4) Hv4. }
  assert (Hdef1 : defineProperty w (KStr "prototype") (value_desc p) h2 = Ret tt h4).
  { by rewrite /defineProperty Hw2 /= /set_props Hw2. }
  assert (Hdef2 : defineProperty w (KStr "name") (value_desc nm) h4 = Ret tt h6).
  { by rewrite /defineProperty Hw4 /= /set_props Hw4. }
  assert (Hsp : setPrototypeOf w (Some c) h6 = Ret tt h7).
  { by rewrite /setPrototypeOf Hw6. }
  exists h7, wo7. split; [|split; [done|split; [done|split; [done|split; [done|]]]]].
  - rewrite /boundClass /alloc. fold w. fold wo0. fold po. fold h2.
    rewrite Hget1 /= Hdef1 /= Hget2 /= Hdef2 /= Hsp /=.
    by rewrite (Hext7 _ _ Hc).
  - intros k. simpl.
    repeat (destruct (decide _) as [<-|_];
            [intros _; repeat first [apply list_elem_of_here|apply list_elem_of_further]|]).
    done.
Qed.

End WrapperStatics.

(** X13.  The wrapper of [boundClass] exposes the static members of the
    original.  For every key other than [length], [name], [prototype],
    [arguments] and [caller], a symbol as well as a string, own to the
    original or inherited by it: the lookup of the key on the wrapper ends
    at the property at which the lookup on the original ended before the
    call.  The string-keyed own members are found as the copies made on the
    wrapper, the others through its prototype link to the original. *)
Theorem wrapper_statics run n h c co :
  h !! c = Some co →
  plain_read n h c (KStr "prototype") = true →
  plain_read n h c (KStr "name") = true →
  (∀ k p, assoc k (props co) = Some p → prop_ok h p = true) →
  ∃ h', boundClass run n c h = Ret (VObj (length h)) h'
        ∧ ∀ k r, (∀ s, k = KStr s → (s ∉ RESERVED_STATICS)) →
                 find_prop n h (Some c) k = Some r →
                 find_prop (S n) h' (Some (length h)) k = Some r.
Proof.
  intros Hc Hpp Hpn Hok.
  destruct (boundClass_steps run n h c co Hc Hpp Hpn)
    as (h7 & wo7 & Hb & Hext7 & Hw7 & Hpr7 & Hex7 & Hkeys).
  assert (Hne : c ≠ length h) by (apply lookup_lt_Some in Hc; lia).
  assert (Hres : ∀ s, KStr s ∈ [KStr "length"; KStr "name"; KStr "prototype"] →
                      s ∈ RESERVED_STATICS).
  { intros s Hs. rewrite /RESERVED_STATICS.
    repeat (apply elem_of_cons in Hs as [[= ->]|Hs];
            [repeat first [apply list_elem_of_here|apply list_elem_of_further]|]).
    by apply elem_of_nil in Hs. }
  destruct (copy_statics_spec c (length h) co (own_names co) Hne h7 wo7)
    as (h' & wo & Hcopy & Hw' & (Hpr & _ & _) & Hoth & Hkeep & Hcopied); try done.
  { by apply Hext7. }
  { intros k q Hk. eapply (prop_ok_upd (length h) []); [apply ext_upd, Hext7|by eapply Hok]. }
  { intros s q Hs Hq. destruct Hs. apply Hres, Hkeys. by rewrite Hq. }
  exists h'. split; [by rewrite Hb Hcopy|].
  intros k r Hk Hf.
  assert (Hext : ∀ l o, h !! l = Some o → h' !! l = Some o).
  { intros l o Hl. apply Hoth; [|by apply Hext7]. apply lookup_lt_Some in Hl. lia. }
  assert (Hfc : find_prop n h' (Some c) k = Some r).
  { eapply (find_prop_upd c []); [by apply ext_upd|apply not_elem_of_nil|done]. }
  rewrite /= Hw' Hpr Hpr7.
  assert (Hthree : ∀ j, KSym j ∉ [KStr "length"; KStr "name"; KStr "prototype"]).
  { intros j Hin. repeat (apply elem_of_cons in Hin as [[=]|Hin]).
    by apply elem_of_nil in Hin. }
  assert (Hnone : (∀ s, k = KStr s → s ∈ RESERVED_STATICS ∨ s ∉ own_names co) →
                  assoc k (props wo) = None).
  { intros Hs. rewrite (Hkeep k Hs).
    destruct (assoc k (props wo7)) eqn:Ha7; [|done].
    assert (Hin : k ∈ [KStr "length"; KStr "name"; KStr "prototype"])
      by (apply Hkeys; by rewrite Ha7).
    destruct k as [s|j]; [|by destruct (Hthree j)].
    by destruct (Hk s eq_refl (Hres s Hin)). }
  destruct (assoc k (props co)) as [p|] eqn:Ha.
  - destruct k as [s|j].
    + rewrite (Hcopied s p (own_names_elem _ _ _ Ha) (Hk s eq_refl) Ha).
      move: Hf. destruct n as [|n']; [done|]. by rewrite /= Hc Ha.
    + rewrite Hnone; [done|by intros s [=]].
  - rewrite Hnone; [done|].
    intros s ->. right. intros [q Hq]%own_names_assoc. by rewrite Ha in Hq.
Qed.

Lemma wrapper_statics_witness :
  ∃ h', boundClass run0 3 8 world_odd = Ret (VObj (length world_odd)) h'
        ∧ ∀ k r, (∀ s, k = KStr s → (s ∉ RESERVED_STATICS)) →
                 find_prop 3 world_odd (Some 8) k = Some r →
                 find_prop 4 h' (Some (length world_odd)) k = Some r.
Proof.
  apply (wrapper_statics run0 3 world_odd 8
           (fn 4 (class_props "Odd" 7 ++ [(KStr "make", method 5); (KSym 0, method 5)]))).
  - reflexivity.
  - reflexivity.
  - reflexivity.
  - apply props_ok_check. reflexivity.
Defined.

(** ** Instances that refuse new properties *)

Lemma defineProperty_sealed l k d h o :
  h !! l = Some o → assoc k (props o) = None → extensible o = false →
  ∃ msg, defineProperty l k d h = Thr (TypeError msg) h.
Proof.
  intros Hl Ha He. rewrite /defineProperty Hl Ha He.
  destruct (_ && _); [by eexists|]. destruct (negb _); by eexists.
Qed.

Lemma defineProperty_cases l k d h :
  is_Some (h !! l) →
  (∃ h', defineProperty l k d h = Ret tt h')
  ∨ (∃ msg, defineProperty l k d h = Thr (TypeError msg) h).
Proof.
  intros [o Hl]. rewrite /defineProperty Hl.
  destruct (_ && _); [right; by eexists|].
  destruct (negb _); [right; by eexists|].
  destruct (assoc k (props o)) as [cur|].
  - destruct (redefinable cur d); [left|right]; by eexists.
  - destruct (extensible o); [left|right]; by eexists.
Qed.

(** The instance after a step of a binder at another name: still without
    the property, still not extensible. *)
Lemma sealed_upd self m0 m h h3 so :
  upd self [m0] h h3 → m ≠ m0 →
  h !! self = Some so → extensible so = false → assoc m (props so) = None →
  ∃ so3, h3 !! self = Some so3 ∧ extensible so3 = false ∧ assoc m (props so3) = None.
Proof.
  intros Hu Hne Hs He Ha.
  destruct (Hu _ _ Hs) as (so3 & Hs3 & (_ & He3 & _) & _ & Ha3).
  exists so3. split; [done|]. split; [by rewrite He3|].
  rewrite Ha3; [done|]. by intros ->%list_elem_of_singleton.
Qed.

Lemma bindEager_sealed run n self ms h so m :
  NoDup ms → (∀ m', m' ∈ ms → quiet n h self m' = true) →
  h !! self = Some so → extensible so = false → assoc m (props so) = None →
  m ∈ ms → is_function h (read_value n h self m) = true →
  ∃ msg h', bindEager run n self ms h = Thr (TypeError msg) h'.
Proof.
  intros Hnd. revert h so.
  induction Hnd as [|m0 ms Hm0 Hnd IH]; intros h so Hq Hs He Ha Hin Hf.
  { by apply elem_of_nil in Hin. }
  assert (Hlt : self < length h) by (by eapply lookup_lt_Some).
  assert (Hrest : ∀ m', m' ∈ ms → quiet n h self m' = true)
    by (intros; apply Hq; by apply list_elem_of_further).
  rewrite bindEager_cons; [|apply Hq; apply list_elem_of_here].
  destruct (decide (m = m0)) as [<-|Hne].
  - rewrite Hf.
    destruct (defineProperty_sealed self m (bound_desc (VObj (length h)))
                (h ++ [bound_function n h (read_value n h self m) (VObj self)]) so)
      as [msg ->]; [by rewrite lookup_app_l|done|done|].
    by exists msg, (h ++ [bound_function n h (read_value n h self m) (VObj self)]).
  - assert (Hin' : m ∈ ms) by (by apply elem_of_cons in Hin as [?|?]).
    destruct (is_function h (read_value n h self m0)); [|by eapply IH].
    assert (Hs1 : is_Some ((h ++ [bound_function n h (read_value n h self m0) (VObj self)])
                           !! self)).
    { by rewrite lookup_app_l. }
    destruct (defineProperty_cases self m0 (bound_desc (VObj (length h))) _ Hs1)
      as [[h3 Hd]|[msg Hd]]; rewrite Hd /=; [|by eexists _, _].
    pose proof (defineProperty_upd _ _ _ _ _ Hd) as Hu3.
    pose proof (upd_trans self [] [m0] _ _ _ (upd_alloc self [] _ h) Hu3) as Hu.
    simpl in Hu.
    destruct (sealed_upd _ _ _ _ _ _ Hu Hne Hs He Ha) as (so3 & Hs3 & He3 & Ha3).
    pose proof (quiet_rest self n h h3 m0 ms Hu Hm0 Hq) as Hrest3.
    apply (IH h3 so3); try done.
    + intros m' Hm'. by apply Hrest3.
    + rewrite (proj2 (Hrest3 m Hin')). by eapply is_function_upd_true.
Qed.

Lemma bindLazy_sealed n self ms h so m p :
  NoDup ms → (∀ m', m' ∈ ms → ∃ d, lazy_descriptor n h self m' = Ret d h) →
  h !! self = Some so → extensible so = false → assoc m (props so) = None →
  m ∈ ms → lazy_descriptor n h self m = Ret (Some p) h →
  is_function h (prop_value p) = true →
  ∃ msg h', bindLazy n self ms h = Thr (TypeError msg) h'.
Proof.
  intros Hnd. revert h so.
  induction Hnd as [|m0 ms Hm0 Hnd IH]; intros h so Hld Hs He Ha Hin Hd Hf.
  { by apply elem_of_nil in Hin. }
  assert (Hlt : self < length h) by (by eapply lookup_lt_Some).
  assert (Hrest : ∀ m', m' ∈ ms → ∃ d, lazy_descriptor n h self m' = Ret d h)
    by (intros; apply Hld; by apply list_elem_of_further).
  rewrite bindLazy_cons.
  destruct (decide (m = m0)) as [<-|Hne].
  - rewrite Hd Hf.
    destruct (defineProperty_sealed self m (getter_desc (VObj (length h)))
                (h ++ [closure (LazyGetter (prop_value p) self m) []]) so)
      as [msg ->]; [by rewrite lookup_app_l|done|done|].
    by exists msg, (h ++ [closure (LazyGetter (prop_value p) self m) []]).
  - assert (Hin' : m ∈ ms) by (by apply elem_of_cons in Hin as [?|?]).
    destruct (Hld m0) as [d0 ->]; [apply list_elem_of_here|].
    destruct d0 as [d0|]; [|by eapply IH].
    destruct (is_function h (prop_value d0)); [|by eapply IH].
    assert (Hs1 : is_Some ((h ++ [closure (LazyGetter (prop_value d0) self m0) []]) !! self)).
    { by rewrite lookup_app_l. }
    destruct (defineProperty_cases self m0 (getter_desc (VObj (length h))) _ Hs1)
      as [[h3 Hdef]|[msg Hdef]]; rewrite Hdef /=; [|by eexists _, _].
    pose proof (defineProperty_upd _ _ _ _ _ Hdef) as Hu3.
    pose proof (upd_trans self [] [m0] _ _ _ (upd_alloc self [] _ h) Hu3) as Hu.
    simpl in Hu.
    destruct (sealed_upd _ _ _ _ _ _ Hu Hne Hs He Ha) as (so3 & Hs3 & He3 & Ha3).
    assert (Hk : ∀ m', m' ∈ ms → m' ∉ [m0]).
    { intros m' Hm' ->%list_elem_of_singleton. done. }
    apply (IH h3 so3); try done.
    + intros m' Hm'. destruct (Hrest m' Hm') as [d' Hd']. exists d'.
      eapply lazy_descriptor_upd; [exact Hu|by apply Hk|done].
    + eapply lazy_descriptor_upd; [exact Hu|by apply Hk|done].
    + by eapply is_function_upd_true.
Qed.

(** X14.  [autoBind] on an instance that is not extensible fails as soon
    as there is something to bind.  If a retained name is no own property
    of the instance and reads as a callable (reading each retained name on
    the instance running no getter, each callable value read having the
    built-in [bind] and not having the instance on its prototype chain),
    then [autoBind], in either mode, throws a [TypeError]: the one of the
    [Object.defineProperty] that the instance rejects. *)
Theorem sealed_instance_throws run n h self so a m :
  h !! self = Some so → extensible so = false → assoc m (props so) = None →
  (∀ m', m' ∈ retained n h self a → quiet n h self m' = true) →
  m ∈ retained n h self a →
  is_function h (read_value n h self m) = true →
  ∃ msg h', autoBind run n self a h = Thr (TypeError msg) h'.
Proof.
  intros Hs He Ha Hq Hm Hf.
  pose proof (retained_NoDup n h self a) as Hnd.
  destruct (retained_discovered _ _ _ _ _ Hm) as (all & Hall & Hmall).
  assert (Hfl : ∃ h0, filtering n h self a = Ret (retained n h self a) h0).
  { move: Hm. rewrite /retained.
    destruct (filtering n h self a) as [ms h0| |]; [by eexists| |];
      intros Hm; by apply elem_of_nil in Hm. }
  destruct Hfl as [h0 Hfl].
  destruct (filtering_Ret self _ _ _ _ _ Hfl) as (_ & _ & Hu0 & _).
  destruct (Hu0 _ _ Hs) as (so0 & Hs0 & (_ & He0 & _) & _ & Ha0).
  rewrite He in He0. rewrite -(Ha0 m (not_elem_of_nil _)) in Ha.
  rewrite autoBind_unfold Hfl. cbn [bindR].
  destruct (opt_lazy (options_of a)).
  - destruct (lazy_descriptor_read n h self so m Hs) as (d & Hd & Hv);
      [by rewrite -(Ha0 m (not_elem_of_nil _))|by rewrite Hall|by apply quiet_plain, Hq|].
    rewrite -Hv in Hf.
    assert (Hld : ∀ m' d', lazy_descriptor n h self m' = Ret d' h →
                           lazy_descriptor n h0 self m' = Ret d' h0).
    { intros m' d'. by apply (lazy_descriptor_upd self []); [|apply not_elem_of_nil]. }
    destruct (bindLazy_sealed n self _ h0 so0 m d Hnd) as (msg & h' & ->); try done.
    + intros m' Hm'. destruct (lazy_descriptor_total n h self all m' Hall) as [d' Hd'].
      * intros ->. by apply elem_of_nil in Hmall.
      * exists d'. by apply Hld.
    + by apply Hld.
    + by eapply is_function_upd_true.
    + by exists msg, h'.
  - pose proof (quiet_after self n h h0 _ Hu0 Hq) as Hq0.
    destruct (bindEager_sealed run n self _ h0 so0 m Hnd
                (λ m' Hm', proj1 (Hq0 m' Hm')) Hs0 He0 Ha Hm)
      as (msg & h' & ->).
    + rewrite (proj2 (Hq0 m Hm)). by eapply is_function_upd_true.
    + by exists msg, h'.
Qed.

Lemma sealed_instance_throws_witness :
  ∃ msg h', autoBind run0 3 6 (OOpts lazy_opts) world_sealed = Thr (TypeError msg) h'.
Proof.
  apply (sealed_instance_throws run0 3 world_sealed 6
           {| proto := Some 3; props := [(KStr "name", field (VStr "foo"))];
              extensible := false; callable := None; lastIndex := None |}
           (OOpts lazy_opts) (KStr "getName")).
  - reflexivity.
  - reflexivity.
  - reflexivity.
  - apply forallb_elem. reflexivity.
  - apply list_elem_of_here.
  - reflexivity.
Defined.

(** X15.  A lazily bound name cannot be read once its accessor is no longer
    configurable (the instance was frozen or sealed after the binding):
    the getter creates the bound function (the callable having the built-in
    [bind]), and its [Object.defineProperty] on the instance throws a
    [TypeError]; the read throws it, whatever the attributes the accessor
    was left with otherwise. *)
Theorem lazy_read_frozen run k self m h g s e go f :
  own_prop h self m = Some (Accessor (VObj g) s e false) →
  h !! g = Some go → callable go = Some (LazyGetter f self m) →
  has_builtin_bind k h f = true →
  get run (S k) self m h
  = Thr (TypeError "Cannot redefine property") (h ++ [bound_function k h f (VObj self)]).
Proof.
  intros Hown Hg Hc Hbind.
  assert (Hs : ∃ so, h !! self = Some so
                     ∧ assoc m (props so) = Some (Accessor (VObj g) s e false)).
  { move: Hown. rewrite /own_prop. destruct (h !! self) as [so|]; [|done]. by exists so. }
  destruct Hs as (so & Hs & Ha).
  assert (Hlt : self < length h) by (by eapply lookup_lt_Some).
  rewrite /get /get_with /= Hs Ha /= Hg Hc /lazy_getter.
  rewrite (call_bind_builtin run k h f (VObj self) Hbind). cbn [bindR].
  by rewrite /defineProperty lookup_app_l // Hs /= Ha /=.
Qed.

Lemma lazy_read_frozen_witness :
  get run0 3 6 (KStr "getName") world_lazy_frozen
  = Thr (TypeError "Cannot redefine property")
        (world_lazy_frozen ++ [bound_function 2 world_lazy_frozen (VObj 5) (VObj 6)]).
Proof.
  apply (lazy_read_frozen run0 2 6 (KStr "getName") world_lazy_frozen 7 VUndef false
           (closure (LazyGetter (VObj 5) 6 (KStr "getName")) []) (VObj 5)).
  - reflexivity.
  - reflexivity.
  - reflexivity.
  - reflexivity.
Defined.

(** X16.  A method decorated with [bound] cannot be read through an object
    that is not extensible and has no own property of that name: the getter
    creates the bound function (the method having the built-in [bind]), and
    its [Object.defineProperty] on that object throws a [TypeError]. *)
Theorem bound_read_sealed run n i io k h g s e c go fn target :
  find_prop n h (Some i) k = Some (Some (Accessor (VObj g) s e c)) →
  h !! g = Some go → callable go = Some (BoundGetter fn target k) →
  VObj i ≠ target →
  h !! i = Some io → assoc k (props io) = None → extensible io = false →
  has_builtin_bind (pred n) h fn = true →
  get run n i k h
  = Thr (TypeError "Cannot define property, object is not extensible")
        (h ++ [bound_function (pred n) h fn (VObj i)]).
Proof.
  intros Hf Hg Hc Hne Hi Ha He Hbind. destruct n as [|n]; [done|]. cbn [pred] in *.
  assert (Hlt : i < length h) by (by eapply lookup_lt_Some).
  rewrite /get /get_with Hf /= Hg Hc /bound_getter bool_decide_eq_false_2 //.
  rewrite (call_bind_builtin run n h fn (VObj i) Hbind). cbn [bindR].
  by rewrite /defineProperty lookup_app_l // Hi /= Ha He.
Qed.

Lemma bound_read_sealed_witness :
  get run0 3 6 (KStr "getName") world_decorated_sealed
  = Thr (TypeError "Cannot define property, object is not extensible")
        (world_decorated_sealed
         ++ [bound_function (pred 3) world_decorated_sealed (VObj 5) (VObj 6)]).
Proof.
  apply (bound_read_sealed run0 3 6
           {| proto := Some 3; props := [(KStr "name", field (VStr "foo"))];
              extensible := false; callable := None; lastIndex := None |}
           (KStr "getName") world_decorated_sealed 7 VUndef false true
           (closure (BoundGetter (VObj 5) (VObj 3) (KStr "getName")) []) (VObj 5) (VObj 3)).
  - reflexivity.
  - reflexivity.
  - reflexivity.
  - discriminate.
  - reflexivity.
  - reflexivity.
  - reflexivity.
  - reflexivity.
Defined.
(** ** The receiver of the getters *)

(** X17.  The getter of [bindLazy] ignores the object it is read through.
    Read through any object whose lookup of the name ends at that getter,
    the instance itself or an object inheriting from it, when the callable
    the getter closed over has the built-in [bind] and the name is
    definable on the instance (the instance is extensible and has no
    property of that name, or its property of that name is configurable),
    it creates the bound function with the instance it was installed on as
    receiver and defines it on that instance; an inheriting object gets no
    property of its own. *)
Theorem lazy_getter_receiver run n b m h g s e c go f self :
  find_prop n h (Some b) m = Some (Some (Accessor (VObj g) s e c)) →
  h !! g = Some go → callable go = Some (LazyGetter f self m) →
  definable h self m = true →
  has_builtin_bind (pred n) h f = true →
  ∃ h3, get run n b m h = Ret (VObj (length h)) h3
        ∧ h3 !! length h = Some (bound_function (pred n) h f (VObj self))
        ∧ own_prop h3 self m = Some (Data (VObj (length h)) true false true)
        ∧ (b ≠ self → own_prop h3 b m = own_prop h b m).
Proof.
  intros Hf Hg Hc Hdef Hbind. destruct n as [|n]; [done|]. cbn [pred] in *.
  assert (Hs : is_Some (h !! self)).
  { move: Hdef. rewrite /definable. destruct (h !! self); [by eexists|done]. }
  assert (Hlt : self < length h) by (by apply lookup_lt_is_Some_1).
  destruct (defineProperty_definable self m (bound_desc (VObj (length h)))
              (h ++ [bound_function n h f (VObj self)])) as [h3 Hd]; [|done|done|].
  { by apply definable_alloc. }
  pose proof (defineProperty_upd _ _ _ _ _ Hd) as Hu3.
  exists h3. split; [|split; [|split]].
  - rewrite /get /get_with Hf /= Hg Hc /lazy_getter.
    rewrite (call_bind_builtin run n h f (VObj self) Hbind). cbn [bindR]. by rewrite Hd.
  - eapply (upd_other self [m]); [done|lia| |done].
    by rewrite lookup_app_r // Nat.sub_diag.
  - rewrite (defineProperty_own _ _ _ _ _ Hd). by rewrite bound_desc_prop.
  - intros Hne. rewrite /own_prop.
    assert (Hb : is_Some (h !! b)).
    { move: Hf. simpl. destruct (h !! b); [by eexists|done]. }
    destruct Hb as [bo Hb]. rewrite Hb.
    destruct (upd_other_props _ _ _ _ b bo Hu3 Hne) as (bo' & -> & _ & ->); [|done].
    rewrite lookup_app_l //. by eapply lookup_lt_Some.
Qed.

Lemma lazy_getter_receiver_witness :
  ∃ h3, get run0 3 8 (KStr "getName") world_derived = Ret (VObj (length world_derived)) h3
        ∧ h3 !! length world_derived
          = Some (bound_function (pred 3) world_derived (VObj 5) (VObj 6))
        ∧ own_prop h3 6 (KStr "getName")
          = Some (Data (VObj (length world_derived)) true false true)
        ∧ (8 ≠ 6 → own_prop h3 8 (KStr "getName") = own_prop world_derived 8 (KStr "getName")).
Proof.
  apply (lazy_getter_receiver run0 3 8 (KStr "getName") world_derived 7 VUndef false true
           (closure (LazyGetter (VObj 5) 6 (KStr "getName")) []) (VObj 5) 6).
  - reflexivity.
  - reflexivity.
  - reflexivity.
  - reflexivity.
  - reflexivity.
Defined.
